(** * rockbox_fetch: the deployment pipeline of [rockbox_fetch.py]

    A shallow embedding of the script's pipeline: the volume as a finite
    map from paths to entries, the HTTP session with its retry policy, build
    discovery over index pages, snapshots, the merge copy, and [main].

    Conventions of the embedding
    - a [pathlib.Path] is the list of its components, root first; the volume
      is a [gmap] from such paths to entries, the root directory being the
      entry at [[]];
    - effectful code is a function [World -> result A * World]; a raised
      Python exception is [Raise e] and leaves the world as it was when the
      exception was raised;
    - [log] and [warn] only print and are left out; [die msg] keeps [msg] in
      the exception it raises;
    - text (a Python [str]) is the [string] of the bytes of its UTF-8 form:
      a character of ASCII is one byte below 128, any other character is a
      lead byte (192 and above) with the continuation bytes (128 to 191)
      that follow it, and the order of strings is the order of their bytes,
      which is the order of their code points; the regex class [\d] holds
      the digits of ASCII and the characters outside ASCII that the Unicode
      database of the interpreter has as decimal digits;
    - the clock is read where the script reads it and does not advance
      during a run; a directory carries the time it was made, and the
      filing of an entry under it does not touch that time;
    - permission failures of the volume, symbolic links and redirects of
      the server are not modelled; a temporary directory is a scratch tree
      of its own, outside the volume. *)

From Stdlib Require Import ZArith List String Ascii Bool Lia.
From stdpp Require Import gmap strings list fin_maps pretty.

Set Warnings "-register-all".

Local Open Scope string_scope.
Local Open Scope Z_scope.
Local Open Scope list_scope.
Local Open Scope stdpp_scope.

(** ** Paths, entries of the volume, exceptions *)

Abbreviation path := (list string).

(** [Path.parent]: the parent of the root is the root. *)
Definition parent (p : path) : path := removelast p.

(** [Path.name] / [os.path.basename]. *)
Definition basename (p : path) : string := List.last p "".

(** An entry of the volume: a regular file with its bytes and modification
    time, or a directory (with the time it was made). *)
Inductive entry :=
  | EFile (data : string) (mtime : Z)
  | EDir (mtime : Z).

Definition st_mtime (e : entry) : Z :=
  match e with EFile _ m => m | EDir m => m end.

(** A tree on scratch storage: an unpacked archive in a temporary
    directory. [os.walk] and [shutil.copy2] read it; nothing writes to it. *)
Inductive node :=
  | File (data : string) (mtime : Z)
  | Dir (entries : list (string * node)).

(** The message of a [die(...)] call, one constructor per call site. *)
Inductive die_msg :=
  | NoNightlyBuilds (device : string)
  | DateMustBeYYYYMMDD
  | CannotWrite (p : path)
  | BackupNotFound (p : path)
  | ArchiveLacksRockbox
  | NeedDevice.

Inductive exn :=
  | SystemExit (m : die_msg)            (* die(msg): warn(msg); sys.exit(1) *)
  | SystemExit403 (url : string)        (* raise SystemExit("[!] HTTP 403 for ...") *)
  | FileExistsError (p : path)
  | FileNotFoundError (p : path)
  | NotADirectoryError (p : path)
  | IsADirectoryError (p : path)
  | ValueError
  | IndexError
  | HTTPError (status : Z)              (* Response.raise_for_status *)
  | RetryError (url : string)           (* retries exhausted on a status *)
  | ConnectionError (url : string)      (* retries exhausted on the transport *)
  | BadArchive.                         (* BadZipFile / tarfile.ReadError *)

Inductive result (A : Type) :=
  | Ok (a : A)
  | Raise (e : exn).
Arguments Ok {A} a.
Arguments Raise {A} e.

(** ** The world and the monad of effects *)

(** What an observer of the run sees happen, in order. *)
Inductive event :=
  | EvRequest (url : string)            (* one HTTP GET put on the wire *)
  | EvMkdir (p : path)                  (* a directory was made *)
  | EvWriteFile (p : path)              (* a file was created or overwritten *)
  | EvUnlink (p : path).                (* a file was removed *)

Record World := mkWorld {
  w_fs : gmap path entry;               (* the volume *)
  w_now : Z;                            (* time.time(), in seconds *)
  w_trace : list event                  (* events so far, oldest first *)
}.

Definition M (A : Type) : Type := World -> result A * World.

Definition ret {A} (a : A) : M A := fun w => (Ok a, w).

Definition bind {A B} (m : M A) (k : A -> M B) : M B :=
  fun w => match m w with
           | (Ok a, w') => k a w'
           | (Raise e, w') => (Raise e, w')
           end.

Definition raise {A} (e : exn) : M A := fun w => (Raise e, w).

Definition die {A} (m : die_msg) : M A := raise (SystemExit m).

Notation "x <- c1 ;; c2" := (bind c1 (fun x => c2))
  (at level 100, c1 at next level, right associativity).
Notation "c1 ;; c2" := (bind c1 (fun _ => c2))
  (at level 100, right associativity).

(** [for x in l: body x]. *)
Fixpoint for_ {A} (l : list A) (body : A -> M unit) : M unit :=
  match l with
  | [] => ret tt
  | x :: l' => body x ;; for_ l' body
  end.

(** [try: m  except <any exception>: pass]. *)
Definition try_pass (m : M unit) : M unit :=
  fun w => match m w with
           | (Ok _, w') => (Ok tt, w')
           | (Raise _, w') => (Ok tt, w')
           end.

Definition set_fs (f : gmap path entry) (ev : event) (w : World) : World :=
  mkWorld f (w_now w) (w_trace w ++ [ev]).

Definition set_now (t : Z) (w : World) : World :=
  mkWorld (w_fs w) t (w_trace w).

(** ** File-system primitives *)

(** [Path.exists()], [Path.is_dir()]. *)
Definition exists_ (p : path) : M bool :=
  fun w => (Ok (bool_decide (is_Some (w_fs w !! p))), w).

(** Reading a whole file. *)
Definition read_file (p : path) : M string :=
  fun w =>
    match w_fs w !! p with
    | Some (EFile data _) => (Ok data, w)
    | Some (EDir _) => (Raise (IsADirectoryError p), w)
    | None => (Raise (FileNotFoundError p), w)
    end.

(** A value or an exception of a library call, taken into the monad. *)
Definition lift {A} (r : result A) : M A := fun w => (r, w).

Definition is_dir (f : gmap path entry) (p : path) : bool :=
  match f !! p with Some (EDir _) => true | _ => false end.

(** What stands in the way of creating an entry at [p]: its parent has to
    be a directory. *)
Definition create_check (f : gmap path entry) (p : path) : option exn :=
  match f !! parent p with
  | Some (EDir _) => None
  | Some (EFile _ _) => Some (NotADirectoryError p)
  | None => Some (FileNotFoundError p)
  end.

(** [p.mkdir(exist_ok=True)]: nothing to do on a directory, an error on a
    file; otherwise the directory is made under an existing parent. *)
Definition mkdir (p : path) : M unit :=
  fun w =>
    match w_fs w !! p with
    | Some (EDir _) => (Ok tt, w)
    | Some (EFile _ _) => (Raise (FileExistsError p), w)
    | None =>
        match create_check (w_fs w) p with
        | Some e => (Raise e, w)
        | None => (Ok tt, set_fs (<[p := EDir (w_now w)]> (w_fs w)) (EvMkdir p) w)
        end
    end.

(** Writing a whole file at [p] with modification time [mtime]:
    [open(p, "w")] followed by the write (and by [copystat] for [copy2]). *)
Definition write_file (p : path) (data : string) (mtime : Z) : M unit :=
  fun w =>
    match w_fs w !! p with
    | Some (EDir _) => (Raise (IsADirectoryError p), w)
    | Some (EFile _ _) =>
        (Ok tt, set_fs (<[p := EFile data mtime]> (w_fs w)) (EvWriteFile p) w)
    | None =>
        match create_check (w_fs w) p with
        | Some e => (Raise e, w)
        | None =>
            (Ok tt, set_fs (<[p := EFile data mtime]> (w_fs w)) (EvWriteFile p) w)
        end
    end.

(** [p.unlink(missing_ok=True)]: a missing file is fine, a path through a
    regular file is not. *)
Definition unlink (p : path) : M unit :=
  fun w =>
    match w_fs w !! p with
    | None =>
        match w_fs w !! parent p with
        | Some (EFile _ _) => (Raise (NotADirectoryError p), w)
        | _ => (Ok tt, w)
        end
    | Some (EDir _) => (Raise (IsADirectoryError p), w)
    | Some (EFile _ _) => (Ok tt, set_fs (delete p (w_fs w)) (EvUnlink p) w)
    end.

(** ** Scratch trees: lookup and [os.walk] *)

Fixpoint assoc (n : string) (es : list (string * node)) : option node :=
  match es with
  | [] => None
  | (m, c) :: es' => if String.eqb n m then Some c else assoc n es'
  end.

Fixpoint tree_lookup (t : node) (p : path) : option node :=
  match p with
  | [] => Some t
  | n :: p' =>
      match t with
      | Dir es => match assoc n es with
                  | Some c => tree_lookup c p'
                  | None => None
                  end
      | File _ _ => None
      end
  end.

Definition is_dir_node (c : node) : bool :=
  match c with Dir _ => true | File _ _ => false end.

(** The names [os.walk] reports as [dirs] and as [files] of one directory. *)
Definition dirnames (es : list (string * node)) : list string :=
  map fst (List.filter (fun e => is_dir_node (snd e)) es).

Definition filenames (es : list (string * node)) : list string :=
  map fst (List.filter (fun e => negb (is_dir_node (snd e))) es).

(** [os.walk(top)], top-down: the triple of [top], then the walks of its
    sub-directories in turn. *)
Fixpoint walk (top : path) (t : node) : list (path * list string * list string) :=
  match t with
  | File _ _ => []
  | Dir es =>
      (top, dirnames es, filenames es)
        :: flat_map (fun e => walk (top ++ [fst e]) (snd e)) es
  end.

(** [os.walk] of a path that is missing or not a directory yields nothing. *)
Definition os_walk (scratch : node) (top : path) : list (path * list string * list string) :=
  match tree_lookup scratch top with
  | Some t => walk top t
  | None => []
  end.

(** [Path(root).relative_to(base)]. *)
Fixpoint relative_to (root base : path) : option path :=
  match base, root with
  | [], _ => Some root
  | b :: base', r :: root' => if String.eqb b r then relative_to root' base' else None
  | _ :: _, [] => None
  end.

(** ** Merge copy *)

(** [shutil.copy2(src, dst)]: a [dst] that is a directory receives the file
    under the source's base name; the bytes and the modification time of
    the source are written at the destination. *)
Definition copy2 (scratch : node) (src dst : path) : M unit :=
  fun w =>
    let target := if is_dir (w_fs w) dst then dst ++ [basename src] else dst in
    match tree_lookup scratch src with
    | Some (File data mtime) => write_file target data mtime w
    | Some (Dir _) => (Raise (IsADirectoryError src), w)
    | None => (Raise (FileNotFoundError src), w)
    end.

Definition merge_copy (scratch : node) (src_dir dst_dir : path) : M unit :=
  mkdir dst_dir ;;
  for_ (os_walk scratch src_dir) (fun '(root, dirs, files) =>
    match relative_to root src_dir with
    | None => raise ValueError
    | Some rel =>
        let dst_sub := dst_dir ++ rel in
        mkdir dst_sub ;;
        for_ dirs (fun d => mkdir (dst_sub ++ [d])) ;;
        for_ files (fun f => copy2 scratch (root ++ [f]) (dst_sub ++ [f]))
    end).

(** ** The host: what the script reaches through libraries

    One value of [Host] fixes the collaborators the script calls but does
    not define: the HTTP server, [urllib.parse.urljoin], path parsing, the
    mount-point discovery (it only reads the volume), time formatting, the
    zip and tar codecs, and the Unicode database behind the class [\d]. *)

(** What one request put on the wire comes back with. *)
Inductive outcome :=
  | Response (status : Z) (retry_after : bool) (body : string)
  | Unreachable.                        (* connection refused, reset, timed out *)

(** An opened [ZipFile]: its member names and what [extractall] leaves in
    the directory it is given. *)
Record zipfile := mkZip {
  namelist : list string;
  zip_extractall : result node
}.

Record Host := mkHost {
  (* the server's answer to a GET of a URL, after the URLs requested so far *)
  server : list string -> string -> outcome;
  urljoin : string -> string -> string;
  (* pathlib.Path(s) *)
  Path : string -> path;
  (* resolve_mount_path(label, mount_root, mount_path_cli), on a volume *)
  resolve_mount_path :
    option string -> string -> option string -> gmap path entry -> result path;
  (* datetime.now().strftime("%Y%m%d-%H%M%S") *)
  strftime : Z -> string;
  (* the bytes tarfile writes for tar.add(p, arcname=".rockbox") *)
  tar_add : gmap path entry -> path -> string;
  (* what tar.extractall leaves in the directory it is given *)
  tar_extractall : string -> result node;
  (* ZipFile(io.BytesIO(bytes)) *)
  ZipFile : string -> result zipfile;
  (* whether a character outside ASCII, given by its bytes, is a decimal
     digit (category Nd) in the Unicode database of the interpreter *)
  unicode_decimal : string -> bool
}.

(** ** HTTP: the session, its retry policy, [get_text] and [get_bytes] *)

Definition BASE_RELEASE : string := "https://download.rockbox.org/release/".
Definition BASE_DAILY : string := "https://download.rockbox.org/daily/".
Definition DAILY_SHTML : string := "https://www.rockbox.org/daily.shtml".
Definition DAILY_INDEX_TMPL (device : string) : string := BASE_DAILY +:+ device +:+ "/".

(** [urllib3.Retry], the fields the script sets ([backoff_factor] only
    spaces the attempts in time). *)
Record Retry := mkRetry {
  total : nat;
  status_forcelist : list Z
}.

Definition _retry : Retry := mkRetry 3 [403; 429; 500; 502; 503; 504].

(** [Retry.RETRY_AFTER_STATUS_CODES]. *)
Definition RETRY_AFTER_STATUS_CODES : list Z := [413; 429; 503].

Definition mem_Z (x : Z) (l : list Z) : bool := existsb (Z.eqb x) l.

(** [Retry.is_retry] for a GET: a status of the force list, or, while
    retries are left, a status that honours a [Retry-After] header. *)
Definition is_retry (forcelist : list Z) (left : nat) (status : Z) (has_retry_after : bool) : bool :=
  mem_Z status forcelist
  || (negb (Nat.eqb left 0) && has_retry_after && mem_Z status RETRY_AFTER_STATUS_CODES).

(** The URLs requested so far. *)
Definition requests (tr : list event) : list string :=
  omap (fun ev => match ev with EvRequest u => Some u | _ => None end) tr.

Definition log_request (url : string) (w : World) : World :=
  mkWorld (w_fs w) (w_now w) (w_trace w ++ [EvRequest url]).

(** [HTTPConnectionPool.urlopen] under a [Retry] with [left] retries left:
    the request is sent; a transport failure or a status to retry on sends
    it again while retries are left, and raises once they are used up. *)
Fixpoint urlopen (h : Host) (forcelist : list Z) (left : nat) (url : string) : M (Z * string) :=
  fun w =>
    let w1 := log_request url w in
    match server h (requests (w_trace w)) url with
    | Unreachable =>
        match left with
        | O => (Raise (ConnectionError url), w1)
        | S n => urlopen h forcelist n url w1
        end
    | Response status ra body =>
        if is_retry forcelist left status ra then
          match left with
          | O => (Raise (RetryError url), w1)
          | S n => urlopen h forcelist n url w1
          end
        else (Ok (status, body), w1)
    end.

(** [_session.get(url)] through the adapter mounted with [_retry]. *)
Definition session_get (h : Host) (url : string) : M (Z * string) :=
  urlopen h (status_forcelist _retry) (total _retry) url.

(** [Response.raise_for_status]. *)
Definition raise_for_status (status : Z) : M unit :=
  if (400 <=? status) && (status <? 600) then raise (HTTPError status) else ret tt.

Definition get_text (h : Host) (url : string) : M string :=
  r <- session_get h url ;;
  if fst r =? 403 then raise (SystemExit403 url) else
  raise_for_status (fst r) ;;
  ret (snd r).

Definition get_bytes (h : Host) (url : string) : M string :=
  r <- session_get h url ;;
  raise_for_status (fst r) ;;
  ret (snd r).

(** ** Build discovery: the regular expressions, by hand

    Each pattern is matched the way [re] matches it. Both patterns have one
    greedy class followed by a literal outside that class, so the only run
    that can be followed by the literal is the longest one: taking the
    longest run ([span]) loses no match to backtracking. Every pattern
    begins with a letter of ASCII, so none matches from the middle of a
    character. *)

(** The digits of ASCII, [0-9]. *)
Definition is_digit (c : ascii) : bool :=
  Nat.leb 48 (nat_of_ascii c) && Nat.leb (nat_of_ascii c) 57.

(** The bytes of a character outside ASCII: its lead byte, and the
    continuation bytes after it. *)
Definition is_lead (c : ascii) : bool := Nat.leb 192 (nat_of_ascii c).

Definition is_continuation (c : ascii) : bool :=
  Nat.leb 128 (nat_of_ascii c) && Nat.leb (nat_of_ascii c) 191.

Definition is_lower (c : ascii) : bool :=
  Nat.leb 97 (nat_of_ascii c) && Nat.leb (nat_of_ascii c) 122.

(** The class [[a-z0-9]]. *)
Definition is_lower_alnum (c : ascii) : bool := is_lower c || is_digit c.

(** The double quote, as a character and as a one-character string. *)
Definition dquote : ascii := ascii_of_nat 34.
Definition dquote_s : string := String dquote EmptyString.

(** The class of every character but the double quote. *)
Definition not_dquote (c : ascii) : bool := negb (Ascii.eqb c dquote).

(** A literal at the head of [s]: what follows it. *)
Fixpoint strip_prefix (lit s : string) : option string :=
  match lit with
  | EmptyString => Some s
  | String a lit' =>
      match s with
      | String b s' => if Ascii.eqb a b then strip_prefix lit' s' else None
      | EmptyString => None
      end
  end.

(** The longest run of a class at the head of [s], and what follows it. *)
Fixpoint span (cls : ascii -> bool) (s : string) : string * string :=
  match s with
  | String c s' =>
      if cls c then let r := span cls s' in (String c (fst r), snd r)
      else (EmptyString, s)
  | EmptyString => (EmptyString, EmptyString)
  end.

(** One character of the class [\d] at the head of [s], and what follows
    it: a digit of ASCII, or a character outside ASCII that the Unicode
    database has as a decimal digit. *)
Definition decimal_char (h : Host) (s : string) : option (string * string) :=
  match s with
  | EmptyString => None
  | String c s' =>
      if is_digit c then Some (String c EmptyString, s')
      else if is_lead c then
        let r := span is_continuation s' in
        if unicode_decimal h (String c (fst r)) then Some (String c (fst r), snd r)
        else None
      else None
  end.

(** Exactly [n] characters of the class [\d] at the head of [s]. *)
Fixpoint take_decimal (h : Host) (n : nat) (s : string) : option (string * string) :=
  match n with
  | O => Some (EmptyString, s)
  | S n' =>
      match decimal_char h s with
      | Some (c, s') =>
          match take_decimal h n' s' with
          | Some (r, rest) => Some (c +:+ r, rest)
          | None => None
          end
      | None => None
      end
  end.

(** A match of a pattern at the head of a string: its groups and the number
    of bytes it covers. *)
Record re_match (G : Type) := mkMatch { groups : G; width : nat }.
Arguments mkMatch {G} groups width.
Arguments groups {G} r.
Arguments width {G} r.

(** [NIGHTLY_RE = rockbox-(?P<device>[a-z0-9]+)-(?P<date>\d{8})\.zip] at the
    head of [s]; the groups are (device, date). *)
Definition NIGHTLY_RE_match (h : Host) (s : string) : option (re_match (string * string)) :=
  match strip_prefix "rockbox-" s with
  | None => None
  | Some s1 =>
      let dev := span is_lower_alnum s1 in
      if String.eqb (fst dev) "" then None else
      match strip_prefix "-" (snd dev) with
      | None => None
      | Some s2 =>
          match take_decimal h 8 s2 with
          | None => None
          | Some (date, s3) =>
              match strip_prefix ".zip" s3 with
              | None => None
              | Some _ =>
                  Some (mkMatch (fst dev, date)
                          (8 + String.length (fst dev) + 1 + String.length date + 4))
              end
          end
      end
  end.

(** The pattern of [re.findall] in the script: [href=], a double quote, one
    or more characters that are no double quote (the group), a double quote;
    here at the head of [s]. *)
Definition HREF_RE_match (s : string) : option (re_match string) :=
  match strip_prefix ("href=" +:+ dquote_s) s with
  | None => None
  | Some s1 =>
      let h := span not_dquote s1 in
      if String.eqb (fst h) "" then None else
      match strip_prefix dquote_s (snd h) with
      | None => None
      | Some _ => Some (mkMatch (fst h) (6 + String.length (fst h) + 1))
      end
  end.

(** [pattern.finditer(s)]: the matches from left to right, none of them
    overlapping. [skip] counts the characters of the last match that are
    still to be passed. *)
Fixpoint finditer_from {G} (match_at : string -> option (re_match G)) (skip : nat) (s : string)
  : list G :=
  match s with
  | EmptyString => []
  | String _ s' =>
      match skip with
      | S k => finditer_from match_at k s'
      | O =>
          match match_at s with
          | Some m => groups m :: finditer_from match_at (Nat.pred (width m)) s'
          | None => finditer_from match_at 0%nat s'
          end
      end
  end.

Definition NIGHTLY_RE_finditer (h : Host) (s : string) : list (string * string) :=
  finditer_from (NIGHTLY_RE_match h) 0 s.

(** [NIGHTLY_RE.search(s)]: the leftmost match. *)
Definition NIGHTLY_RE_search (h : Host) (s : string) : option (string * string) :=
  head (NIGHTLY_RE_finditer h s).

(** [re.findall] with the link pattern. *)
Definition findall_href (s : string) : list string :=
  finditer_from HREF_RE_match 0 s.

(** [re.fullmatch] with the pattern [\d{8}], as a truth value. *)
Definition fullmatch_d8 (h : Host) (s : string) : bool :=
  match take_decimal h 8 s with
  | Some (_, EmptyString) => true
  | _ => false
  end.

(** [max(l)] on strings: the first of the greatest, [ValueError] on an
    empty list. Strings compare by their characters, left to right; on the
    bytes of UTF-8 that is the comparison of bytes, left to right. *)
Fixpoint max_from (cur : string) (l : list string) : string :=
  match l with
  | [] => cur
  | x :: l' => max_from (if String.ltb cur x then x else cur) l'
  end.

Definition py_max (l : list string) : M string :=
  match l with
  | [] => raise ValueError
  | x :: l' => ret (max_from x l')
  end.

(** The list [dates] of [latest_nightly_url_for_device] when it is tested
    for emptiness the second time: the dates of the matches in the page that
    name the device and, when there are none, those found link by link. *)
Definition nightly_dates (h : Host) (device text : string) : list string :=
  let dates :=
    map snd (List.filter (fun m => String.eqb (fst m) device) (NIGHTLY_RE_finditer h text)) in
  if bool_decide (dates = []) then
    dates ++ flat_map (fun href =>
                match NIGHTLY_RE_search h href with
                | Some mm => if String.eqb (fst mm) device then [snd mm] else []
                | None => []
                end) (findall_href text)
  else dates.

Definition latest_nightly_url_for_device (h : Host) (device : string) : M (string * string) :=
  text <- get_text h (DAILY_INDEX_TMPL device) ;;
  let dates := nightly_dates h device text in
  (if bool_decide (dates = []) then die (NoNightlyBuilds device) else ret tt) ;;
  latest <- py_max dates ;;
  ret (urljoin h (BASE_DAILY +:+ device +:+ "/")
                 ("rockbox-" +:+ device +:+ "-" +:+ latest +:+ ".zip"), latest).

Definition nightly_url_for_date (h : Host) (device yyyymmdd : string) : M string :=
  (if negb (fullmatch_d8 h yyyymmdd) then die DateMustBeYYYYMMDD else ret tt) ;;
  ret (urljoin h (BASE_DAILY +:+ device +:+ "/")
                 ("rockbox-" +:+ device +:+ "-" +:+ yyyymmdd +:+ ".zip")).

Definition release_url (h : Host) (device version : string) : string :=
  urljoin h BASE_RELEASE (version +:+ "/rockbox-" +:+ device +:+ "-" +:+ version +:+ ".zip").

(** ** Volume helpers *)

Definition find_dot_rockbox (root : path) : path := root ++ [".rockbox"].

(** [ensure_writable]: a test file named after the clock is written and
    removed again; a failure to write it ends the run. The [finally] clause
    removes the file on both paths and swallows its own failures. *)
Definition ensure_writable (p : path) : M unit :=
  fun w =>
    let testfile := p ++ [".write_test_" +:+ pretty (w_now w)] in
    match write_file testfile "ok" (w_now w) w with
    | (Ok _, w1) => try_pass (unlink testfile) w1
    | (Raise _, w1) =>
        (Raise (SystemExit (CannotWrite p)), snd (try_pass (unlink testfile) w1))
    end.

(** ** Backup and revert *)

Definition backups_dir (root : path) : M path :=
  let b := root ++ [".rockbox_backups"] in
  mkdir b ;; ret b.

Definition create_backup (h : Host) (dot_rockbox : path) (dry verbose : bool) : M (option path) :=
  e <- exists_ dot_rockbox ;;
  if negb e then ret None else
  ts <- (fun w => (Ok (strftime h (w_now w)), w)) ;;
  b <- backups_dir (parent dot_rockbox) ;;
  let out := b ++ ["rockbox-backup-" +:+ ts +:+ ".tar.gz"] in
  if dry then ret (Some out) else
  (fun w => write_file out (tar_add h (w_fs w) dot_rockbox) (w_now w) w) ;;
  ret (Some out).

(** [s.endswith(suf)]. *)
Definition ends_with (suf s : string) : bool :=
  let ls := String.length s in
  let lf := String.length suf in
  Nat.leb lf ls && String.eqb (substring (ls - lf) lf s) suf.

(** The names the pattern [rockbox-backup-*.tar.gz] matches. *)
Definition is_backup_name (n : string) : bool :=
  match strip_prefix "rockbox-backup-" n with
  | Some rest => ends_with ".tar.gz" rest
  | None => false
  end.

(** [b.glob(pattern)]: the entries right under [b] whose name matches, in
    the order the volume lists them. *)
Definition glob_backups (f : gmap path entry) (b : path) : list (path * entry) :=
  List.filter (fun pe => bool_decide (fst pe = b ++ [basename (fst pe)])
                    && is_backup_name (basename (fst pe)))
         (map_to_list f).

(** [sorted(l, key=k)]: stable, ascending. *)
Fixpoint insert_by {A} (k : A -> Z) (x : A) (l : list A) : list A :=
  match l with
  | [] => [x]
  | y :: l' => if k x <? k y then x :: y :: l' else y :: insert_by k x l'
  end.

Definition sorted_by {A} (k : A -> Z) (l : list A) : list A :=
  fold_left (fun acc x => insert_by k x acc) l [].

Definition list_backups (root : path) : M (list path) :=
  b <- backups_dir root ;;
  fun w => (Ok (map fst (sorted_by (fun pe => st_mtime (snd pe)) (glob_backups (w_fs w) b))), w).

Definition restore_backup (h : Host) (root backup_tar : path) (dry : bool) : M unit :=
  let dot_rockbox := root ++ [".rockbox"] in
  if dry then ret tt else
  data <- read_file backup_tar ;;
  td <- lift (tar_extractall h data) ;;
  merge_copy td [".rockbox"] dot_rockbox.

(** ** Deploy *)

(** [p.split("/")[0]] for a [p] that has a slash in it. *)
Fixpoint before_slash (s : string) : option string :=
  match s with
  | EmptyString => None
  | String c s' =>
      if Ascii.eqb c "/" then Some EmptyString
      else option_map (String c) (before_slash s')
  end.

Definition unzip_and_deploy (h : Host) (zip_bytes : string) (mount_root : path) (dry verbose : bool)
  : M unit :=
  zf <- lift (ZipFile h zip_bytes) ;;
  (if negb (existsb (String.eqb ".rockbox") (omap before_slash (namelist zf)))
   then die ArchiveLacksRockbox else ret tt) ;;
  td <- lift (zip_extractall zf) ;;
  if dry then ret tt else
  merge_copy td [".rockbox"] (mount_root ++ [".rockbox"]).

(** ** Main *)

(** The parsed command line, without the listing flags: [main] below is
    the script's [main] when none of them is set. *)
Record Args := mkArgs {
  arg_device : option string;
  arg_date : option string;
  arg_release : option string;
  arg_label : option string;
  arg_mount_path : option string;
  arg_mount_root : string;
  arg_revert : option string;
  arg_dry_run : bool;
  arg_verbose : bool
}.

(** Truth value of an optional string: [None] and the empty string are false. *)
Definition truthy (o : option string) : bool :=
  match o with
  | Some s => negb (String.eqb s "")
  | None => false
  end.

Definition str (o : option string) : string := default "" o.

(** [l[-1]]. *)
Definition index_last {A} (l : list A) : M A :=
  match last l with
  | Some x => ret x
  | None => raise IndexError
  end.

Definition mount (h : Host) (args : Args) : M path :=
  fun w => (resolve_mount_path h (arg_label args) (arg_mount_root args)
              (arg_mount_path args) (w_fs w), w).

Definition main (h : Host) (args : Args) : M unit :=
  match arg_revert args with
  | Some rv =>
      mp <- mount h args ;;
      backup_tar <- (if String.eqb rv "latest"
                     then (bs <- list_backups mp ;; index_last bs)
                     else ret (Path h rv)) ;;
      e <- exists_ backup_tar ;;
      (if negb e then die (BackupNotFound backup_tar) else ret tt) ;;
      ensure_writable mp ;;
      restore_backup h mp backup_tar (arg_dry_run args)
  | None =>
      (if negb (truthy (arg_device args)) then die NeedDevice else ret tt) ;;
      mp <- mount h args ;;
      let dot_rb := find_dot_rockbox mp in
      url <- (if truthy (arg_release args) then
                ret (release_url h (str (arg_device args)) (str (arg_release args)))
              else if truthy (arg_date args) then
                nightly_url_for_date h (str (arg_device args)) (str (arg_date args))
              else
                r <- latest_nightly_url_for_device h (str (arg_device args)) ;;
                ret (fst r)) ;;
      ensure_writable mp ;;
      backup_path <- create_backup h dot_rb (arg_dry_run args) (arg_verbose args) ;;
      if arg_dry_run args then ret tt else
      zbytes <- get_bytes h url ;;
      unzip_and_deploy h zbytes mp (arg_dry_run args) (arg_verbose args)
  end.

(** ** Listing: devices and dailies

    The three listing functions of the script. What [main] prints of their
    results is left out with the rest of the printing. *)

(** [try: body  except SystemExit: pass], where the body either returns a
    value to the caller of the enclosing function ([Some]) or runs to its
    end ([None]). Both [die] and the 403 check of [get_text] raise
    [SystemExit]. *)
Definition except_SystemExit_pass {A} (body : M (option A)) : M (option A) :=
  fun w => match body w with
           | (Raise (SystemExit _), w') => (Ok None, w')
           | (Raise (SystemExit403 _), w') => (Ok None, w')
           | r => r
           end.

(** [sorted(set(l))] on strings: the members of [l], once each, in
    ascending order. *)
Fixpoint insert_str (x : string) (l : list string) : list string :=
  match l with
  | [] => [x]
  | y :: l' =>
      match String.compare x y with
      | Lt => x :: y :: l'
      | Eq => y :: l'
      | Gt => y :: insert_str x l'
      end
  end.

Definition sorted_set (l : list string) : list string :=
  fold_left (fun acc x => insert_str x acc) l [].

(** [sorted(set(l), reverse=True)]. *)
Definition sorted_set_reverse (l : list string) : list string := rev (sorted_set l).

(** The pattern of [list_devices_from_daily] for the index of the daily
    builds: [href=], a double quote, one or more of [[a-z0-9]] (the group),
    a slash, a double quote. *)
Definition DEVICE_DIR_RE_match (s : string) : option (re_match string) :=
  match strip_prefix ("href=" +:+ dquote_s) s with
  | None => None
  | Some s1 =>
      let d := span is_lower_alnum s1 in
      if String.eqb (fst d) "" then None else
      match strip_prefix ("/" +:+ dquote_s) (snd d) with
      | None => None
      | Some _ => Some (mkMatch (fst d) (6 + String.length (fst d) + 2))
      end
  end.

(** The first pattern for the daily page: [href=], a double quote, an
    optional slash, [daily/], one or more of [[a-z0-9]] (the group), a
    slash. The optional slash is taken when it is there: without it,
    [daily/] would have to begin with that slash. *)
Definition DAILY_HREF_RE_match (s : string) : option (re_match string) :=
  match strip_prefix ("href=" +:+ dquote_s) s with
  | None => None
  | Some s1 =>
      let s2 := match strip_prefix "/" s1 with
                | Some r => (r, 1%nat)
                | None => (s1, 0%nat)
                end in
      match strip_prefix "daily/" (fst s2) with
      | None => None
      | Some s3 =>
          let d := span is_lower_alnum s3 in
          if String.eqb (fst d) "" then None else
          match strip_prefix "/" (snd d) with
          | None => None
          | Some _ => Some (mkMatch (fst d) (6 + snd s2 + 6 + String.length (fst d) + 1))
          end
      end
  end.

(** The second pattern for the daily page is [NIGHTLY_RE] with the device
    as its one group: [re.findall] returns the devices. *)
Definition findall_zip_devices (h : Host) (s : string) : list string :=
  map fst (NIGHTLY_RE_finditer h s).

(** The pattern of [list_dailies_for_device] for the daily page:
    [rockbox-], the device taken literally ([re.escape]), a dash, eight
    characters of the class [\d] (the group), [.zip]. *)
Definition DEVICE_ZIP_RE_match (h : Host) (device s : string) : option (re_match string) :=
  match strip_prefix ("rockbox-" +:+ device +:+ "-") s with
  | None => None
  | Some s1 =>
      match take_decimal h 8 s1 with
      | None => None
      | Some (date, s2) =>
          match strip_prefix ".zip" s2 with
          | None => None
          | Some _ =>
              Some (mkMatch date (8 + String.length device + 1 + String.length date + 4))
          end
      end
  end.

(** The list [dirs] of [list_devices_from_daily]. *)
Definition device_dirs (text : string) : list string :=
  finditer_from DEVICE_DIR_RE_match 0 text.

(** The set [cand] of [list_devices_from_daily], as the list of what the
    two [findall] calls return. *)
Definition device_candidates (h : Host) (page : string) : list string :=
  finditer_from DAILY_HREF_RE_match 0 page ++ findall_zip_devices h page.

Definition list_devices_from_daily (h : Host) : M (list string) :=
  r <- except_SystemExit_pass
         (text <- get_text h BASE_DAILY ;;
          let dirs := device_dirs text in
          if bool_decide (dirs = []) then ret None else ret (Some (sorted_set dirs))) ;;
  match r with
  | Some devs => ret devs
  | None =>
      page <- get_text h DAILY_SHTML ;;
      ret (sorted_set (device_candidates h page))
  end.

(** The list [dates] of [list_dailies_for_device] when it is sorted: the
    dates of the matches in the page that name the device, then those found
    link by link (here the second pass always runs). *)
Definition daily_dates (h : Host) (device text : string) : list string :=
  map snd (List.filter (fun m => String.eqb (fst m) device) (NIGHTLY_RE_finditer h text))
  ++ flat_map (fun href =>
       match NIGHTLY_RE_search h href with
       | Some mm => if String.eqb (fst mm) device then [snd mm] else []
       | None => []
       end) (findall_href text).

Definition list_dailies_for_device (h : Host) (device : string) : M (list string) :=
  r <- except_SystemExit_pass
         (text <- get_text h (DAILY_INDEX_TMPL device) ;;
          let out := sorted_set_reverse (daily_dates h device text) in
          if bool_decide (out = []) then ret None else ret (Some out)) ;;
  match r with
  | Some out => ret out
  | None =>
      page <- get_text h DAILY_SHTML ;;
      ret (sorted_set_reverse (finditer_from (DEVICE_ZIP_RE_match h device) 0 page))
  end.

(** ** Listing: releases *)

(** The class of every character but the double quote and the slash. *)
Definition not_dquote_slash (c : ascii) : bool :=
  not_dquote c && negb (Ascii.eqb c "/").

(** The pattern of [list_releases]: [href=], a double quote, one or more
    characters that are neither a double quote nor a slash (the group), a
    slash, a double quote. *)
Definition HREF_DIR_RE_match (s : string) : option (re_match string) :=
  match strip_prefix ("href=" +:+ dquote_s) s with
  | None => None
  | Some s1 =>
      let d := span not_dquote_slash s1 in
      if String.eqb (fst d) "" then None else
      match strip_prefix ("/" +:+ dquote_s) (snd d) with
      | None => None
      | Some _ => Some (mkMatch (fst d) (6 + String.length (fst d) + 2))
      end
  end.

(** [re.fullmatch] with the pattern [\d+(\.\d+)+], as a truth value, read
    character by character. The pattern has one way through any string:
    each run of characters of the class [\d] is followed by a dot or by the
    end. [fuel] bounds the number of characters read. *)
Inductive version_state :=
  | VStart          (* nothing read: a digit has to come *)
  | VFirst          (* in the first run of digits *)
  | VDot            (* just after a dot: a digit has to come *)
  | VLater.         (* in a later run of digits: the string may end here *)

Fixpoint version_from (h : Host) (fuel : nat) (st : version_state) (s : string) : bool :=
  match fuel with
  | O => false
  | S fuel' =>
      match s with
      | EmptyString => match st with VLater => true | _ => false end
      | String c s' =>
          match decimal_char h s with
          | Some (_, rest) =>
              match st with
              | VStart | VFirst => version_from h fuel' VFirst rest
              | VDot | VLater => version_from h fuel' VLater rest
              end
          | None =>
              if Ascii.eqb c "." then
                match st with
                | VFirst | VLater => version_from h fuel' VDot s'
                | VStart | VDot => false
                end
              else false
          end
      end
  end.

Definition fullmatch_version (h : Host) (s : string) : bool :=
  version_from h (S (String.length s)) VStart s.

(** [s.split(sep)] for a separator of one character. *)
Fixpoint split_on (sep : ascii) (cur s : string) : list string :=
  match s with
  | EmptyString => [cur]
  | String c s' =>
      if Ascii.eqb c sep then cur :: split_on sep EmptyString s'
      else split_on sep (cur +:+ String c EmptyString) s'
  end.

(** A function that may raise, over a list, left to right. *)
Fixpoint map_result {A B} (f : A -> result B) (l : list A) : result (list B) :=
  match l with
  | [] => Ok []
  | x :: l' =>
      match f x with
      | Raise e => Raise e
      | Ok y => match map_result f l' with
                | Raise e => Raise e
                | Ok ys => Ok (y :: ys)
                end
      end
  end.

(** [<] on tuples of integers: by the first place where they differ, a
    proper prefix being the lesser. *)
Fixpoint tuple_ltb (a b : list N) : bool :=
  match a, b with
  | [], [] => false
  | [], _ :: _ => true
  | _ :: _, [] => false
  | x :: a', y :: b' =>
      if N.ltb x y then true else if N.ltb y x then false else tuple_ltb a' b'
  end.

(** [l.sort(key=k, reverse=True)] on a list that carries its keys: in
    descending order of the keys, members with equal keys in the order they
    had. *)
Fixpoint insert_desc {A} (x : list N * A) (l : list (list N * A)) : list (list N * A) :=
  match l with
  | [] => [x]
  | y :: l' => if tuple_ltb (fst y) (fst x) then x :: y :: l' else y :: insert_desc x l'
  end.

Definition sort_reverse {A} (l : list (list N * A)) : list (list N * A) :=
  fold_left (fun acc x => insert_desc x acc) l [].

Section Releases.

(** The built-in [int] on a string: the number it is read as in base ten,
    its digits being of any script, or the exception it raises (on a string
    that is no number, or one longer than the interpreter converts). *)
Variable py_int : string -> result N.

(** [tuple(map(int, v.split(".")))]. *)
Definition version_key (v : string) : result (list N) :=
  map_result py_int (split_on "." EmptyString v).

Definition list_releases (h : Host) : M (list string) :=
  text <- get_text h BASE_RELEASE ;;
  let hrefs := finditer_from HREF_DIR_RE_match 0 text in
  let versions := List.filter (fullmatch_version h) hrefs in
  keyed <- lift (map_result (fun v => match version_key v with
                                      | Ok k => Ok (k, v)
                                      | Raise e => Raise e
                                      end) versions) ;;
  ret (map snd (sort_reverse keyed)).

End Releases.

(** ** Printing a list *)

(** [_print_capped(items, max_list)], as the lines it prints.
    [print("  ", v)] separates its two arguments by a space. *)
Definition _print_capped (items : list string) (max_list : Z) : list string :=
  if 0 <? max_list then
    map (fun v => "   " +:+ v) (firstn (Z.to_nat max_list) items)
    ++ (if max_list <? Z.of_nat (length items)
        then ["  ... (" +:+ pretty (Z.of_nat (length items) - max_list) +:+ " more)"]
        else [])
  else map (fun v => "   " +:+ v) items.

(** * Definitions used to state and prove the properties *)

(** ** Merge copy as a run of primitive operations *)

Inductive op :=
  | OpMkdir (p : path)
  | OpCopy2 (src dst : path)
  | OpRaise (e : exn).

Definition exec (scratch : node) (o : op) : M unit :=
  match o with
  | OpMkdir p => mkdir p
  | OpCopy2 s d => copy2 scratch s d
  | OpRaise e => raise e
  end.

(** The operations one triple of the walk stands for. *)
Definition triple_ops (src_dir dst_dir : path) (t : path * list string * list string) : list op :=
  match relative_to (fst (fst t)) src_dir with
  | None => [OpRaise ValueError]
  | Some rel =>
      OpMkdir (dst_dir ++ rel)
        :: map (fun d => OpMkdir ((dst_dir ++ rel) ++ [d])) (snd (fst t))
        ++ map (fun f => OpCopy2 (fst (fst t) ++ [f]) ((dst_dir ++ rel) ++ [f])) (snd t)
  end.

Definition merge_ops (scratch : node) (src_dir dst_dir : path) : list op :=
  OpMkdir dst_dir :: flat_map (triple_ops src_dir dst_dir) (os_walk scratch src_dir).

(** Where [copy2] writes. *)
Definition copy2_target (f : gmap path entry) (src dst : path) : path :=
  if is_dir f dst then dst ++ [basename src] else dst.

(** An operation that has nothing left to do on a volume. *)
Definition done (scratch : node) (o : op) (f : gmap path entry) : Prop :=
  match o with
  | OpMkdir p => is_dir f p = true
  | OpCopy2 s d =>
      exists data mtime,
        tree_lookup scratch s = Some (File data mtime)
        /\ f !! copy2_target f s d = Some (EFile data mtime)
  | OpRaise _ => False
  end.

(** The copies of a merge pair a file of the source with the same relative
    path under the destination. *)
Definition shaped (src_dir dst_dir : path) (o : op) : Prop :=
  match o with
  | OpCopy2 s d => exists r n, s = src_dir ++ r ++ [n] /\ d = dst_dir ++ r ++ [n]
  | _ => True
  end.

(** What a successful operation did to the volume. *)
Inductive effect (scratch : node) (o : op) (f f' : gmap path entry) : Prop :=
  | eff_none : f' = f -> effect scratch o f f'
  | eff_mkdir p m :
      o = OpMkdir p -> f !! p = None -> f' = <[p := EDir m]> f ->
      effect scratch o f f'
  | eff_write s d data mtime :
      o = OpCopy2 s d ->
      tree_lookup scratch s = Some (File data mtime) ->
      is_dir f (copy2_target f s d) = false ->
      f' = <[copy2_target f s d := EFile data mtime]> f ->
      effect scratch o f f'.


(** Two entries of the same kind; a directory is the same directory. *)
Definition same_kind (e e' : entry) : Prop :=
  match e, e' with
  | EFile _ _, EFile _ _ => True
  | EDir m, EDir m' => m = m'
  | _, _ => False
  end.

(** [at_path t p c]: the node [c] sits at the path [p] of the scratch tree
    [t], by membership all the way down. *)
Fixpoint at_path (t : node) (p : path) (c : node) : Prop :=
  match p with
  | [] => c = t
  | n :: p' =>
      match t with
      | Dir es => exists x, In (n, x) es /\ at_path x p' c
      | File _ _ => False
      end
  end.

(** The places a merge of the tree at [src_dir] into [dst_dir] can write
    to: the destination directory, the place of each node of the source,
    and, for a file of the source, the place of that name inside it (where
    [copy2] puts the file when a directory is in its way). *)
Inductive merge_target (scratch : node) (src_dir dst_dir : path) : path -> Prop :=
  | mt_root : merge_target scratch src_dir dst_dir dst_dir
  | mt_node t rel c :
      tree_lookup scratch src_dir = Some t -> at_path t rel c ->
      merge_target scratch src_dir dst_dir (dst_dir ++ rel)
  | mt_into t rel n data mtime :
      tree_lookup scratch src_dir = Some t ->
      at_path t (rel ++ [n]) (File data mtime) ->
      merge_target scratch src_dir dst_dir ((dst_dir ++ rel ++ [n]) ++ [n]).

(** The places an operation can write to. *)
Definition op_paths (o : op) : list path :=
  match o with
  | OpMkdir p => [p]
  | OpCopy2 s d => [d; d ++ [basename s]]
  | OpRaise _ => []
  end.

(** Classes of events. *)
Definition is_request (ev : event) : bool :=
  match ev with EvRequest _ => true | _ => false end.

Definition is_fs_event (ev : event) : bool := negb (is_request ev).

(** ** Fixtures of the examples *)

(** Splitting a string at slashes, empty components dropped. *)
Fixpoint split_slash (cur s : string) : list string :=
  match s with
  | EmptyString => if String.eqb cur "" then [] else [cur]
  | String c s' =>
      if Ascii.eqb c "/" then
        (if String.eqb cur "" then [] else [cur]) ++ split_slash "" s'
      else split_slash (cur +:+ String c EmptyString) s'
  end.

(** The Arabic-Indic digits, U+0660 to U+0669: in UTF-8 the byte 217 and
    one of the bytes 160 to 169. *)
Definition arabic_indic (c : string) : bool :=
  match c with
  | String a (String b EmptyString) =>
      Nat.eqb (nat_of_ascii a) 217
      && Nat.leb 160 (nat_of_ascii b) && Nat.leb (nat_of_ascii b) 169
  | _ => false
  end.

Definition arabic_digit (d : nat) : string :=
  String (ascii_of_nat 217) (String (ascii_of_nat (160 + d)) EmptyString).

(** The date 20250822 in Arabic-Indic digits. *)
Definition arabic_20250822 : string :=
  arabic_digit 2 +:+ arabic_digit 0 +:+ arabic_digit 2 +:+ arabic_digit 5
  +:+ arabic_digit 0 +:+ arabic_digit 8 +:+ arabic_digit 2 +:+ arabic_digit 2.

(** A host around a given server and zip reader: the volume is mounted at
    [/mnt], joining URLs is concatenation, every tar archive is unreadable,
    and of the decimal digits outside ASCII the Unicode database has the
    Arabic-Indic ones. *)
Definition stub_host (srv : list string -> string -> outcome)
    (zip : string -> result zipfile) : Host :=
  mkHost srv
         (fun base rel => base +:+ rel)
         (split_slash "")
         (fun _ _ _ _ => Ok ["mnt"])
         (fun _ => "20250822-120000")
         (fun _ _ => "TAR")
         (fun _ => Raise BadArchive)
         zip
         arabic_indic.

Definition no_zip : string -> result zipfile := fun _ => Raise BadArchive.

(** A volume with a managed subtree and one user file in it. *)
Definition vol_user : gmap path entry :=
  <[ ["mnt"; ".rockbox"; "config.cfg"] := EFile "volume: 7" 50 ]>
  (<[ ["mnt"; ".rockbox"] := EDir 10 ]>
  (<[ ["mnt"] := EDir 0 ]>
  (<[ [] := EDir 0 ]> ∅))).

(** A volume whose managed subtree has a directory [f] holding a user file
    [f], and an unpacked build that ships a file [f]. *)
Definition vol_nested : gmap path entry :=
  <[ ["mnt"; ".rockbox"; "f"; "f"] := EFile "mine" 50 ]>
  (<[ ["mnt"; ".rockbox"; "f"] := EDir 20 ]>
  (<[ ["mnt"; ".rockbox"] := EDir 10 ]>
  (<[ ["mnt"] := EDir 0 ]>
  (<[ [] := EDir 0 ]> ∅)))).

Definition build_f : node :=
  Dir [(".rockbox", Dir [("f", File "shipped" 70)])].

Definition world_of (f : gmap path entry) : World := mkWorld f 1000 [].


(** Every character of a string is of a class. *)
Definition all_class (cls : ascii -> bool) (s : string) : Prop :=
  Forall (fun c => cls c = true) (list_ascii_of_string s).

(** A string of exactly [n] decimal digits, each a digit of ASCII or a
    character outside ASCII (a lead byte and its continuation bytes) that
    the Unicode database has as a decimal digit. *)
Inductive decimal_chars (h : Host) : nat -> string -> Prop :=
  | dc_nil : decimal_chars h 0 EmptyString
  | dc_ascii c s n :
      is_digit c = true -> decimal_chars h n s ->
      decimal_chars h (S n) (String c s)
  | dc_wide c cont s n :
      is_lead c = true -> all_class is_continuation cont ->
      unicode_decimal h (String c cont) = true -> decimal_chars h n s ->
      decimal_chars h (S n) (String c cont +:+ s).

(** A string of exactly eight decimal digits, as the class [\d] has them. *)
Definition eight_digits (h : Host) (s : string) : Prop := decimal_chars h 8 s.

(** A byte of ASCII that is no digit: no character of the class [\d]
    begins with it, and none goes on with it. *)
Definition plain (c : ascii) : Prop :=
  is_digit c = false /\ is_lead c = false /\ is_continuation c = false.


(** A string of exactly eight digits of ASCII. *)
Definition eight_ascii_digits (s : string) : Prop :=
  String.length s = 8%nat /\ Forall (fun c => is_digit c = true) (list_ascii_of_string s).


(** The stub of the spec's retry test: 503 twice, then 200. *)
Definition host_503_503_200 : Host :=
  stub_host (fun hist _ => if Nat.ltb (length hist) 2
                           then Response 503 false "busy"
                           else Response 200 false "payload") no_zip.

(** A nightly index page listing three builds of one device and one of
    another, and a host that serves it for every URL. *)
Definition index_page : string :=
  "<a href=" +:+ dquote_s +:+ "rockbox-erosqnative-20250101.zip" +:+ dquote_s +:+ ">a</a>"
  +:+ "<a href=" +:+ dquote_s +:+ "rockbox-erosqnative-20250822.zip" +:+ dquote_s +:+ ">b</a>"
  +:+ "<a href=" +:+ dquote_s +:+ "rockbox-erosqnative-20250815.zip" +:+ dquote_s +:+ ">c</a>"
  +:+ "<a href=" +:+ dquote_s +:+ "rockbox-ipodvideo-20251231.zip" +:+ dquote_s +:+ ">d</a>".

Definition host_index : Host :=
  stub_host (fun _ _ => Response 200 false index_page) no_zip.

(** A server whose per-device index is gone (404) while the human-facing
    daily page still lists the builds. *)
Definition host_primary_down : Host :=
  stub_host (fun _ url => if String.eqb url DAILY_SHTML
                          then Response 200 false index_page
                          else Response 404 false "Not Found") no_zip.

(** Command lines of the examples. *)
Definition args_install (date : option string) (dry : bool) : Args :=
  mkArgs (Some "erosqnative") date None None (Some "/mnt") "/run/media/user" None dry false.

Definition args_revert (sel : string) (dry : bool) : Args :=
  mkArgs None None None None (Some "/mnt") "/run/media/user" (Some sel) dry false.



(** What keeps every directory a directory. *)
Definition keeps_dirs {A} (m : M A) : Prop :=
  forall w p, is_dir (w_fs w) p = true -> is_dir (w_fs (snd (m w))) p = true.

(** A build as it lies unpacked, and a host that serves it: every URL
    answers 200, and every body opens as the archive of that build. *)
Definition build_tree : node :=
  Dir [(".rockbox",
        Dir [("rockbox.ucl", File "firmware" 70);
             ("themes", Dir [("default.cfg", File "theme" 71)])])].

Definition host_build : Host :=
  stub_host (fun _ _ => Response 200 false "ZIP")
            (fun _ => Ok (mkZip [".rockbox/"; ".rockbox/rockbox.ucl";
                                 ".rockbox/themes/"; ".rockbox/themes/default.cfg"]
                                (Ok build_tree))).

(** A scratch tree as a file system has it: no directory lists a name
    twice. *)
Fixpoint wf_node (t : node) : Prop :=
  match t with
  | File _ _ => True
  | Dir es =>
      NoDup (map fst es)
      /\ (fix all (l : list (string * node)) : Prop :=
            match l with
            | [] => True
            | e :: l' => wf_node (snd e) /\ all l'
            end) es
  end.

(** No directory of the volume is in the way of a file of the source [S]
    merged into [dst_dir]. *)
Definition unblocked (S : node) (dst_dir : path) (f : gmap path entry) : Prop :=
  forall rel data mtime,
    at_path S rel (File data mtime) -> is_dir f (dst_dir ++ rel) = false.

(** The first character of a string, if any, is outside a class. *)
Definition stops (cls : ascii -> bool) (s : string) : Prop :=
  match s with
  | String c _ => cls c = false
  | EmptyString => True
  end.

(** The file name of a build, as the index pages list it. *)
Definition build_name (device date : string) : string :=
  "rockbox-" +:+ device +:+ "-" +:+ date +:+ ".zip".

(** * More definitions for properties beyond the pipeline's contract *)

(** [Path.is_file()]. *)
Definition is_file (f : gmap path entry) (p : path) : bool :=
  match f !! p with Some (EFile _ _) => true | _ => false end.

(** No file of the volume is in the way of a directory of the source [S]
    merged into [dst_dir]. *)
Definition dirs_free (S : node) (dst_dir : path) (f : gmap path entry) : Prop :=
  forall rel es, at_path S rel (Dir es) -> is_file f (dst_dir ++ rel) = false.

(** What a merge relies on, and keeps: nothing of the volume contradicts
    the source. *)
Definition fits (S : node) (dst_dir : path) (f : gmap path entry) : Prop :=
  unblocked S dst_dir f /\ dirs_free S dst_dir f.

(** An operation that runs on every volume that fits the source and has
    the directories of [f0]. *)
Definition enabled_from (scratch S : node) (dst_dir : path) (f0 : gmap path entry)
    (o : op) : Prop :=
  forall w, fits S dst_dir (w_fs w) ->
            (forall p, is_dir f0 p = true -> is_dir (w_fs w) p = true) ->
            exists w', exec scratch o w = (Ok tt, w').

(** A volume with nothing on it but its mount point. *)
Definition vol_bare : gmap path entry :=
  <[ ["mnt"] := EDir 0 ]> (<[ [] := EDir 0 ]> ∅).

(** The managed subtree of the build of the examples. *)
Definition build_rockbox : node :=
  Dir [("rockbox.ucl", File "firmware" 70);
       ("themes", Dir [("default.cfg", File "theme" 71)])].

(** ** Retries *)


(** ** Snapshots *)

(** A list in ascending order of a key. *)
Fixpoint ascending {A} (k : A -> Z) (l : list A) : Prop :=
  match l with
  | [] => True
  | x :: l' => (forall y, In y l' -> k x <= k y) /\ ascending k l'
  end.

(** A volume whose snapshot directory holds two snapshots, the one with
    the later name being the older, beside a file of another name. *)
Definition vol_snaps : gmap path entry :=
  <[ ["mnt"; ".rockbox_backups"; "notes.txt"] := EFile "n" 900 ]>
  (<[ ["mnt"; ".rockbox_backups"; "rockbox-backup-20250102-000000.tar.gz"] := EFile "T2" 200 ]>
  (<[ ["mnt"; ".rockbox_backups"; "rockbox-backup-20250101-000000.tar.gz"] := EFile "T1" 300 ]>
  (<[ ["mnt"; ".rockbox_backups"] := EDir 5 ]>
  (<[ ["mnt"] := EDir 0 ]>
  (<[ [] := EDir 0 ]> ∅))))).


(** ** Discovery *)

(** [text] names the build of [device] and [date]. *)
Definition names_build (text device date : string) : Prop :=
  exists pre suf, text = pre +:+ build_name device date +:+ suf.

(** ** What a run leaves in place *)

(** A computation that leaves the clock alone and every entry in place and
    of its kind, but for entries with the name of the test file of the
    write probe. *)
Definition spares {A} (m : M A) : Prop :=
  forall w,
    w_now (snd (m w)) = w_now w
    /\ forall q e,
         w_fs w !! q = Some e ->
         basename q <> ".write_test_" +:+ pretty (w_now w) ->
         exists e', w_fs (snd (m w)) !! q = Some e' /\ same_kind e e'.

(** ** What lies on the volume *)

(** [S] lies on the volume under [dst]: every file of [S] is there with
    its bytes and modification time, every directory of [S] is a directory
    there. *)
Definition mirrors (S : node) (dst : path) (f : gmap path entry) : Prop :=
  forall rel c,
    at_path S rel c ->
    match c with
    | File data mtime => f !! (dst ++ rel) = Some (EFile data mtime)
    | Dir _ => is_dir f (dst ++ rel) = true
    end.

(** A snapshot of the managed subtree of [vol_user], the volume with that
    snapshot on it, and a host whose tar reader unpacks it. *)
Definition snapshot_tree : node :=
  Dir [(".rockbox", Dir [("config.cfg", File "volume: 7" 50)])].

Definition vol_snapshot : gmap path entry :=
  <[ ["mnt"; ".rockbox_backups"; "rockbox-backup-20250822-120000.tar.gz"] := EFile "TAR" 1000 ]>
  (<[ ["mnt"; ".rockbox_backups"] := EDir 1000 ]> vol_user).

Definition host_snapshot : Host :=
  mkHost (fun _ _ => Response 200 false "ZIP")
         (fun base rel => base +:+ rel)
         (split_slash "")
         (fun _ _ _ _ => Ok ["mnt"])
         (fun _ => "20250822-120000")
         (fun _ _ => "TAR")
         (fun _ => Ok snapshot_tree)
         no_zip
         arabic_indic.

(** ** Listings *)

(** A list of strings in strictly ascending order. *)
Fixpoint strictly_ascending (l : list string) : Prop :=
  match l with
  | [] => True
  | x :: l' => (forall y, In y l' -> String.ltb x y = true) /\ strictly_ascending l'
  end.

(** A list of strings in strictly descending order. *)
Fixpoint strictly_descending (l : list string) : Prop :=
  match l with
  | [] => True
  | x :: l' => (forall y, In y l' -> String.ltb y x = true) /\ strictly_descending l'
  end.

(** A page whose links name two devices, one of them twice, and a server
    that has it as the daily page while the index of the daily builds is
    gone. *)
Definition devices_page : string :=
  "<a href=" +:+ dquote_s +:+ "ipodvideo/" +:+ dquote_s +:+ ">a</a>"
  +:+ "<a href=" +:+ dquote_s +:+ "erosqnative/" +:+ dquote_s +:+ ">b</a>"
  +:+ "<a href=" +:+ dquote_s +:+ "ipodvideo/" +:+ dquote_s +:+ ">c</a>".

Definition host_devices : Host :=
  stub_host (fun _ _ => Response 200 false devices_page) no_zip.

(** A list that carries its keys, in descending order of them: no member
    has a lesser key than one that follows it. *)
Fixpoint descending_keys {A} (l : list (list N * A)) : Prop :=
  match l with
  | [] => True
  | x :: l' => (forall y, In y l' -> tuple_ltb (fst x) (fst y) = false) /\ descending_keys l'
  end.

(** [int] on a string of decimal digits, of ASCII or Arabic-Indic,
    whatever its length. *)
Fixpoint decimal_from (acc : N) (s : string) : result N :=
  match s with
  | EmptyString => Ok acc
  | String c s' =>
      if is_digit c then
        decimal_from (10 * acc + N.of_nat (nat_of_ascii c - 48))%N s'
      else
        match s' with
        | String d s'' =>
            if arabic_indic (String c (String d EmptyString)) then
              decimal_from (10 * acc + N.of_nat (nat_of_ascii d - 160))%N s''
            else Raise ValueError
        | EmptyString => Raise ValueError
        end
  end.

Definition decimal (s : string) : result N :=
  if String.eqb s "" then Raise ValueError else decimal_from 0 s.

(** An index of releases: three versions out of order, the parent
    directory and a directory that is no version. *)
Definition releases_page : string :=
  "<a href=" +:+ dquote_s +:+ "../" +:+ dquote_s +:+ ">up</a>"
  +:+ "<a href=" +:+ dquote_s +:+ "3.9/" +:+ dquote_s +:+ ">a</a>"
  +:+ "<a href=" +:+ dquote_s +:+ "4.0/" +:+ dquote_s +:+ ">b</a>"
  +:+ "<a href=" +:+ dquote_s +:+ "manual/" +:+ dquote_s +:+ ">c</a>"
  +:+ "<a href=" +:+ dquote_s +:+ "3.15/" +:+ dquote_s +:+ ">d</a>".

Definition host_releases : Host :=
  stub_host (fun _ _ => Response 200 false releases_page) no_zip.

(** A computation that leaves the volume and the clock alone and puts
    nothing but requests on the trace. *)
Definition reads_only {A} (m : M A) : Prop :=
  forall w,
    w_fs (snd (m w)) = w_fs w
    /\ w_now (snd (m w)) = w_now w
    /\ exists evs, w_trace (snd (m w)) = w_trace w ++ evs
                   /\ Forall (fun ev => is_request ev = true) evs.

(** * Properties *)

(** ** Laws of the monad and of [for_] *)

Lemma bind_ok {A B} (m : M A) (k : A -> M B) w a w' :
  m w = (Ok a, w') -> bind m k w = k a w'.
Proof. intros H. unfold bind. by rewrite H. Qed.

Lemma bind_raise {A B} (m : M A) (k : A -> M B) w e w' :
  m w = (Raise e, w') -> bind m k w = (Raise e, w').
Proof. intros H. unfold bind. by rewrite H. Qed.

Lemma bind_ext {A B} (m m' : M A) (k k' : A -> M B) w :
  m w = m' w -> (forall a w1, k a w1 = k' a w1) -> bind m k w = bind m' k' w.
Proof. intros Hm Hk. unfold bind. rewrite Hm. destruct (m' w) as [[a|e] w1]; auto. Qed.

Lemma for_ext {A} (l : list A) (f g : A -> M unit) :
  (forall x w, f x w = g x w) -> forall w, for_ l f w = for_ l g w.
Proof.
  intros Hfg. induction l as [|x l IH]; intros w; simpl; [done|].
  apply bind_ext; auto.
Qed.

Lemma for_app {A} (l1 l2 : list A) (f : A -> M unit) w :
  for_ (l1 ++ l2) f w = (for_ l1 f ;; for_ l2 f) w.
Proof.
  revert w. induction l1 as [|x l1 IH]; intros w; simpl.
  - done.
  - unfold bind in *. destruct (f x w) as [[[]|e] w1]; [|done].
    by rewrite IH.
Qed.

Lemma for_map {A B} (g : A -> B) (l : list A) (f : B -> M unit) w :
  for_ (map g l) f w = for_ l (fun x => f (g x)) w.
Proof.
  revert w. induction l as [|x l IH]; intros w; simpl; [done|].
  apply bind_ext; auto.
Qed.

Lemma for_flat_map {A B} (g : A -> list B) (l : list A) (f : B -> M unit) w :
  for_ (flat_map g l) f w = for_ l (fun x => for_ (g x) f) w.
Proof.
  revert w. induction l as [|x l IH]; intros w; simpl; [done|].
  rewrite for_app. apply bind_ext; auto.
Qed.

Lemma bind_unit_ret (m : M unit) w : (m ;; ret tt) w = m w.
Proof. unfold bind, ret. destruct (m w) as [[[]|e] w1]; done. Qed.

Lemma merge_copy_ops scratch src_dir dst_dir w :
  merge_copy scratch src_dir dst_dir w
  = for_ (merge_ops scratch src_dir dst_dir) (exec scratch) w.
Proof.
  unfold merge_copy, merge_ops. simpl.
  apply bind_ext; [done|]. intros _ w1.
  rewrite for_flat_map. apply for_ext. intros [[root dirs] files] w2.
  unfold triple_ops. simpl.
  destruct (relative_to root src_dir) as [rel|]; simpl.
  - apply bind_ext; [done|]. intros _ w3.
    rewrite for_app. symmetry.
    apply bind_ext; [|intros _ w4]; by rewrite for_map.
  - done.
Qed.

(** ** The primitive operations, one at a time *)

Lemma snoc_ne {A} (p : list A) (n : A) : p ++ [n] <> p.
Proof.
  intros H. apply (f_equal length) in H. rewrite length_app in H. simpl in H. lia.
Qed.

Lemma is_dir_true f p : is_dir f p = true <-> exists m, f !! p = Some (EDir m).
Proof.
  unfold is_dir. split.
  - destruct (f !! p) as [[]|]; naive_solver.
  - intros [m ->]. done.
Qed.

Lemma is_dir_insert_file f p q data mtime :
  is_dir f q = false -> is_dir (<[q := EFile data mtime]> f) p = is_dir f p.
Proof.
  intros Hq. unfold is_dir in *. destruct (decide (q = p)) as [->|Hne].
  - rewrite lookup_insert_eq. destruct (f !! p) as [[]|]; done.
  - by rewrite lookup_insert_ne.
Qed.

Lemma is_dir_insert_dir f p q m :
  f !! q = None -> is_dir f p = true -> is_dir (<[q := EDir m]> f) p = true.
Proof.
  intros Hq Hp. apply is_dir_true in Hp as [m' Hp]. apply is_dir_true.
  destruct (decide (q = p)) as [->|Hne]; [congruence|].
  exists m'. by rewrite lookup_insert_ne.
Qed.

Lemma write_file_ok p data mtime w w' :
  write_file p data mtime w = (Ok tt, w') ->
  is_dir (w_fs w) p = false /\ w_fs w' = <[p := EFile data mtime]> (w_fs w).
Proof.
  unfold write_file, is_dir. intros H.
  repeat case_match; simplify_eq; done.
Qed.

Lemma exec_ok_effect scratch o w w' :
  exec scratch o w = (Ok tt, w') -> effect scratch o (w_fs w) (w_fs w').
Proof.
  destruct o as [p|s d|e]; simpl.
  - unfold mkdir. intros H. repeat case_match; simplify_eq.
    + by apply eff_none.
    + by eapply eff_mkdir.
  - unfold copy2. intros H. repeat case_match; simplify_eq.
    all: apply write_file_ok in H as [Hd Hf].
    all: eapply eff_write; eauto; unfold copy2_target; by repeat case_match.
  - unfold raise. intros H. simplify_eq.
Qed.

Lemma exec_raise scratch o w e w' :
  exec scratch o w = (Raise e, w') ->
  w' = w /\ forall w2, w_fs w2 = w_fs w -> exec scratch o w2 = (Raise e, w2).
Proof.
  destruct o as [p|s d|e0]; simpl.
  - unfold mkdir, create_check. intros H.
    repeat case_match; simplify_eq; (split; [done|]); intros w2 ->.
    all: repeat case_match; simplify_eq; done.
  - unfold copy2, write_file, create_check. intros H.
    repeat case_match; simplify_eq; (split; [done|]); intros w2 Hw2.
    all: rewrite ?Hw2; repeat case_match; simplify_eq; done.
  - unfold raise. intros H. simplify_eq. split; [done|]. done.
Qed.

Lemma done_exec scratch o w :
  done scratch o (w_fs w) ->
  exists w', exec scratch o w = (Ok tt, w') /\ w_fs w' = w_fs w.
Proof.
  destruct o as [p|s d|e]; simpl.
  - intros [m Hm]%is_dir_true. exists w. unfold mkdir. by rewrite Hm.
  - intros (data & mtime & Hs & Ht). unfold copy2, copy2_target in *.
    rewrite Hs. unfold write_file. rewrite Ht. eexists. split; [done|].
    simpl. by apply insert_id.
  - done.
Qed.

Lemma copy2_target_insert_file f s d q data mtime :
  is_dir f q = false ->
  copy2_target (<[q := EFile data mtime]> f) s d = copy2_target f s d.
Proof. intros H. unfold copy2_target. by rewrite is_dir_insert_file. Qed.

Lemma exec_ok_done scratch o w w' :
  exec scratch o w = (Ok tt, w') -> done scratch o (w_fs w').
Proof.
  destruct o as [p|s d|e]; simpl.
  - unfold mkdir. intros H. repeat case_match; simplify_eq; simpl.
    + unfold is_dir. by rewrite H0.
    + unfold is_dir. by rewrite lookup_insert_eq.
  - intros H. pose proof (exec_ok_effect scratch (OpCopy2 s d) w w' H) as He.
    unfold copy2 in H. destruct (tree_lookup scratch s) as [[data mtime|]|] eqn:Hs;
      simplify_eq.
    apply write_file_ok in H as [Hd Hf]. fold (copy2_target (w_fs w) s d) in *.
    exists data, mtime. split; [done|]. rewrite Hf.
    rewrite copy2_target_insert_file by done. by rewrite lookup_insert_eq.
  - unfold raise. intros H. simplify_eq.
Qed.

(** ** Operations of one merge do not undo each other *)

Lemma basename_snoc (p : path) (n : string) : basename (p ++ [n]) = n.
Proof. unfold basename. apply last_last. Qed.

Lemma tree_lookup_app t p q :
  tree_lookup t (p ++ q) = match tree_lookup t p with
                           | Some c => tree_lookup c q
                           | None => None
                           end.
Proof.
  revert t. induction p as [|n p IH]; intros t; simpl; [done|].
  destruct t as [|es]; [done|]. destruct (assoc n es); [apply IH|done].
Qed.

Lemma tree_lookup_file_snoc t p n data mtime :
  tree_lookup t p = Some (File data mtime) -> tree_lookup t (p ++ [n]) = None.
Proof. intros H. rewrite tree_lookup_app, H. done. Qed.

Lemma relative_to_Some root base rel :
  relative_to root base = Some rel -> root = base ++ rel.
Proof.
  revert root. induction base as [|b base IH]; intros root; destruct root as [|r root]; simpl.
  - intros H. by simplify_eq.
  - intros H. by simplify_eq.
  - done.
  -
    destruct (String.eqb_spec b r) as [->|]; [|done].
    intros H%IH. by subst.
Qed.

Lemma merge_ops_shaped scratch src_dir dst_dir :
  Forall (shaped src_dir dst_dir) (merge_ops scratch src_dir dst_dir).
Proof.
  unfold merge_ops. constructor; [done|].
  apply Forall_flat_map, Forall_forall. intros [[root dirs] files] _.
  unfold triple_ops. simpl.
  destruct (relative_to root src_dir) as [rel|] eqn:Hrel.
  - apply relative_to_Some in Hrel as ->.
    constructor; [done|]. apply Forall_app. split.
    + apply Forall_forall. intros o (d & -> & _)%list_elem_of_fmap. done.
    + apply Forall_forall. intros o (f & -> & _)%list_elem_of_fmap.
      exists rel, f. by rewrite <- !app_assoc.
  - repeat constructor.
Qed.

(** Two copies of one merge that write the same place copy the same file. *)
Lemma shaped_same_target scratch src_dir dst_dir f f0 s d s' d' data mtime data' mtime' :
  shaped src_dir dst_dir (OpCopy2 s d) ->
  shaped src_dir dst_dir (OpCopy2 s' d') ->
  tree_lookup scratch s = Some (File data mtime) ->
  tree_lookup scratch s' = Some (File data' mtime') ->
  copy2_target f s d = copy2_target f0 s' d' ->
  data = data' /\ mtime = mtime'.
Proof.
  intros (r & n & -> & ->) (r' & n' & -> & ->) Hs Hs'.
  unfold copy2_target. rewrite !app_assoc, !basename_snoc.
  assert (Hsame : r ++ [n] = r' ++ [n'] -> data = data' /\ mtime = mtime').
  { intros Heq. rewrite Heq in Hs. rewrite Hs in Hs'. by simplify_eq. }
  destruct (is_dir f _), (is_dir f0 _); intros Heq.
  - apply app_inj_tail in Heq as [Heq _]. rewrite <- !app_assoc in Heq.
    apply app_inv_head in Heq. auto.
  - rewrite <- !app_assoc in Heq. apply app_inv_head in Heq.
    rewrite <- Heq in Hs'.
    replace (src_dir ++ r ++ [n] ++ [n]) with ((src_dir ++ r ++ [n]) ++ [n]) in Hs'
      by (by rewrite <- !app_assoc).
    by rewrite (tree_lookup_file_snoc _ _ _ _ _ Hs) in Hs'.
  - rewrite <- !app_assoc in Heq. apply app_inv_head in Heq.
    rewrite Heq in Hs.
    replace (src_dir ++ r' ++ [n'] ++ [n']) with ((src_dir ++ r' ++ [n']) ++ [n']) in Hs
      by (by rewrite <- !app_assoc).
    by rewrite (tree_lookup_file_snoc _ _ _ _ _ Hs') in Hs.
  - rewrite <- !app_assoc in Heq. apply app_inv_head in Heq. auto.
Qed.

Lemma done_preserved scratch src_dir dst_dir o o' f f' :
  shaped src_dir dst_dir o -> shaped src_dir dst_dir o' ->
  done scratch o f -> effect scratch o' f f' -> done scratch o f'.
Proof.
  intros Ho Ho' Hd [->|p m -> Hp ->|s' d' data' mtime' -> Hs' Ht' ->]; [done|..].
  - (* a directory was made at a free place *)
    destruct o as [q|s d|e]; simpl in *; [by apply is_dir_insert_dir| |done].
    destruct Hd as (data & mtime & Hs & Ht). exists data, mtime. split; [done|].
    assert (Hd : is_dir (<[p:=EDir m]> f) d = is_dir f d).
    { unfold copy2_target in Ht. unfold is_dir.
      destruct (decide (p = d)) as [->|Hne]; [|by rewrite lookup_insert_ne].
      unfold is_dir in Ht. rewrite Hp in Ht. congruence. }
    unfold copy2_target in *. rewrite Hd.
    rewrite lookup_insert_ne; [done|]. intros ->. congruence.
  - (* a file was written *)
    destruct o as [q|s d|e]; simpl in *; [by rewrite is_dir_insert_file| |done].
    destruct Hd as (data & mtime & Hs & Ht). exists data, mtime. split; [done|].
    rewrite copy2_target_insert_file by done.
    destruct (decide (copy2_target f s' d' = copy2_target f s d)) as [Heq|Hne].
    + rewrite Heq, lookup_insert_eq.
      destruct (shaped_same_target scratch src_dir dst_dir f f s d s' d'
                  data mtime data' mtime') as [-> ->]; done.
    + by rewrite lookup_insert_ne.
Qed.

(** ** Running a merge, and running it again *)

Lemma for_preserves_done scratch src_dir dst_dir o l w r w1 :
  shaped src_dir dst_dir o -> Forall (shaped src_dir dst_dir) l ->
  done scratch o (w_fs w) ->
  for_ l (exec scratch) w = (r, w1) ->
  done scratch o (w_fs w1).
Proof.
  intros Ho Hl. revert w. induction Hl as [|o' l Ho' Hl IH]; intros w Hd; simpl.
  - unfold ret. intros H. by simplify_eq.
  - unfold bind. destruct (exec scratch o' w) as [[[]|e] wa] eqn:Hx.
    + apply IH. eapply done_preserved; eauto using exec_ok_effect.
    + intros H. simplify_eq. apply exec_raise in Hx as [-> _]. done.
Qed.

Lemma for_twice scratch src_dir dst_dir l w r w1 :
  Forall (shaped src_dir dst_dir) l ->
  for_ l (exec scratch) w = (r, w1) ->
  forall w2, w_fs w2 = w_fs w1 ->
  exists w3, for_ l (exec scratch) w2 = (r, w3) /\ w_fs w3 = w_fs w1.
Proof.
  intros Hl. revert w. induction Hl as [|o l Ho Hl IH]; intros w; simpl.
  - unfold ret. intros H w2 Hw2. simplify_eq. eauto.
  - unfold bind. destruct (exec scratch o w) as [[[]|e] wa] eqn:Hx.
    + intros Hrun w2 Hw2.
      assert (Hd : done scratch o (w_fs w2)).
      { rewrite Hw2. eapply for_preserves_done; eauto using exec_ok_done. }
      apply done_exec in Hd as (w2' & -> & Hw2').
      eapply IH; [done|]. congruence.
    + intros H w2 Hw2. simplify_eq.
      apply exec_raise in Hx as [-> Hx]. rewrite (Hx w2 Hw2). eauto.
Qed.

(** C9. Merging the same source into the same destination a second time,
    at whatever time, gives the result of the first merge again (the same
    success or the same exception) and leaves the volume exactly as the
    first merge left it. *)
Theorem merge_copy_idempotent scratch src_dir dst_dir w t :
  let once := merge_copy scratch src_dir dst_dir w in
  let twice := merge_copy scratch src_dir dst_dir (set_now t (snd once)) in
  fst twice = fst once /\ w_fs (snd twice) = w_fs (snd once).
Proof.
  intros once twice. subst once twice. rewrite !merge_copy_ops.
  destruct (for_ _ _ w) as [r w1] eqn:Hrun. cbn [fst snd].
  destruct (for_twice _ _ _ _ _ _ _ (merge_ops_shaped scratch src_dir dst_dir)
              Hrun (set_now t w1) eq_refl) as (w3 & -> & Hw3).
  done.
Qed.

(** ** Merge copy never removes, and writes only where the source points *)

Lemma effect_keeps scratch o f f' q e :
  effect scratch o f f' -> f !! q = Some e ->
  exists e', f' !! q = Some e' /\ same_kind e e'.
Proof.
  assert (Hrefl : same_kind e e) by (by destruct e).
  intros [->|p m -> Hp ->|s d data mtime -> Hs Ht ->] Hq; [eauto|..].
  - exists e. split; [|done]. rewrite lookup_insert_ne; [done|]. congruence.
  - destruct (decide (copy2_target f s d = q)) as [<-|Hne].
    + rewrite lookup_insert_eq. eexists. split; [done|].
      unfold is_dir in Ht. rewrite Hq in Ht. by destruct e.
    + exists e. by rewrite lookup_insert_ne.
Qed.

Lemma same_kind_trans e1 e2 e3 : same_kind e1 e2 -> same_kind e2 e3 -> same_kind e1 e3.
Proof. destruct e1, e2, e3; simpl; naive_solver. Qed.

Lemma for_keeps scratch l w r w1 q e :
  for_ l (exec scratch) w = (r, w1) -> w_fs w !! q = Some e ->
  exists e', w_fs w1 !! q = Some e' /\ same_kind e e'.
Proof.
  revert w e. induction l as [|o l IH]; intros w e; simpl.
  - unfold ret. intros H Hq. simplify_eq. exists e. by destruct e.
  - unfold bind. destruct (exec scratch o w) as [[[]|x] wa] eqn:Hx.
    + intros Hrun Hq.
      destruct (effect_keeps _ _ _ _ _ _ (exec_ok_effect _ _ _ _ Hx) Hq)
        as (e1 & Hq1 & Hk1).
      destruct (IH _ _ Hrun Hq1) as (e2 & Hq2 & Hk2).
      eauto using same_kind_trans.
    + intros H Hq. simplify_eq. apply exec_raise in Hx as [-> _].
      exists e. by destruct e.
Qed.

(** No run of [merge_copy], finished or broken off, removes an entry of
    the volume or turns a file into a directory or back; directories stay
    exactly as they were. *)
Theorem merge_copy_never_deletes scratch src_dir dst_dir w q e :
  w_fs w !! q = Some e ->
  exists e', w_fs (snd (merge_copy scratch src_dir dst_dir w)) !! q = Some e'
             /\ same_kind e e'.
Proof.
  rewrite merge_copy_ops. destruct (for_ _ _ w) as [r w1] eqn:Hrun.
  intros Hq. eapply for_keeps; eauto.
Qed.

Lemma effect_frame scratch o f f' q :
  effect scratch o f f' -> q ∉ op_paths o -> f' !! q = f !! q.
Proof.
  intros [->|p m -> Hp ->|s d data mtime -> Hs Ht ->] Hq; [done|..].
  - rewrite lookup_insert_ne; [done|]. simpl in Hq. set_solver.
  - rewrite lookup_insert_ne; [done|]. unfold copy2_target.
    simpl in Hq. destruct (is_dir f d); set_solver.
Qed.

Lemma for_frame scratch l w r w1 q :
  for_ l (exec scratch) w = (r, w1) ->
  Forall (fun o => q ∉ op_paths o) l ->
  w_fs w1 !! q = w_fs w !! q.
Proof.
  intros Hrun Hl. revert w Hrun. induction Hl as [|o l Ho Hl IH]; intros w; simpl.
  - unfold ret. intros H. by simplify_eq.
  - unfold bind. destruct (exec scratch o w) as [[[]|x] wa] eqn:Hx.
    + intros Hrun. rewrite (IH _ Hrun).
      eapply effect_frame; eauto using exec_ok_effect.
    + intros H. simplify_eq. by apply exec_raise in Hx as [-> _].
Qed.

(** An induction principle for scratch trees that reaches the children. *)
Lemma node_ind' (P : node -> Prop) :
  (forall data mtime, P (File data mtime)) ->
  (forall es, Forall (fun e => P (snd e)) es -> P (Dir es)) ->
  forall t, P t.
Proof.
  intros Hf Hd. fix IH 1. intros [data mtime|es]; [apply Hf|].
  apply Hd. induction es as [|[n c] es IHes]; constructor; [apply IH|apply IHes].
Qed.

Lemma at_path_snoc t p es n c :
  at_path t p (Dir es) -> In (n, c) es -> at_path t (p ++ [n]) c.
Proof.
  revert t. induction p as [|m p IH]; intros t; simpl.
  - intros <- Hin. eauto.
  - destruct t as [|es']; [done|]. intros (x & Hx & Hp) Hin. eauto.
Qed.

Lemma walk_at_path t : forall top root dirs files,
  In (root, dirs, files) (walk top t) ->
  exists rel es, root = top ++ rel /\ at_path t rel (Dir es)
                 /\ dirs = dirnames es /\ files = filenames es.
Proof.
  induction t as [data mtime|es IH] using node_ind'; intros top root dirs files; simpl.
  - done.
  - intros [Heq|Hin].
    + simplify_eq. exists [], es. by rewrite app_nil_r.
    + apply in_flat_map in Hin as ([n c] & Hnc & Hin). simpl in Hin.
      rewrite Forall_forall in IH.
      apply (IH (n, c)) in Hin as (rel & es' & -> & Hat & -> & ->);
        [|by apply list_elem_of_In].
      exists (n :: rel), es'. rewrite <- app_assoc. simpl. eauto 7.
Qed.

Lemma in_dirnames d es : In d (dirnames es) -> exists c, In (d, c) es.
Proof.
  unfold dirnames. intros ([n c] & <- & Hin)%in_map_iff.
  apply filter_In in Hin as [Hin _]. eauto.
Qed.

Lemma in_filenames f es :
  In f (filenames es) -> exists data mtime, In (f, File data mtime) es.
Proof.
  unfold filenames. intros ([n c] & <- & Hin)%in_map_iff.
  apply filter_In in Hin as [Hin Hc]. destruct c; [eauto|done].
Qed.

Lemma merge_ops_targets scratch src_dir dst_dir o q :
  In o (merge_ops scratch src_dir dst_dir) -> In q (op_paths o) ->
  merge_target scratch src_dir dst_dir q.
Proof.
  unfold merge_ops. intros [<-|Hin].
  { intros [<-|[]]. constructor. }
  apply in_flat_map in Hin as ([[root dirs] files] & Hw & Hin).
  unfold os_walk in Hw. destruct (tree_lookup scratch src_dir) as [t|] eqn:Ht; [|done].
  apply walk_at_path in Hw as (rel & es & -> & Hat & -> & ->).
  unfold triple_ops in Hin. simpl in Hin.
  destruct (relative_to _ _) as [rel'|] eqn:Hrel.
  - apply relative_to_Some, app_inv_head in Hrel as <-.
    destruct Hin as [<-|Hin]; [|apply in_app_or in Hin as [Hin|Hin]].
    + intros [<-|[]]. by eapply mt_node.
    + apply in_map_iff in Hin as (d & <- & Hd). intros [<-|[]].
      apply in_dirnames in Hd as [c Hc]. rewrite <- app_assoc.
      eapply mt_node; eauto using at_path_snoc.
    + apply in_map_iff in Hin as (f & <- & Hf).
      apply in_filenames in Hf as (data & mtime & Hf).
      simpl. rewrite basename_snoc, <- !app_assoc.
      intros [<-|[<-|[]]].
      * eapply mt_node; eauto using at_path_snoc.
      * replace (dst_dir ++ rel ++ [f] ++ [f]) with ((dst_dir ++ rel ++ [f]) ++ [f])
          by (by rewrite <- !app_assoc).
        eapply mt_into; eauto using at_path_snoc.
  - destruct Hin as [<-|[]]. intros [].
Qed.

(** A run of [merge_copy], finished or broken off, leaves every place that
    is no target of the merge as it was. *)
Theorem merge_copy_frame scratch src_dir dst_dir w q :
  ~ merge_target scratch src_dir dst_dir q ->
  w_fs (snd (merge_copy scratch src_dir dst_dir w)) !! q = w_fs w !! q.
Proof.
  intros Hq. rewrite merge_copy_ops. destruct (for_ _ _ w) as [r w1] eqn:Hrun.
  eapply for_frame; [done|]. apply Forall_forall. intros o Ho Hin.
  apply Hq. eapply merge_ops_targets; apply list_elem_of_In; eauto.
Qed.

(** ** The overlay, when no directory is in the way of a file *)

Lemma wf_node_child es n c :
  wf_node (Dir es) -> In (n, c) es -> wf_node c.
Proof.
  simpl. intros [_ Hall]. induction es as [|e es IH]; [done|].
  destruct Hall as [He Hall]. intros [->|Hin]; [done|]. by apply IH.
Qed.

Lemma NoDup_fst_fun {A B} (l : list (A * B)) a b b' :
  NoDup (map fst l) -> In (a, b) l -> In (a, b') l -> b = b'.
Proof.
  induction l as [|[x y] l IH]; simpl; [done|].
  intros [Hx Hl]%NoDup_cons.
  intros [H1|H1] [H2|H2]; simplify_eq; [done|..|by apply IH].
  - exfalso. apply Hx. apply list_elem_of_In, in_map_iff. by exists (a, b').
  - exfalso. apply Hx. apply list_elem_of_In, in_map_iff. by exists (a, b).
Qed.

(** In such a tree a path leads to one node. *)
Lemma at_path_fun p : forall t c c',
  wf_node t -> at_path t p c -> at_path t p c' -> c = c'.
Proof.
  induction p as [|n p IH]; intros t c c' Hwf; simpl.
  - by intros -> ->.
  - destruct t as [|es]; [done|].
    intros (x & Hx & Hc) (x' & Hx' & Hc').
    assert (x = x') as <-.
    { destruct Hwf as [Hnd _]. by apply (NoDup_fst_fun es n x x'). }
    apply (IH x c c'); [by apply (wf_node_child es n)|done|done].
Qed.

Lemma relative_to_app base rel : relative_to (base ++ rel) base = Some rel.
Proof.
  induction base as [|b base IH]; simpl; [by destruct rel|].
  by rewrite String.eqb_refl.
Qed.

Lemma in_dirnames_dir d es : In d (dirnames es) -> exists es', In (d, Dir es') es.
Proof.
  unfold dirnames. intros ([n c] & <- & Hin)%in_map_iff.
  apply filter_In in Hin as [Hin Hc]. destruct c; [done|eauto].
Qed.

(** The operations of a merge, read off the source tree. *)
Lemma merge_ops_inv scratch src_dir dst_dir S o :
  tree_lookup scratch src_dir = Some S ->
  In o (merge_ops scratch src_dir dst_dir) ->
  (exists rel es, at_path S rel (Dir es) /\ o = OpMkdir (dst_dir ++ rel))
  \/ o = OpMkdir dst_dir
  \/ (exists rel data mtime,
        at_path S rel (File data mtime)
        /\ o = OpCopy2 (src_dir ++ rel) (dst_dir ++ rel)).
Proof.
  intros HS. unfold merge_ops. intros [<-|Hin]; [auto|].
  apply in_flat_map in Hin as ([[root dirs] files] & Hw & Hin).
  unfold os_walk in Hw. rewrite HS in Hw.
  apply walk_at_path in Hw as (rel & es & -> & Hat & -> & ->).
  unfold triple_ops in Hin. simpl in Hin. rewrite relative_to_app in Hin.
  destruct Hin as [<-|Hin]; [|apply in_app_or in Hin as [Hin|Hin]].
  - left. eauto.
  - apply in_map_iff in Hin as (d & <- & Hd).
    apply in_dirnames_dir in Hd as [es' Hd]. left.
    exists (rel ++ [d]), es'. rewrite <- app_assoc. eauto using at_path_snoc.
  - apply in_map_iff in Hin as (f & <- & Hf).
    apply in_filenames in Hf as (data & mtime & Hf). right. right.
    exists (rel ++ [f]), data, mtime. rewrite <- !app_assoc. eauto using at_path_snoc.
Qed.

Section Overlay.
Variables (scratch S : node) (src_dir dst_dir : path).
Hypothesis source_at : tree_lookup scratch src_dir = Some S.
Hypothesis source_wf : wf_node S.

Lemma effect_unblocked o f f' :
  is_dir_node S = true ->
  In o (merge_ops scratch src_dir dst_dir) ->
  effect scratch o f f' ->
  unblocked S dst_dir f -> unblocked S dst_dir f'.
Proof.
  intros HS Hin [->|p m -> Hp ->|s d data mtime -> Hs Ht ->] Hun; [done|..].
  - intros rel data mtime Hat. specialize (Hun rel data mtime Hat).
    unfold is_dir in *. destruct (decide (p = dst_dir ++ rel)) as [->|Hne];
      [|by rewrite lookup_insert_ne].
    exfalso.
    destruct (merge_ops_inv _ _ _ _ _ source_at Hin)
      as [(rel' & es & Hat' & Heq)|[Heq|(rel' & ? & ? & _ & Heq)]];
      [| |done].
    + injection Heq as Heq. apply app_inv_head in Heq as <-.
      by pose proof (at_path_fun _ _ _ _ source_wf Hat Hat').
    + injection Heq as Heq.
      rewrite <- (app_nil_r dst_dir) in Heq at 2. apply app_inv_head in Heq as ->.
      simpl in Hat. by rewrite <- Hat in HS.
  - intros rel data' mtime' Hat. rewrite is_dir_insert_file; eauto.
Qed.

(** Where an operation of the merge can write when nothing is in the way. *)
Lemma effect_frame_unblocked o f f' q :
  In o (merge_ops scratch src_dir dst_dir) ->
  effect scratch o f f' ->
  unblocked S dst_dir f ->
  (forall rel c, at_path S rel c -> q <> dst_dir ++ rel) ->
  f' !! q = f !! q.
Proof.
  intros Hin Heff Hun Hq.
  destruct (merge_ops_inv _ _ _ _ _ source_at Hin)
    as [(rel & es & Hat & ->)|[->|(rel & data & mtime & Hat & ->)]].
  - apply (effect_frame _ _ _ _ q Heff). simpl. intros Hel.
    apply list_elem_of_In in Hel as [<-|[]]. by eapply Hq.
  - apply (effect_frame _ _ _ _ q Heff). simpl. intros Hel.
    apply list_elem_of_In in Hel as [<-|[]].
    apply (Hq [] S); [done|]. by rewrite app_nil_r.
  - destruct Heff as [->|p m Heq _ _|s d data' mtime' Heq _ _ ->]; [done|done|].
    simplify_eq. unfold copy2_target. rewrite (Hun _ _ _ Hat).
    rewrite lookup_insert_ne; [done|]. intros <-. by eapply Hq.
Qed.

Lemma for_frame_unblocked l : forall w r w1 q,
  is_dir_node S = true ->
  (forall o, In o l -> In o (merge_ops scratch src_dir dst_dir)) ->
  for_ l (exec scratch) w = (r, w1) ->
  unblocked S dst_dir (w_fs w) ->
  (forall rel c, at_path S rel c -> q <> dst_dir ++ rel) ->
  w_fs w1 !! q = w_fs w !! q.
Proof.
  induction l as [|o l IH]; intros w r w1 q HS Hl; simpl.
  - unfold ret. intros H. by simplify_eq.
  - unfold bind. destruct (exec scratch o w) as [[[]|x] wa] eqn:Hx.
    + intros Hrun Hun Hq. apply exec_ok_effect in Hx.
      assert (Ho : In o (merge_ops scratch src_dir dst_dir)) by (apply Hl; by left).
      rewrite (IH wa r w1 q HS); [by eapply effect_frame_unblocked| |done| |done].
      * intros o' Ho'. apply Hl. by right.
      * by eapply effect_unblocked.
    + intros H. simplify_eq. by apply exec_raise in Hx as [-> _].
Qed.

(** The overlay of the spec, on the inputs where it holds: when the
    source tree lists no name twice and no directory of the volume
    stands where the source has a file, a merge, finished or broken off,
    changes nothing but the places of the nodes of the source. In
    particular a file of the destination that the source does not have
    is left as it was. *)
Theorem merge_copy_overlay w q :
  unblocked S dst_dir (w_fs w) ->
  (forall rel c, at_path S rel c -> q <> dst_dir ++ rel) ->
  w_fs (snd (merge_copy scratch src_dir dst_dir w)) !! q = w_fs w !! q.
Proof.
  intros Hun Hq. destruct (is_dir_node S) eqn:HS.
  - rewrite merge_copy_ops.
    destruct (for_ _ _ w) as [r w1] eqn:Hrun. simpl.
    by eapply for_frame_unblocked.
  - apply merge_copy_frame. intros Ht. destruct S as [data mtime|]; [|done].
    destruct Ht as [|t rel c Ht Hat|t rel n data' mtime' Ht Hat].
    + apply (Hq [] (File data mtime)); [done|]. by rewrite app_nil_r.
    + rewrite source_at in Ht. simplify_eq. by eapply Hq.
    + rewrite source_at in Ht. simplify_eq. by destruct rel.
Qed.
End Overlay.

(** The overlay on the build of the examples: the user's file is no place
    of the build, nothing is in the way, and the merge leaves it alone. *)
Example user_file_survives :
  w_fs (snd (merge_copy build_tree [".rockbox"] ["mnt"; ".rockbox"] (world_of vol_user)))
    !! ["mnt"; ".rockbox"; "config.cfg"]
  = Some (EFile "volume: 7" 50).
Proof.
  set (S := Dir [("rockbox.ucl", File "firmware" 70);
                 ("themes", Dir [("default.cfg", File "theme" 71)])]).
  rewrite (merge_copy_overlay build_tree S [".rockbox"] ["mnt"; ".rockbox"]).
  - reflexivity.
  - reflexivity.
  - simpl. repeat split; [|apply NoDup_singleton].
    apply NoDup_cons. split; [|apply NoDup_singleton].
    by intros ?%list_elem_of_singleton.
  - intros rel data mtime Hat. destruct rel as [|n rel]; [done|].
    unfold is_dir, vol_user. simpl. rewrite lookup_insert. case_decide; [done|].
    by rewrite !lookup_insert_ne, lookup_empty.
  - intros rel c Hat Heq.
    change ["mnt"; ".rockbox"; "config.cfg"] with (["mnt"; ".rockbox"] ++ ["config.cfg"]) in Heq.
    apply app_inv_head in Heq as <-. simpl in Hat.
    destruct Hat as (x & [Hx|[Hx|[]]] & _); by simplify_eq.
Qed.

(** ** The retry policy of the session *)



Lemma repeat_snoc_app {A} (l : list A) (x : A) k :
  (l ++ [x]) ++ repeat x k = l ++ repeat x (S k).
Proof. by rewrite <- app_assoc. Qed.

(** Every run of [urlopen] sends between one and [left + 1] requests for the
    URL and touches nothing else. *)
Lemma urlopen_trace h fl url left : forall w,
  exists k, (1 <= k <= S left)%nat
    /\ snd (urlopen h fl left url w)
       = mkWorld (w_fs w) (w_now w) (w_trace w ++ repeat (EvRequest url) k).
Proof.
  induction left as [|n IH]; intros w; simpl.
  - exists 1%nat. split; [lia|]. by repeat case_match.
  - destruct (server h (requests (w_trace w)) url) as [st ra body|].
    + destruct (is_retry fl (S n) st ra).
      * destruct (IH (log_request url w)) as (k & Hk & ->).
        exists (S k). split; [lia|]. unfold log_request. cbn [w_fs w_now w_trace].
        by rewrite repeat_snoc_app.
      * exists 1%nat. split; [lia|]. done.
    + destruct (IH (log_request url w)) as (k & Hk & ->).
      exists (S k). split; [lia|]. unfold log_request. cbn [w_fs w_now w_trace].
      by rewrite repeat_snoc_app.
Qed.


Lemma get_bytes_world h url w : snd (get_bytes h url w) = snd (session_get h url w).
Proof.
  unfold get_bytes, bind. destruct (session_get h url w) as [[[st body]|e] w1]; [|done].
  unfold raise_for_status. simpl. by destruct (_ && _).
Qed.

Lemma get_text_world h url w : snd (get_text h url w) = snd (session_get h url w).
Proof.
  unfold get_text, bind. destruct (session_get h url w) as [[[st body]|e] w1]; [|done].
  unfold raise_for_status. simpl. destruct (st =? 403); [done|]. by destruct (_ && _).
Qed.



(** The response [session_get] hands back is never a 403: the check of
    [get_text] for that status has nothing to catch. *)
Lemma urlopen_never_403 h url left : forall w st body w',
  urlopen h (status_forcelist _retry) left url w = (Ok (st, body), w') -> st <> 403.
Proof.
  induction left as [|n IH]; intros w st body w'; simpl.
  - repeat case_match; intros; simplify_eq. intros ->. done.
  - destruct (server _ _ _) as [st0 ra body0|]; [|apply IH].
    destruct (is_retry _ _ _ _) eqn:Hr; [apply IH|].
    intros; simplify_eq. intros ->. done.
Qed.







(** The retry test of the spec: 503, 503, then 200 gives the payload after
    three requests. *)
Example fetch_503_503_200 :
  get_bytes host_503_503_200 "u" (world_of ∅)
  = (Ok "payload", mkWorld ∅ 1000 [EvRequest "u"; EvRequest "u"; EvRequest "u"]).
Proof. vm_compute. reflexivity. Qed.

(** ** Every build named in a page is found *)

Lemma append_cons c s t : String c s +:+ t = String c (s +:+ t).
Proof. reflexivity. Qed.

Lemma append_assoc a b c : (a +:+ b) +:+ c = a +:+ (b +:+ c).
Proof.
  induction a as [|x a IH]; [done|]. rewrite !append_cons. by rewrite IH.
Qed.

Lemma length_append a b :
  String.length (a +:+ b) = (String.length a + String.length b)%nat.
Proof.
  induction a as [|x a IH]; [done|]. rewrite append_cons. simpl. by rewrite IH.
Qed.

Lemma all_class_cons cls c s :
  all_class cls (String c s) <-> cls c = true /\ all_class cls s.
Proof.
  unfold all_class. simpl. split.
  - by inversion 1.
  - intros [Hc Hs]. by constructor.
Qed.

Lemma strip_prefix_app lit s : strip_prefix lit (lit +:+ s) = Some s.
Proof.
  induction lit as [|c lit IH]; [done|].
  rewrite append_cons. simpl. by rewrite Ascii.eqb_refl.
Qed.

Lemma span_app cls r s :
  all_class cls r -> stops cls s -> span cls (r +:+ s) = (r, s).
Proof.
  intros Hr Hs. induction r as [|c r IH].
  - change ("" +:+ s) with s. destruct s as [|c s]; [done|]. simpl in *. by rewrite Hs.
  - apply all_class_cons in Hr as [Hc Hr]. rewrite append_cons. simpl.
    by rewrite Hc, (IH Hr).
Qed.

Lemma append_empty_r s : s +:+ "" = s.
Proof.
  induction s as [|c s IH]; [done|].
  change (String c (s +:+ "") = String c s). by rewrite IH.
Qed.

Lemma span_sound cls : forall s,
  s = fst (span cls s) +:+ snd (span cls s)
  /\ all_class cls (fst (span cls s)) /\ stops cls (snd (span cls s)).
Proof.
  induction s as [|c s (IH1 & IH2 & IH3)]; simpl.
  - split; [done|]. split; [constructor|done].
  - destruct (cls c) eqn:Hc; cbn [fst snd].
    + rewrite append_cons, <- IH1. split; [done|]. split; [by apply all_class_cons|done].
    + split; [done|]. split; [constructor|done].
Qed.

(** The bytes of the classes: a digit of ASCII is neither a lead byte nor
    a continuation byte, and no byte is both of these. *)
Lemma is_digit_plain c :
  is_digit c = true -> is_lead c = false /\ is_continuation c = false.
Proof.
  unfold is_digit, is_lead, is_continuation.
  intros [H1 H2]%andb_true_iff. apply Nat.leb_le in H1, H2.
  split; [apply Nat.leb_gt; lia|].
  apply andb_false_iff. left. apply Nat.leb_gt. lia.
Qed.

Lemma is_lead_not_continuation c : is_lead c = true -> is_continuation c = false.
Proof.
  unfold is_lead, is_continuation. intros H%Nat.leb_le.
  apply andb_false_iff. right. apply Nat.leb_gt. lia.
Qed.

(** A string of decimal digits does not begin in the middle of a
    character. *)
Lemma decimal_chars_stops h n s : decimal_chars h n s -> stops is_continuation s.
Proof.
  destruct 1 as [|c s n Hc _|c cont s n Hc _ _ _]; simpl; [done|..].
  - by apply is_digit_plain in Hc as [_ ?].
  - by apply is_lead_not_continuation.
Qed.

Lemma stops_append cls a b : stops cls a -> stops cls b -> stops cls (a +:+ b).
Proof. destruct a; [done|]. by intros Ha _. Qed.

(** Exactly the digits of a string of [n] digits are taken from its head,
    where what follows does not go on in the middle of a character. *)
Lemma take_decimal_app h n r : forall s,
  decimal_chars h n r -> stops is_continuation s ->
  take_decimal h n (r +:+ s) = Some (r, s).
Proof.
  intros s Hr Hs. induction Hr as [|c r n Hc Hr IH|c cont r n Hc Hcont Hdec Hr IH].
  - done.
  - rewrite append_cons. simpl. by rewrite Hc, IH.
  - rewrite append_assoc, append_cons. simpl.
    destruct (is_digit c) eqn:Hd.
    { apply is_digit_plain in Hd as [Hd _]. congruence. }
    rewrite Hc.
    rewrite (span_app is_continuation cont (r +:+ s)); [|done|].
    + cbn [fst snd]. by rewrite Hdec, IH.
    + apply stops_append; [by eapply decimal_chars_stops|done].
Qed.

(** At the head of a build's name the pattern matches that build. *)
Lemma NIGHTLY_RE_match_build h device date suf :
  device <> "" -> all_class is_lower_alnum device -> eight_digits h date ->
  NIGHTLY_RE_match h (build_name device date +:+ suf)
  = Some (mkMatch (device, date) (8 + String.length device + 1 + String.length date + 4)).
Proof.
  intros Hne Hdev Hdate. unfold build_name, NIGHTLY_RE_match.
  rewrite !append_assoc. rewrite strip_prefix_app.
  rewrite span_app; [|done|done]. cbn [fst snd].
  destruct (String.eqb_spec device "") as [->|_]; [done|].
  rewrite strip_prefix_app.
  rewrite (take_decimal_app h 8 date) by done. by rewrite strip_prefix_app.
Qed.

Lemma all_class_append cls a b :
  all_class cls (a +:+ b) <-> all_class cls a /\ all_class cls b.
Proof.
  induction a as [|c a IH].
  - change ("" +:+ b) with b. split; [intros H; split; [constructor|done]|by intros [_ H]].
  - rewrite append_cons, !all_class_cons, IH. tauto.
Qed.

(** A literal stripped from [p +:+ t] lies within [p] or runs over its end. *)
Lemma strip_prefix_split lit : forall p t r,
  strip_prefix lit (p +:+ t) = Some r ->
  (exists p', p = lit +:+ p' /\ r = p' +:+ t)
  \/ (exists l2, l2 <> "" /\ lit = p +:+ l2 /\ strip_prefix l2 t = Some r).
Proof.
  induction lit as [|a lit IH]; intros p t r.
  - simpl. intros H. simplify_eq. left. by exists p.
  - destruct p as [|b p].
    + intros H. right. by exists (String a lit).
    + rewrite append_cons. simpl. destruct (Ascii.eqb_spec a b) as [<-|]; [|done].
      intros [(p' & -> & ->)|(l2 & Hl2 & -> & Hs)]%IH.
      * left. by exists p'.
      * right. by exists l2.
Qed.

Lemma strip_prefix_head l2 c X r :
  l2 <> "" -> strip_prefix l2 (String c X) = Some r -> exists l2', l2 = String c l2'.
Proof.
  destruct l2 as [|a l2]; [done|]. intros _. simpl.
  destruct (Ascii.eqb_spec a c) as [<-|]; [eauto|done].
Qed.

Lemma not_in_append c lit : forall p s,
  ~ In c (list_ascii_of_string lit) -> lit <> p +:+ String c s.
Proof.
  induction lit as [|a lit IH]; intros p s Hin Heq.
  - by destruct p.
  - destruct p as [|b p].
    + change ("" +:+ String c s) with (String c s) in Heq. simplify_eq.
      apply Hin. by left.
    + rewrite append_cons in Heq. simplify_eq.
      apply (IH p s); [|done]. intros H. apply Hin. by right.
Qed.

(** The longest run of a class in [p +:+ t] ends within [p] or goes on
    into [t]. *)
Lemma span_split cls : forall p t,
  (all_class cls p
   /\ span cls (p +:+ t) = (p +:+ fst (span cls t), snd (span cls t)))
  \/ (exists a c b, p = a +:+ String c b /\ all_class cls a /\ cls c = false
                    /\ span cls (p +:+ t) = (a, String c b +:+ t)).
Proof.
  induction p as [|x p IH]; intros t.
  - left. split; [constructor|]. change ("" +:+ t) with t. by destruct (span cls t).
  - rewrite append_cons. simpl. destruct (cls x) eqn:Hx.
    + destruct (IH t) as [[Hp ->]|(a & c & b & -> & Ha & Hc & ->)].
      * left. split; [by apply all_class_cons|done].
      * right. exists (String x a), c, b. split; [done|].
        split; [by apply all_class_cons|done].
    + right. exists "", x, p. split; [done|]. split; [constructor|done].
Qed.

Lemma take_decimal_sound h n : forall s r rest,
  take_decimal h n s = Some (r, rest) -> s = r +:+ rest /\ decimal_chars h n r.
Proof.
  induction n as [|n IH]; intros s r rest; simpl.
  - intros H. simplify_eq. split; [done|constructor].
  - destruct s as [|c s]; [done|]. simpl.
    destruct (is_digit c) eqn:Hd.
    + destruct (take_decimal h n s) as [[r' rest']|] eqn:Ht; [|done].
      intros H. simplify_eq. destruct (IH _ _ _ Ht) as [-> Hr].
      split; [done|]. by constructor.
    + destruct (is_lead c) eqn:Hl; [|done].
      destruct (span_sound is_continuation s) as (Hs & Hcont & _).
      destruct (unicode_decimal h _) eqn:Hu; [|done].
      destruct (take_decimal h n _) as [[r' rest']|] eqn:Ht; [|done].
      intros H. simplify_eq. destruct (IH _ _ _ Ht) as [Hrest Hr].
      split.
      * rewrite append_assoc, append_cons, <- Hrest, <- Hs. done.
      * by constructor.
Qed.

(** Exactly [n] digits taken from [p +:+ t], where [t] begins with a byte
    of ASCII that is no digit, lie within [p]. *)
Lemma take_decimal_split h n : forall p c t dd r,
  plain c ->
  take_decimal h n (p +:+ String c t) = Some (dd, r) ->
  exists p', p = dd +:+ p' /\ r = p' +:+ String c t.
Proof.
  induction n as [|n IH]; intros p c t dd r Hplain.
  - simpl. intros H. simplify_eq. by exists p.
  - destruct Hplain as (Hd & Hl & Hc).
    destruct p as [|b p].
    + change ("" +:+ String c t) with (String c t). simpl. by rewrite Hd, Hl.
    + rewrite append_cons. simpl. destruct (is_digit b).
      * destruct (take_decimal h n (p +:+ String c t)) as [[dd' r']|] eqn:Ht; [|done].
        intros [= <- <-].
        destruct (IH _ _ _ _ _ (conj Hd (conj Hl Hc)) Ht) as (p' & -> & ->).
        by exists p'.
      * destruct (is_lead b); [|done].
        destruct (span_split is_continuation p (String c t))
          as [[Hp Hspan]|(a & x & b' & -> & Ha & Hx & Hspan)]; rewrite Hspan; cbn [fst snd].
        -- simpl. rewrite Hc. cbn [fst snd]. rewrite append_empty_r.
           destruct (unicode_decimal h (String b p)); [|done].
           destruct (take_decimal h n (String c t)) as [[dd' r']|] eqn:Ht; [|done].
           intros [= <- <-].
           destruct (IH "" c t dd' r' (conj Hd (conj Hl Hc)) Ht) as (p' & Hp' & ->).
           destruct dd'; [|done]. destruct p'; [|done].
           exists "". by rewrite !append_empty_r.
        -- destruct (unicode_decimal h (String b a)); [|done].
           destruct (take_decimal h n (String x b' +:+ String c t))
             as [[dd' r']|] eqn:Ht; [|done].
           intros [= <- <-].
           destruct (IH _ _ _ _ _ (conj Hd (conj Hl Hc)) Ht) as (p' & Hp' & ->).
           exists p'. split; [|done].
           rewrite append_assoc, append_cons. by rewrite Hp'.
Qed.

(** What follows the device in a build's name. *)
Lemma build_tail_unfold device date suf :
  build_name device date +:+ suf
  = "rockbox-" +:+ device +:+ String "-" (date +:+ ".zip" +:+ suf).
Proof. unfold build_name. by rewrite !append_assoc. Qed.

Lemma plain_dash : plain "-".
Proof. by repeat split. Qed.

Lemma plain_r : plain "r".
Proof. by repeat split. Qed.

(** Eight digits and [.zip] cannot be read where a device name and its
    dash stand. *)
Lemma no_date_in_device h device Y dd r3 r4 :
  all_class is_lower_alnum device ->
  take_decimal h 8 (device +:+ String "-" Y) = Some (dd, r3) ->
  strip_prefix ".zip" r3 = Some r4 -> False.
Proof.
  intros Hdev Ht Hz.
  apply (take_decimal_split h 8 _ _ _ _ _ plain_dash) in Ht as (dev' & -> & ->).
  apply all_class_append in Hdev as [_ Hdev'].
  apply strip_prefix_split in Hz as [(p' & -> & _)|(l2 & Hl2 & Heq & Hs)].
  - by apply all_class_cons in Hdev' as [? _].
  - apply strip_prefix_head in Hs as [l2' ->]; [|done].
    apply (not_in_append "-" ".zip" dev' l2'); [|done].
    simpl. intros [?|[?|[?|[?|[]]]]]; done.
Qed.

Lemma strip_prefix_dash c X :
  strip_prefix "-" (String c X) = if Ascii.eqb "-" c then Some X else None.
Proof. reflexivity. Qed.

(** A match that begins before a build's name ends before it. *)
Lemma NIGHTLY_RE_match_no_overlap h p device date suf m :
  p <> "" -> all_class is_lower_alnum device ->
  NIGHTLY_RE_match h (p +:+ build_name device date +:+ suf) = Some m ->
  (width m <= String.length p)%nat.
Proof.
  intros Hp Hdev. rewrite build_tail_unfold. unfold NIGHTLY_RE_match.
  set (Y := date +:+ ".zip" +:+ suf).
  destruct (strip_prefix "rockbox-" _) as [s1|] eqn:H1; [|done].
  apply strip_prefix_split in H1 as [(p1 & -> & ->)|(l2 & Hl2 & Heq & Hs)].
  2:{ (* the literal would have to end inside the name *)
    apply strip_prefix_head in Hs as [l2' ->]; [|done].
    destruct p as [|c p]; [done|]. rewrite append_cons in Heq. simplify_eq.
    exfalso. apply (not_in_append "r" "ockbox-" p l2'); [|done].
    simpl. intros [?|[?|[?|[?|[?|[?|[?|[]]]]]]]]; done. }
  destruct (span_split is_lower_alnum p1 ("rockbox-" +:+ device +:+ String "-" Y))
    as [[Hp1 ->]|(a & c & b & -> & Ha & Hc & ->)]; cbn [fst snd].
  - (* the device of the match would run on into the name *)
    change ("rockbox-" +:+ device +:+ String "-" Y)
      with ("rockbox" +:+ String "-" (device +:+ String "-" Y)).
    rewrite (span_app is_lower_alnum "rockbox") by (done || by repeat constructor).
    cbn [fst snd]. destruct (String.eqb _ ""); [done|].
    rewrite strip_prefix_dash. change (Ascii.eqb "-" "-") with true. cbv iota.
    destruct (take_decimal h 8 _) as [[dd r3]|] eqn:Ht; [|done].
    destruct (strip_prefix ".zip" r3) as [r4|] eqn:Hz; [|done].
    by destruct (no_date_in_device _ _ _ _ _ _ Hdev Ht Hz).
  - (* the device of the match ends before the name *)
    destruct (String.eqb a ""); [done|].
    rewrite append_cons, strip_prefix_dash.
    destruct (Ascii.eqb "-" c); [|done].
    destruct (take_decimal h 8 _) as [[dd r3]|] eqn:Ht; [|done].
    change ("rockbox-" +:+ device +:+ String "-" Y)
      with (String "r" ("ockbox-" +:+ device +:+ String "-" Y)) in Ht.
    apply (take_decimal_split h 8 _ _ _ _ _ plain_r) in Ht as (b' & -> & ->).
    change (String "r" ("ockbox-" +:+ device +:+ String "-" Y))
      with ("rockbox-" +:+ device +:+ String "-" Y).
    destruct (strip_prefix ".zip" _) as [r4|] eqn:Hz; [|done].
    apply strip_prefix_split in Hz as [(b'' & -> & _)|(l2 & Hl2 & Heq & Hs)].
    + intros H. simplify_eq. cbn [width].
      rewrite !length_append. simpl. rewrite !length_append. simpl. lia.
    + apply strip_prefix_head in Hs as [l2' ->]; [|done].
      exfalso. apply (not_in_append "r" ".zip" b' l2'); [|done].
      simpl. intros [?|[?|[?|[?|[]]]]]; done.
Qed.

Lemma finditer_from_cons {G} (match_at : string -> option (re_match G)) skip c s :
  finditer_from match_at skip (String c s)
  = match skip with
    | S k => finditer_from match_at k s
    | O => match match_at (String c s) with
           | Some m => groups m :: finditer_from match_at (Nat.pred (width m)) s
           | None => finditer_from match_at 0%nat s
           end
    end.
Proof. reflexivity. Qed.

Lemma finditer_from_finds h device date suf :
  device <> "" -> all_class is_lower_alnum device -> eight_digits h date ->
  forall pre skip,
    (skip <= String.length pre)%nat ->
    In (device, date)
       (finditer_from (NIGHTLY_RE_match h) skip (pre +:+ build_name device date +:+ suf)).
Proof.
  intros Hne Hdev Hdate. induction pre as [|c pre IH]; intros skip Hskip.
  - simpl in Hskip. assert (skip = 0%nat) as -> by lia.
    change ("" +:+ build_name device date +:+ suf) with (build_name device date +:+ suf).
    pose proof (NIGHTLY_RE_match_build h device date suf Hne Hdev Hdate) as Hm.
    rewrite build_tail_unfold in *.
    change ("rockbox-" +:+ device +:+ String "-" (date +:+ ".zip" +:+ suf))
      with (String "r" ("ockbox-" +:+ device +:+ String "-" (date +:+ ".zip" +:+ suf))) in *.
    rewrite finditer_from_cons, Hm. by left.
  - rewrite append_cons, finditer_from_cons. destruct skip as [|k].
    + destruct (NIGHTLY_RE_match _) as [m|] eqn:Hm.
      * right. apply IH. rewrite <- append_cons in Hm.
        apply NIGHTLY_RE_match_no_overlap in Hm; [|done|done]. simpl in Hm. lia.
      * apply IH. lia.
    + apply IH. simpl in Hskip. lia.
Qed.

(** Every build of the device that a page names is among the dates
    latest-nightly resolution chooses from. *)
Theorem nightly_dates_complete h device date pre suf :
  device <> "" -> all_class is_lower_alnum device -> eight_digits h date ->
  In date (nightly_dates h device (pre +:+ build_name device date +:+ suf)).
Proof.
  intros Hne Hdev Hdate. unfold nightly_dates.
  set (dates := map snd (List.filter _ _)).
  assert (Hin : In date dates).
  { unfold dates. apply in_map_iff. exists (device, date). split; [done|].
    apply filter_In. split; [|apply String.eqb_refl].
    unfold NIGHTLY_RE_finditer. apply finditer_from_finds; [done..|lia]. }
  case_bool_decide as Hd; [|done]. rewrite Hd in Hin. done.
Qed.

(** ** Order of strings *)

Lemma ascii_compare_trans a b c :
  Ascii.compare a b = Lt -> Ascii.compare b c = Lt -> Ascii.compare a c = Lt.
Proof.
  unfold Ascii.compare. rewrite !N.compare_lt_iff. lia.
Qed.

Lemma string_compare_refl s : String.compare s s = Eq.
Proof.
  induction s as [|a s IH]; simpl; [done|].
  unfold Ascii.compare. by rewrite N.compare_refl.
Qed.

Lemma string_compare_trans s1 : forall s2 s3,
  String.compare s1 s2 = Lt -> String.compare s2 s3 = Lt -> String.compare s1 s3 = Lt.
Proof.
  induction s1 as [|a s1 IH]; intros [|b s2] [|c s3]; simpl; try done.
  destruct (Ascii.compare a b) eqn:Hab; [|clear IH|done];
    destruct (Ascii.compare b c) eqn:Hbc; try done.
  - apply Ascii.compare_eq_iff in Hab as ->. rewrite Hbc. apply IH.
  - apply Ascii.compare_eq_iff in Hab as ->. by rewrite Hbc.
  - apply Ascii.compare_eq_iff in Hbc as <-. by rewrite Hab.
  - by rewrite (ascii_compare_trans a b c).
Qed.

Lemma string_leb_refl s : String.leb s s = true.
Proof. unfold String.leb. by rewrite string_compare_refl. Qed.

Lemma string_leb_trans s1 s2 s3 :
  String.leb s1 s2 = true -> String.leb s2 s3 = true -> String.leb s1 s3 = true.
Proof.
  unfold String.leb.
  destruct (String.compare s1 s2) eqn:H12; [| |done];
    destruct (String.compare s2 s3) eqn:H23; try done; intros _ _.
  - apply String.compare_eq_iff in H12 as ->. by rewrite H23.
  - apply String.compare_eq_iff in H12 as ->. by rewrite H23.
  - apply String.compare_eq_iff in H23 as <-. by rewrite H12.
  - by rewrite (string_compare_trans s1 s2 s3).
Qed.

Lemma string_ltb_leb s1 s2 : String.ltb s1 s2 = true -> String.leb s1 s2 = true.
Proof. unfold String.ltb, String.leb. by destruct (String.compare s1 s2). Qed.

Lemma string_nltb_leb s1 s2 : String.ltb s1 s2 = false -> String.leb s2 s1 = true.
Proof.
  unfold String.ltb, String.leb. rewrite (String.compare_antisym s1 s2).
  by destruct (String.compare s2 s1).
Qed.

(** [max_from cur l] is [cur] or a member of [l], and nothing in sight is
    greater. *)
Lemma max_from_spec l : forall cur,
  (max_from cur l = cur \/ In (max_from cur l) l)
  /\ String.leb cur (max_from cur l) = true
  /\ (forall y, In y l -> String.leb y (max_from cur l) = true).
Proof.
  induction l as [|x l IH]; intros cur; simpl.
  - split; [by left|]. split; [apply string_leb_refl|]. intros y [].
  - destruct (IH (if String.ltb cur x then x else cur)) as (Hin & Hcur & Hall).
    destruct (String.ltb cur x) eqn:Hlt.
    + split; [destruct Hin; auto|]. split.
      * eapply string_leb_trans; [by apply string_ltb_leb|done].
      * intros y [<-|Hy]; auto.
    + split; [destruct Hin; auto|]. split; [done|].
      intros y [<-|Hy]; auto.
      eapply string_leb_trans; [by apply string_nltb_leb|done].
Qed.

(** ** Latest nightly *)



(** ** Dated nightly *)

Lemma fullmatch_d8_spec h s : fullmatch_d8 h s = true <-> eight_digits h s.
Proof.
  unfold fullmatch_d8, eight_digits. split.
  - destruct (take_decimal h 8 s) as [[r [|]]|] eqn:Ht; try done.
    intros _. apply take_decimal_sound in Ht as (-> & Hr).
    by rewrite append_empty_r.
  - intros Hs. pose proof (take_decimal_app h 8 s "" Hs I) as Ht.
    rewrite append_empty_r in Ht. by rewrite Ht.
Qed.




(** C7 as stated fails: a selector of eight Arabic-Indic digits is no
    string of eight digits of ASCII, and dated-nightly resolution accepts it
    and makes a URL from it. *)
Lemma nightly_url_for_date_arabic_indic :
  ~ eight_ascii_digits arabic_20250822
  /\ nightly_url_for_date host_index "erosqnative" arabic_20250822 (world_of ∅)
     = (Ok ("https://download.rockbox.org/daily/erosqnative/rockbox-erosqnative-"
            +:+ arabic_20250822 +:+ ".zip"),
        world_of ∅).
Proof.
  split.
  - intros [Hlen _]. vm_compute in Hlen. discriminate Hlen.
  - vm_compute. reflexivity.
Qed.

(** The selector-validation example of the spec. *)
Example nightly_url_for_date_dashed :
  nightly_url_for_date host_index "erosqnative" "2025-08-22" (world_of ∅)
  = (Raise (SystemExit DateMustBeYYYYMMDD), world_of ∅).
Proof. vm_compute. reflexivity. Qed.

Example nightly_url_for_date_plain :
  nightly_url_for_date host_index "erosqnative" "20250822" (world_of ∅)
  = (Ok "https://download.rockbox.org/daily/erosqnative/rockbox-erosqnative-20250822.zip",
     world_of ∅).
Proof. vm_compute. reflexivity. Qed.

(** ** Latest nightly never asks the secondary page *)

(** Whatever the server says, latest-nightly resolution only ever requests
    the index of the device. *)
Lemma latest_nightly_requests h device w :
  exists k, (1 <= k <= 4)%nat
    /\ w_trace (snd (latest_nightly_url_for_device h device w))
       = w_trace w ++ repeat (EvRequest (DAILY_INDEX_TMPL device)) k.
Proof.
  destruct (urlopen_trace h (status_forcelist _retry) (DAILY_INDEX_TMPL device) 3 w)
    as (k & Hk & Hw).
  exists k. split; [done|].
  assert (Hs : w_trace (snd (get_text h (DAILY_INDEX_TMPL device) w))
               = w_trace w ++ repeat (EvRequest (DAILY_INDEX_TMPL device)) k).
  { rewrite get_text_world. unfold session_get.
    change (total _retry) with 3%nat. by rewrite Hw. }
  unfold latest_nightly_url_for_device, bind.
  destruct (get_text h (DAILY_INDEX_TMPL device) w) as [[text|e] w1]; [|done].
  simpl in Hs. destruct (bool_decide _); simpl; [done|].
  unfold py_max. by destruct (nightly_dates h device text).
Qed.

(** C8, at a failing input. The index of the device answers 404 and the
    daily page lists builds of the device: latest-nightly resolution sends
    one request, to the index of the device, and ends with the HTTP error;
    the daily page is never requested. *)
Theorem latest_nightly_no_fallback :
  NIGHTLY_RE_finditer host_primary_down index_page
  = [("erosqnative", "20250101"); ("erosqnative", "20250822");
     ("erosqnative", "20250815"); ("ipodvideo", "20251231")]
  /\ server host_primary_down [] DAILY_SHTML = Response 200 false index_page
  /\ latest_nightly_url_for_device host_primary_down "erosqnative" (world_of ∅)
     = (Raise (HTTPError 404),
        mkWorld ∅ 1000 [EvRequest "https://download.rockbox.org/daily/erosqnative/"]).
Proof. vm_compute. repeat split; reflexivity. Qed.

(** ** Runs of the pipeline on concrete volumes *)

(** C1, at a failing input. The volume has a directory [f] with a user
    file [f] in it; the build ships a file [f] and nothing at [f/f]. The
    merge puts the shipped bytes at [f/f]: a file of the destination that is
    absent from the source is overwritten. *)
Theorem merge_copy_overwrites_file_absent_from_source :
  tree_lookup build_f [".rockbox"; "f"; "f"] = None
  /\ vol_nested !! ["mnt"; ".rockbox"; "f"; "f"] = Some (EFile "mine" 50)
  /\ merge_copy build_f [".rockbox"] ["mnt"; ".rockbox"] (world_of vol_nested)
     = (Ok tt,
        mkWorld (<[ ["mnt"; ".rockbox"; "f"; "f"] := EFile "shipped" 70 ]> vol_nested)
                1000 [EvWriteFile ["mnt"; ".rockbox"; "f"; "f"]]).
Proof. vm_compute. repeat split; reflexivity. Qed.

(** C3, at a failing input. Reverting to the latest snapshot on a volume
    that has none ends in [IndexError], raised by the indexing of the empty
    list; the message of a missing backup is never reached. *)
Theorem revert_latest_without_snapshots :
  glob_backups vol_user ["mnt"; ".rockbox_backups"] = []
  /\ main (stub_host (fun _ _ => Unreachable) no_zip) (args_revert "latest" false)
          (world_of vol_user)
     = (Raise IndexError,
        mkWorld (<[ ["mnt"; ".rockbox_backups"] := EDir 1000 ]> vol_user)
                1000 [EvMkdir ["mnt"; ".rockbox_backups"]]).
Proof. vm_compute. repeat split; reflexivity. Qed.

(** C4, at a failing input. A dry-run install on a volume with a managed
    subtree writes and removes the probe file of [ensure_writable] and
    makes the snapshot directory. *)
Theorem dry_run_install_writes :
  main host_index (args_install (Some "20250822") true) (world_of vol_user)
  = (Ok tt,
     mkWorld (<[ ["mnt"; ".rockbox_backups"] := EDir 1000 ]> vol_user)
             1000
             [EvWriteFile ["mnt"; ".write_test_1000"];
              EvUnlink ["mnt"; ".write_test_1000"];
              EvMkdir ["mnt"; ".rockbox_backups"]])
  /\ vol_user !! ["mnt"; ".rockbox_backups"] = None.
Proof. vm_compute. repeat split; reflexivity. Qed.



(** ** Directories stay *)

Lemma keeps_dirs_ret {A} (a : A) : keeps_dirs (ret a).
Proof. by intros w p. Qed.

Lemma keeps_dirs_raise {A} e : keeps_dirs (@raise A e).
Proof. by intros w p. Qed.

Lemma keeps_dirs_lift {A} (r : result A) : keeps_dirs (lift r).
Proof. by intros w p. Qed.


Lemma keeps_dirs_if {A} (b : bool) (m1 m2 : M A) :
  keeps_dirs m1 -> keeps_dirs m2 -> keeps_dirs (if b then m1 else m2).
Proof. by destruct b. Qed.

Lemma keeps_dirs_try_pass m : keeps_dirs m -> keeps_dirs (try_pass m).
Proof.
  intros Hm w p Hp. specialize (Hm w p Hp). unfold try_pass.
  by destruct (m w) as [[a|e] w1].
Qed.

Lemma keeps_dirs_write_file p data mtime : keeps_dirs (write_file p data mtime).
Proof.
  intros w q Hq. unfold write_file, create_check.
  repeat case_match; simpl; try done.
  all: rewrite is_dir_insert_file; [done|unfold is_dir; by repeat case_match].
Qed.

Lemma keeps_dirs_unlink p : keeps_dirs (unlink p).
Proof.
  intros w q Hq. unfold unlink. repeat case_match; simpl; try done.
  apply is_dir_true in Hq as [m Hq]. apply is_dir_true. exists m.
  rewrite lookup_delete_ne; [done|]. congruence.
Qed.

Lemma keeps_dirs_merge_copy scratch src_dir dst_dir :
  keeps_dirs (merge_copy scratch src_dir dst_dir).
Proof.
  intros w p [m Hp]%is_dir_true.
  destruct (merge_copy_never_deletes scratch src_dir dst_dir w p _ Hp) as (e' & He' & Hk).
  apply is_dir_true. destruct e'; [done|]. simpl in Hk. subst. eauto.
Qed.

Lemma keeps_dirs_ensure_writable p : keeps_dirs (ensure_writable p).
Proof.
  intros w q Hq. unfold ensure_writable.
  pose proof (keeps_dirs_write_file (p ++ [".write_test_" +:+ pretty (w_now w)]) "ok"
                (w_now w) w q Hq) as H1.
  destruct (write_file _ _ _ w) as [[[]|e] w1]; simpl in *.
  - by apply keeps_dirs_try_pass; [apply keeps_dirs_unlink|].
  - by apply keeps_dirs_try_pass; [apply keeps_dirs_unlink|].
Qed.

Lemma keeps_dirs_read_file p : keeps_dirs (read_file p).
Proof. intros w q Hq. unfold read_file. by repeat case_match. Qed.

Lemma keeps_dirs_exists p : keeps_dirs (exists_ p).
Proof. by intros w q. Qed.

Create HintDb keeps_dirs.
#[local] Hint Resolve keeps_dirs_ret keeps_dirs_raise keeps_dirs_lift keeps_dirs_if
  keeps_dirs_try_pass keeps_dirs_write_file keeps_dirs_unlink keeps_dirs_merge_copy
  keeps_dirs_ensure_writable keeps_dirs_read_file keeps_dirs_exists : keeps_dirs.



(** ** Listing the snapshots makes their directory *)




(** ** The order of an install *)

Lemma latest_nightly_world h device w :
  exists k,
    snd (latest_nightly_url_for_device h device w)
    = mkWorld (w_fs w) (w_now w)
              (w_trace w ++ repeat (EvRequest (DAILY_INDEX_TMPL device)) k).
Proof.
  destruct (urlopen_trace h (status_forcelist _retry) (DAILY_INDEX_TMPL device) 3 w)
    as (k & Hk & Hw).
  exists k.
  assert (Hs : snd (get_text h (DAILY_INDEX_TMPL device) w)
               = mkWorld (w_fs w) (w_now w)
                         (w_trace w ++ repeat (EvRequest (DAILY_INDEX_TMPL device)) k)).
  { rewrite get_text_world. unfold session_get.
    change (total _retry) with 3%nat. by rewrite Hw. }
  unfold latest_nightly_url_for_device, bind.
  destruct (get_text h (DAILY_INDEX_TMPL device) w) as [[text|e] w1]; [|done].
  simpl in Hs. destruct (bool_decide _); simpl; [done|].
  unfold py_max. by destruct (nightly_dates h device text).
Qed.

Lemma ensure_writable_ok p w w2 :
  ensure_writable p w = (Ok tt, w2) ->
  w2 = mkWorld (delete (p ++ [".write_test_" +:+ pretty (w_now w)])
                  (<[p ++ [".write_test_" +:+ pretty (w_now w)] := EFile "ok" (w_now w)]>
                     (w_fs w)))
               (w_now w)
               (w_trace w ++ [EvWriteFile (p ++ [".write_test_" +:+ pretty (w_now w)]);
                              EvUnlink (p ++ [".write_test_" +:+ pretty (w_now w)])]).
Proof.
  unfold ensure_writable. set (probe := p ++ [".write_test_" +:+ pretty (w_now w)]).
  intros H.
  destruct (write_file probe "ok" (w_now w) w) as [[[]|e] w1] eqn:Hw; [|done].
  assert (Hw1 : w1 = set_fs (<[probe := EFile "ok" (w_now w)]> (w_fs w)) (EvWriteFile probe) w).
  { unfold write_file in Hw. repeat case_match; by simplify_eq. }
  subst w1. unfold try_pass, unlink in H. simpl in H.
  rewrite lookup_insert_eq in H. simplify_eq.
  unfold set_fs. simpl. by rewrite <- app_assoc.
Qed.

Lemma mkdir_ok p w w1 :
  mkdir p w = (Ok tt, w1) ->
  w_now w1 = w_now w
  /\ (w1 = w \/ w1 = set_fs (<[p := EDir (w_now w)]> (w_fs w)) (EvMkdir p) w).
Proof.
  unfold mkdir. intros H. repeat case_match; simplify_eq; auto.
Qed.

Lemma write_file_ok_world p data mtime w w1 :
  write_file p data mtime w = (Ok tt, w1) ->
  w1 = set_fs (<[p := EFile data mtime]> (w_fs w)) (EvWriteFile p) w.
Proof. unfold write_file. intros H. repeat case_match; by simplify_eq. Qed.


Lemma get_bytes_ok h url w z w4 :
  get_bytes h url w = (Ok z, w4) ->
  exists k, w4 = mkWorld (w_fs w) (w_now w) (w_trace w ++ repeat (EvRequest url) (S k)).
Proof.
  intros H. pose proof (get_bytes_world h url w) as Hw. rewrite H in Hw. simpl in Hw.
  destruct (urlopen_trace h (status_forcelist _retry) url 3 w) as (k & Hk & Hu).
  unfold session_get in Hw. change (total _retry) with 3%nat in Hw. rewrite Hu in Hw.
  destruct k as [|k]; [lia|]. eauto.
Qed.

Lemma exec_trace scratch o w r w1 :
  exec scratch o w = (r, w1) ->
  w_now w1 = w_now w
  /\ exists evs, w_trace w1 = w_trace w ++ evs /\ Forall (fun ev => is_fs_event ev = true) evs.
Proof.
  assert (Hnil : forall w0 : World, exists evs, w_trace w0 = w_trace w0 ++ evs
                   /\ Forall (fun ev => is_fs_event ev = true) evs).
  { intros w0. exists []. by rewrite app_nil_r. }
  destruct o as [p|s d|e]; simpl.
  - unfold mkdir. intros H. repeat case_match; simplify_eq; (split; [done|]); auto.
    exists [EvMkdir p]. split; [done|]. by repeat constructor.
  - unfold copy2, write_file. intros H.
    repeat case_match; simplify_eq; (split; [done|]); auto.
    all: eexists [EvWriteFile _]; split; [done|]; by repeat constructor.
  - unfold raise. intros H. simplify_eq. auto.
Qed.

Lemma for_exec_trace scratch l : forall w r w1,
  for_ l (exec scratch) w = (r, w1) ->
  w_now w1 = w_now w
  /\ exists evs, w_trace w1 = w_trace w ++ evs /\ Forall (fun ev => is_fs_event ev = true) evs.
Proof.
  induction l as [|o l IH]; intros w r w1; simpl.
  - unfold ret. intros H. simplify_eq. split; [done|]. exists []. by rewrite app_nil_r.
  - unfold bind. destruct (exec scratch o w) as [[[]|e] wa] eqn:Hx.
    + intros Hrun. apply exec_trace in Hx as (Hn1 & evs1 & Ht1 & Hf1).
      apply IH in Hrun as (Hn2 & evs2 & Ht2 & Hf2).
      split; [congruence|]. exists (evs1 ++ evs2).
      rewrite Ht2, Ht1, <- app_assoc. split; [done|]. by apply Forall_app.
    + intros H. simplify_eq. by apply exec_trace in Hx.
Qed.

Lemma merge_copy_trace scratch src_dir dst_dir w r w1 :
  merge_copy scratch src_dir dst_dir w = (r, w1) ->
  w_now w1 = w_now w
  /\ exists evs, w_trace w1 = w_trace w ++ evs /\ Forall (fun ev => is_fs_event ev = true) evs.
Proof. rewrite merge_copy_ops. apply for_exec_trace. Qed.

Lemma unzip_and_deploy_ok h zbytes mp verbose w w' :
  unzip_and_deploy h zbytes mp false verbose w = (Ok tt, w') ->
  exists zf td,
    ZipFile h zbytes = Ok zf
    /\ existsb (String.eqb ".rockbox") (omap before_slash (namelist zf)) = true
    /\ zip_extractall zf = Ok td
    /\ merge_copy td [".rockbox"] (mp ++ [".rockbox"]) w = (Ok tt, w').
Proof.
  unfold unzip_and_deploy, lift, bind, die, raise, ret.
  destruct (ZipFile h zbytes) as [zf|e]; [|done].
  destruct (existsb _ _) eqn:Hv; cbn [negb]; [|done].
  destruct (zip_extractall zf) as [td|e] eqn:Hx; [|done].
  intros H. exists zf, td. split; [reflexivity|]. split; [exact Hv|].
  split; [exact Hx|exact H].
Qed.

Lemma bind_inv_ok {A B} (m : M A) (k : A -> M B) w b w' :
  bind m k w = (Ok b, w') ->
  exists a w1, m w = (Ok a, w1) /\ k a w1 = (Ok b, w').
Proof.
  unfold bind. destruct (m w) as [[a|e] w1]; [eauto|done].
Qed.


Lemma parent_snoc (p : path) (n : string) : parent (p ++ [n]) = p.
Proof. unfold parent. apply removelast_last. Qed.

(** The URL of an install is settled by requests for the index of the
    device alone, if by any. *)
Lemma resolve_url_ok h args w url w1 :
  (if truthy (arg_release args) then
     ret (release_url h (str (arg_device args)) (str (arg_release args)))
   else if truthy (arg_date args) then
     nightly_url_for_date h (str (arg_device args)) (str (arg_date args))
   else
     r <- latest_nightly_url_for_device h (str (arg_device args)) ;;
     ret (fst r)) w = (Ok url, w1) ->
  exists k,
    w1 = mkWorld (w_fs w) (w_now w)
           (w_trace w ++ repeat (EvRequest (DAILY_INDEX_TMPL (str (arg_device args)))) k).
Proof.
  assert (Hsame : w = mkWorld (w_fs w) (w_now w)
                        (w_trace w ++ repeat (EvRequest (DAILY_INDEX_TMPL (str (arg_device args)))) 0)).
  { destruct w. simpl. by rewrite app_nil_r. }
  destruct (truthy (arg_release args)).
  { unfold ret. intros H. simplify_eq. by exists 0%nat. }
  destruct (truthy (arg_date args)).
  { unfold nightly_url_for_date, bind, die, raise, ret.
    destruct (negb _); intros H; simplify_eq. by exists 0%nat. }
  intros (r & w2 & Hr & Hret)%bind_inv_ok. unfold ret in Hret. simplify_eq.
  destruct (latest_nightly_world h (str (arg_device args)) w) as [k Hk].
  rewrite Hr in Hk. simpl in Hk. eauto.
Qed.






(** The same install, run: the user's file is where it was, the build's
    files are beside it, and the snapshot was written before the request. *)
Example install_run :
  main host_build (args_install (Some "20250822") false) (world_of vol_user)
  = (Ok tt,
     mkWorld
       (<[ ["mnt"; ".rockbox"; "themes"; "default.cfg"] := EFile "theme" 71 ]>
       (<[ ["mnt"; ".rockbox"; "themes"] := EDir 1000 ]>
       (<[ ["mnt"; ".rockbox"; "rockbox.ucl"] := EFile "firmware" 70 ]>
       (<[ ["mnt"; ".rockbox_backups"; "rockbox-backup-20250822-120000.tar.gz"]
             := EFile "TAR" 1000 ]>
       (<[ ["mnt"; ".rockbox_backups"] := EDir 1000 ]> vol_user)))))
       1000
       [EvWriteFile ["mnt"; ".write_test_1000"];
        EvUnlink ["mnt"; ".write_test_1000"];
        EvMkdir ["mnt"; ".rockbox_backups"];
        EvWriteFile ["mnt"; ".rockbox_backups"; "rockbox-backup-20250822-120000.tar.gz"];
        EvRequest "https://download.rockbox.org/daily/erosqnative/rockbox-erosqnative-20250822.zip";
        EvMkdir ["mnt"; ".rockbox"; "themes"];
        EvWriteFile ["mnt"; ".rockbox"; "rockbox.ucl"];
        EvWriteFile ["mnt"; ".rockbox"; "themes"; "default.cfg"]]).
Proof. vm_compute. reflexivity. Qed.

(** ** What a dry run and an empty snapshot list do in general *)

Lemma create_backup_dry h dot verbose w bp w3 :
  create_backup h dot true verbose w = (Ok bp, w3) ->
  w3 = w
  \/ (is_Some (w_fs w !! dot)
      /\ w3 = set_fs (<[parent dot ++ [".rockbox_backups"] := EDir (w_now w)]> (w_fs w))
                     (EvMkdir (parent dot ++ [".rockbox_backups"])) w).
Proof.
  unfold create_backup, exists_, backups_dir. unfold bind at 1.
  destruct (bool_decide (is_Some (w_fs w !! dot))) eqn:He; simpl.
  - apply bool_decide_eq_true in He. unfold bind, ret.
    destruct (mkdir (parent dot ++ [".rockbox_backups"]) w) as [[[]|e] w1] eqn:Hmk; [|done].
    intros H. simplify_eq. apply mkdir_ok in Hmk as [_ [->| ->]]; auto.
  - unfold ret. intros H. simplify_eq. by left.
Qed.

(** Every dry-run install that runs to its end has written and removed the
    probe file of [ensure_writable] on the way, and may have made the
    snapshot directory. *)
Lemma dry_run_install_trace h args w w' :
  arg_revert args = None ->
  arg_dry_run args = true ->
  main h args w = (Ok tt, w') ->
  exists mp idx mk,
    mount h args w = (Ok mp, w)
    /\ w_trace w'
       = w_trace w ++ idx
         ++ [EvWriteFile (mp ++ [".write_test_" +:+ pretty (w_now w)]);
             EvUnlink (mp ++ [".write_test_" +:+ pretty (w_now w)])]
         ++ mk
    /\ Forall (fun ev => is_request ev = true) idx
    /\ (mk = [] \/ mk = [EvMkdir (mp ++ [".rockbox_backups"])]).
Proof.
  intros Hrev Hdry. unfold main. rewrite Hrev, Hdry.
  intros (u & w0 & Hdev & Hrun)%bind_inv_ok.
  assert (w0 = w) as ->.
  { unfold die, raise, ret in Hdev. destruct (negb _); by simplify_eq. }
  apply bind_inv_ok in Hrun as (mp & w0 & Hmount & Hrun).
  assert (w0 = w) as ->.
  { unfold mount in Hmount. by simplify_eq. }
  apply bind_inv_ok in Hrun as (url & w1 & Hurl & Hrun).
  apply resolve_url_ok in Hurl as [ki ->].
  apply bind_inv_ok in Hrun as ([] & w2 & Hprobe & Hrun).
  apply ensure_writable_ok in Hprobe. cbn [w_fs w_now w_trace] in Hprobe.
  apply bind_inv_ok in Hrun as (bp & w3 & Hsnap & Hrun).
  unfold ret in Hrun. simplify_eq.
  unfold find_dot_rockbox in Hsnap. apply create_backup_dry in Hsnap.
  rewrite parent_snoc in Hsnap.
  exists mp, (repeat (EvRequest (DAILY_INDEX_TMPL (str (arg_device args)))) ki).
  assert (Hidx : Forall (fun ev => is_request ev = true)
                   (repeat (EvRequest (DAILY_INDEX_TMPL (str (arg_device args)))) ki)).
  { apply Forall_forall. intros ev Hev%list_elem_of_In%repeat_spec. by subst. }
  destruct Hsnap as [->|[_ ->]].
  - exists []. cbn [w_trace]. rewrite app_nil_r, <- app_assoc. auto.
  - exists [EvMkdir (mp ++ [".rockbox_backups"])].
    cbn [set_fs w_trace]. rewrite <- !app_assoc. auto.
Qed.

(** Reverting to the latest snapshot when the snapshot directory holds
    none: the run ends in [IndexError], with the volume as it was. *)
Lemma revert_latest_no_snapshots h args w root :
  arg_revert args = Some "latest" ->
  mount h args w = (Ok root, w) ->
  is_dir (w_fs w) (root ++ [".rockbox_backups"]) = true ->
  glob_backups (w_fs w) (root ++ [".rockbox_backups"]) = [] ->
  main h args w = (Raise IndexError, w).
Proof.
  intros Hrev Hmount [m Hdir]%is_dir_true Hglob. unfold main. rewrite Hrev.
  rewrite (bind_ok _ _ _ _ _ Hmount). cbn [String.eqb Ascii.eqb Bool.eqb].
  assert (Hl : list_backups root w = (Ok [], w)).
  { unfold list_backups, backups_dir, bind, mkdir. rewrite Hdir. unfold ret.
    by rewrite Hglob. }
  unfold bind at 1. by rewrite (bind_ok _ _ _ _ _ Hl).
Qed.

(** ** What a merge that succeeds has installed *)

Lemma walk_complete rel : forall t top es,
  at_path t rel (Dir es) ->
  In (top ++ rel, dirnames es, filenames es) (walk top t).
Proof.
  induction rel as [|n rel IH]; intros t top es; simpl.
  - intros <-. simpl. left. by rewrite app_nil_r.
  - destruct t as [|es0]; [done|]. intros (x & Hx & Hat). simpl. right.
    apply in_flat_map. exists (n, x). split; [done|]. simpl.
    replace (top ++ n :: rel) with ((top ++ [n]) ++ rel) by (by rewrite <- app_assoc).
    by apply IH.
Qed.

Lemma at_path_snoc_inv rel : forall t n c,
  at_path t (rel ++ [n]) c -> exists es, at_path t rel (Dir es) /\ In (n, c) es.
Proof.
  induction rel as [|m rel IH]; intros t n c; simpl.
  - destruct t as [|es]; [done|]. intros (x & Hx & ->). eauto.
  - destruct t as [|es]; [done|]. intros (x & Hx & Hat).
    apply IH in Hat as (es' & Hat & Hin). eauto.
Qed.

Lemma in_filenames_intro f data mtime es :
  In (f, File data mtime) es -> In f (filenames es).
Proof.
  intros Hin. unfold filenames. apply in_map_iff. exists (f, File data mtime).
  split; [done|]. by apply filter_In.
Qed.

Lemma assoc_NoDup n c es :
  NoDup (map fst es) -> In (n, c) es -> assoc n es = Some c.
Proof.
  induction es as [|[m x] es IH]; simpl; [done|].
  intros [Hm Hnd]%NoDup_cons [Heq|Hin].
  - simplify_eq. by rewrite String.eqb_refl.
  - destruct (String.eqb_spec n m) as [->|_]; [|by apply IH].
    exfalso. apply Hm, list_elem_of_In, in_map_iff. by exists (m, c).
Qed.

(** In a tree that lists no name twice, looking a path up finds the node
    that sits there. *)
Lemma tree_lookup_at_path rel : forall t c,
  wf_node t -> at_path t rel c -> tree_lookup t rel = Some c.
Proof.
  induction rel as [|n rel IH]; intros t c Hwf; simpl.
  - by intros ->.
  - destruct t as [|es]; [done|]. intros (x & Hx & Hat).
    rewrite (assoc_NoDup n x es); [|by destruct Hwf|done].
    apply IH; [by apply (wf_node_child es n)|done].
Qed.

(** After a run that succeeds no operation of it has anything left to do. *)
Lemma for_all_done scratch src_dir dst_dir l : forall w w',
  Forall (shaped src_dir dst_dir) l ->
  for_ l (exec scratch) w = (Ok tt, w') ->
  Forall (fun o => done scratch o (w_fs w')) l.
Proof.
  induction l as [|o l IH]; intros w w' Hl; simpl; [constructor|].
  apply Forall_cons in Hl as [Ho Hl].
  unfold bind. destruct (exec scratch o w) as [[[]|e] wa] eqn:Hx; [|done].
  intros Hrun. constructor; [|by eapply IH].
  eapply for_preserves_done; eauto using exec_ok_done.
Qed.

Section Installed.
Variables (scratch S : node) (src_dir dst_dir : path).
Hypothesis source_at : tree_lookup scratch src_dir = Some S.
Hypothesis source_wf : wf_node S.
Hypothesis source_dir : is_dir_node S = true.

Lemma mkdir_op_of_dir rel es :
  at_path S rel (Dir es) ->
  In (OpMkdir (dst_dir ++ rel)) (merge_ops scratch src_dir dst_dir).
Proof.
  intros Hat. unfold merge_ops. right. apply in_flat_map.
  exists (src_dir ++ rel, dirnames es, filenames es). split.
  - unfold os_walk. rewrite source_at. by apply walk_complete.
  - unfold triple_ops. simpl. rewrite relative_to_app. by left.
Qed.

Lemma copy_op_of_file rel data mtime :
  at_path S rel (File data mtime) ->
  In (OpCopy2 (src_dir ++ rel) (dst_dir ++ rel)) (merge_ops scratch src_dir dst_dir).
Proof.
  intros Hat. destruct (exists_last (l := rel)) as (rel0 & f & ->).
  { intros ->. simpl in Hat. by rewrite <- Hat in source_dir. }
  apply at_path_snoc_inv in Hat as (es & Hat & Hin).
  unfold merge_ops. right. apply in_flat_map.
  exists (src_dir ++ rel0, dirnames es, filenames es). split.
  - unfold os_walk. rewrite source_at. by apply walk_complete.
  - unfold triple_ops. simpl. rewrite relative_to_app. right.
    apply in_or_app. right. apply in_map_iff. exists f.
    rewrite <- !app_assoc. eauto using in_filenames_intro.
Qed.

Lemma for_unblocked l : forall w r w1,
  (forall o, In o l -> In o (merge_ops scratch src_dir dst_dir)) ->
  for_ l (exec scratch) w = (r, w1) ->
  unblocked S dst_dir (w_fs w) -> unblocked S dst_dir (w_fs w1).
Proof.
  induction l as [|o l IH]; intros w r w1 Hl; simpl.
  - unfold ret. intros H. by simplify_eq.
  - unfold bind. destruct (exec scratch o w) as [[[]|x] wa] eqn:Hx.
    + intros Hrun Hun. apply (IH wa r w1); [|done|].
      * intros o' Ho'. apply Hl. by right.
      * eapply (effect_unblocked scratch S src_dir dst_dir); eauto using exec_ok_effect.
        apply Hl. by left.
    + intros H. simplify_eq. by apply exec_raise in Hx as [-> _].
Qed.

Lemma installs_core w w' :
  unblocked S dst_dir (w_fs w) ->
  merge_copy scratch src_dir dst_dir w = (Ok tt, w') ->
  (forall rel data mtime,
     at_path S rel (File data mtime) ->
     w_fs w' !! (dst_dir ++ rel) = Some (EFile data mtime))
  /\ (forall rel es,
        at_path S rel (Dir es) -> is_dir (w_fs w') (dst_dir ++ rel) = true).
Proof.
  intros Hun. rewrite merge_copy_ops. intros Hrun.
  pose proof (for_all_done _ _ _ _ _ _ (merge_ops_shaped scratch src_dir dst_dir) Hrun)
    as Hdone.
  rewrite Forall_forall in Hdone.
  assert (Hun' : unblocked S dst_dir (w_fs w')) by (by eapply for_unblocked).
  split.
  - intros rel data mtime Hat.
    destruct (Hdone _ (proj2 (list_elem_of_In _ _) (copy_op_of_file _ _ _ Hat)))
      as (data' & mtime' & Hs & Ht).
    rewrite tree_lookup_app, source_at in Hs.
    rewrite (tree_lookup_at_path _ _ _ source_wf Hat) in Hs. simplify_eq.
    unfold copy2_target in Ht. by rewrite (Hun' _ _ _ Hat) in Ht.
  - intros rel es Hat.
    exact (Hdone _ (proj2 (list_elem_of_In _ _) (mkdir_op_of_dir _ _ Hat))).
Qed.
End Installed.

(** ** When a merge succeeds *)

Lemma mkdir_enabled p w :
  is_file (w_fs w) p = false ->
  is_dir (w_fs w) p = true \/ is_dir (w_fs w) (parent p) = true ->
  exists w', mkdir p w = (Ok tt, w').
Proof.
  unfold is_file, is_dir, mkdir, create_check. intros Hf Hd.
  destruct (w_fs w !! p) as [[]|]; [done|eauto|].
  destruct Hd as [Hd|Hd]; [done|].
  destruct (w_fs w !! parent p) as [[]|]; [done|eauto|done].
Qed.

Lemma copy2_enabled scratch s d data mtime w :
  tree_lookup scratch s = Some (File data mtime) ->
  is_dir (w_fs w) d = false ->
  is_dir (w_fs w) (parent d) = true ->
  exists w', copy2 scratch s d w = (Ok tt, w').
Proof.
  unfold copy2. intros -> Hd Hp. rewrite Hd.
  unfold write_file, create_check, is_dir in *.
  destruct (w_fs w !! d) as [[]|]; [eauto|done|].
  destruct (w_fs w !! parent d) as [[]|]; [done|eauto|done].
Qed.

Lemma exec_keeps_dir scratch o w r w' p :
  exec scratch o w = (r, w') -> is_dir (w_fs w) p = true -> is_dir (w_fs w') p = true.
Proof.
  intros Hx [m Hp]%is_dir_true. destruct r as [[]|e].
  - destruct (effect_keeps _ _ _ _ _ _ (exec_ok_effect _ _ _ _ Hx) Hp) as (e' & He' & Hk).
    apply is_dir_true. destruct e'; [done|]. simpl in Hk. subst. eauto.
  - apply exec_raise in Hx as [-> _]. apply is_dir_true. eauto.
Qed.

Lemma for_keeps_dir scratch l w r w' p :
  for_ l (exec scratch) w = (r, w') -> is_dir (w_fs w) p = true ->
  is_dir (w_fs w') p = true.
Proof.
  intros Hrun [m Hp]%is_dir_true.
  destruct (for_keeps _ _ _ _ _ _ _ Hrun Hp) as (e' & He' & Hk).
  apply is_dir_true. destruct e'; [done|]. simpl in Hk. subst. eauto.
Qed.

Lemma walk_sub rel : forall S t top x,
  at_path S rel t -> In x (walk (top ++ rel) t) -> In x (walk top S).
Proof.
  induction rel as [|n rel IH]; intros S t top x; simpl.
  - intros ->. by rewrite app_nil_r.
  - destruct S as [|es]; [done|]. intros (c & Hc & Hat) Hin. simpl. right.
    apply in_flat_map. exists (n, c). split; [done|]. simpl.
    apply (IH c t); [done|]. by rewrite <- app_assoc.
Qed.

Section Succeeds.
Variables (scratch S : node) (src_dir dst_dir : path).
Hypothesis source_at : tree_lookup scratch src_dir = Some S.
Hypothesis source_wf : wf_node S.
Hypothesis source_dir : is_dir_node S = true.

Lemma effect_dirs_free o f f' :
  In o (merge_ops scratch src_dir dst_dir) ->
  effect scratch o f f' ->
  unblocked S dst_dir f -> dirs_free S dst_dir f -> dirs_free S dst_dir f'.
Proof.
  intros Hin [->|p m -> Hp ->|s d data mtime -> Hs Ht ->] Hun Hfree; [done|..].
  - intros rel es Hat. specialize (Hfree rel es Hat). unfold is_file in *.
    destruct (decide (p = dst_dir ++ rel)) as [->|Hne];
      [by rewrite lookup_insert_eq|by rewrite lookup_insert_ne].
  - intros rel es Hat. specialize (Hfree rel es Hat). unfold is_file in *.
    destruct (decide (copy2_target f s d = dst_dir ++ rel)) as [Heq|Hne];
      [|by rewrite lookup_insert_ne].
    exfalso.
    destruct (merge_ops_inv _ _ _ _ _ source_at Hin)
      as [(? & ? & _ & Heq')|[Heq'|(rel' & data' & mtime' & Hat' & Heq')]];
      [done|done|].
    injection Heq' as -> ->. unfold copy2_target in Heq.
    rewrite (Hun _ _ _ Hat') in Heq. apply app_inv_head in Heq as ->.
    by pose proof (at_path_fun _ _ _ _ source_wf Hat Hat').
Qed.

Lemma exec_fits o w w' :
  In o (merge_ops scratch src_dir dst_dir) ->
  exec scratch o w = (Ok tt, w') -> fits S dst_dir (w_fs w) -> fits S dst_dir (w_fs w').
Proof.
  intros Hin Hx%exec_ok_effect [Hun Hfree]. split.
  - by eapply (effect_unblocked scratch S src_dir dst_dir).
  - by eapply effect_dirs_free.
Qed.

Lemma for_fits l : forall w w',
  (forall o, In o l -> In o (merge_ops scratch src_dir dst_dir)) ->
  for_ l (exec scratch) w = (Ok tt, w') -> fits S dst_dir (w_fs w) -> fits S dst_dir (w_fs w').
Proof.
  induction l as [|o l IH]; intros w w' Hl; simpl.
  - unfold ret. intros H. by simplify_eq.
  - unfold bind. destruct (exec scratch o w) as [[[]|x] wa] eqn:Hx; [|done].
    intros Hrun Hfit. apply (IH wa w'); [|done|].
    + intros o' Ho'. apply Hl. by right.
    + eapply exec_fits; eauto. apply Hl. by left.
Qed.

Lemma for_enabled l : forall w,
  (forall o, In o l -> In o (merge_ops scratch src_dir dst_dir)) ->
  Forall (enabled_from scratch S dst_dir (w_fs w)) l ->
  fits S dst_dir (w_fs w) ->
  exists w', for_ l (exec scratch) w = (Ok tt, w').
Proof.
  induction l as [|o l IH]; intros w Hl Hen Hfit; simpl; [by eexists|].
  apply Forall_cons in Hen as [Ho Hen].
  destruct (Ho w Hfit) as [wa Hx]; [done|].
  unfold bind. rewrite Hx. apply IH.
  - intros o' Ho'. apply Hl. by right.
  - eapply Forall_impl; [exact Hen|]. intros o' Hen' w2 Hfit2 Hmono.
    apply Hen'; [done|]. intros p Hp. apply Hmono. by eapply exec_keeps_dir.
  - eapply exec_fits; eauto. apply Hl. by left.
Qed.

(** The operations of one directory of the source can run once the
    directory stands on the volume. *)
Lemma triple_enabled rel es f0 :
  at_path S rel (Dir es) ->
  is_dir f0 (dst_dir ++ rel) = true ->
  Forall (enabled_from scratch S dst_dir f0)
         (triple_ops src_dir dst_dir (src_dir ++ rel, dirnames es, filenames es)).
Proof.
  intros Hat Hdir. unfold triple_ops. simpl. rewrite relative_to_app.
  constructor; [|apply Forall_app; split; apply Forall_forall].
  - intros w [_ Hfree] Hmono. apply mkdir_enabled; [by eapply Hfree|].
    left. by apply Hmono.
  - intros o (d & -> & Hd%list_elem_of_In%in_dirnames_dir)%list_elem_of_fmap.
    destruct Hd as [es' Hd]. intros w [_ Hfree] Hmono. apply mkdir_enabled.
    + rewrite <- app_assoc. eapply Hfree. eauto using at_path_snoc.
    + right. rewrite parent_snoc. by apply Hmono.
  - intros o (f & -> & Hf%list_elem_of_In%in_filenames)%list_elem_of_fmap.
    destruct Hf as (data & mtime & Hf). intros w [Hun _] Hmono.
    assert (Hatf : at_path S (rel ++ [f]) (File data mtime)) by eauto using at_path_snoc.
    apply (copy2_enabled _ _ _ data mtime).
    + rewrite <- app_assoc, tree_lookup_app, source_at.
      by apply tree_lookup_at_path.
    + rewrite <- app_assoc. by eapply Hun.
    + rewrite parent_snoc. by apply Hmono.
Qed.

Lemma triple_in_merge_ops rel t x o :
  at_path S rel t -> In x (walk (src_dir ++ rel) t) ->
  In o (triple_ops src_dir dst_dir x) ->
  In o (merge_ops scratch src_dir dst_dir).
Proof.
  intros Hat Hx Ho. unfold merge_ops. right. apply in_flat_map. exists x.
  split; [|done]. unfold os_walk. rewrite source_at. by eapply walk_sub.
Qed.

Lemma walk_ops_in_merge_ops rel t o :
  at_path S rel t ->
  In o (flat_map (triple_ops src_dir dst_dir) (walk (src_dir ++ rel) t)) ->
  In o (merge_ops scratch src_dir dst_dir).
Proof.
  intros Hat (x & Hx & Ho)%in_flat_map. by eapply triple_in_merge_ops.
Qed.

(** The walks of the children of a directory run one after the other,
    given that the walk of each child runs. *)
Lemma children_run es rel :
  at_path S rel (Dir es) ->
  Forall (fun e => forall rel' w,
            at_path S rel' (snd e) ->
            is_dir (w_fs w) (dst_dir ++ rel') = true ->
            fits S dst_dir (w_fs w) ->
            exists w', for_ (flat_map (triple_ops src_dir dst_dir)
                                      (walk (src_dir ++ rel') (snd e)))
                            (exec scratch) w = (Ok tt, w')) es ->
  forall l w,
    (forall e, In e l -> In e es) ->
    fits S dst_dir (w_fs w) ->
    (forall n es', In (n, Dir es') es ->
                   is_dir (w_fs w) (dst_dir ++ rel ++ [n]) = true) ->
    exists w', for_ (flat_map (triple_ops src_dir dst_dir)
                       (flat_map (fun e => walk ((src_dir ++ rel) ++ [fst e]) (snd e)) l))
                    (exec scratch) w = (Ok tt, w').
Proof.
  intros Hat IH. rewrite Forall_forall in IH.
  induction l as [|[n c] l IHl]; intros w Hes Hfit Hdirs.
  { simpl. by eexists. }
  cbn [flat_map fst snd]. rewrite flat_map_app, for_app.
  assert (Hin : In (n, c) es) by (apply Hes; by left).
  assert (Hatc : at_path S (rel ++ [n]) c) by eauto using at_path_snoc.
  rewrite <- app_assoc.
  assert (Hrun : exists w2,
             for_ (flat_map (triple_ops src_dir dst_dir) (walk (src_dir ++ rel ++ [n]) c))
                  (exec scratch) w = (Ok tt, w2)).
  { destruct c as [data mtime|es'].
    - simpl. by eexists.
    - apply (IH (n, Dir es') (proj2 (list_elem_of_In _ _) Hin) (rel ++ [n]) w);
        [done| |done].
      by eapply Hdirs. }
  destruct Hrun as [w2 Hrun]. rewrite (bind_ok _ _ _ _ _ Hrun).
  apply IHl.
  - intros e He. apply Hes. by right.
  - eapply for_fits; [|exact Hrun|done]. intros o Ho. by eapply walk_ops_in_merge_ops.
  - intros n' es' Hin'. eapply for_keeps_dir; [exact Hrun|]. by eapply Hdirs.
Qed.

(** The walk of a subtree runs to its end once the directory of the
    subtree stands on a volume that fits the source. *)
Lemma walk_runs t : forall rel w,
  at_path S rel t ->
  is_dir (w_fs w) (dst_dir ++ rel) = true ->
  fits S dst_dir (w_fs w) ->
  exists w', for_ (flat_map (triple_ops src_dir dst_dir) (walk (src_dir ++ rel) t))
                  (exec scratch) w = (Ok tt, w').
Proof.
  induction t as [data mtime|es IH] using node_ind'; intros rel w Hat Hdir Hfit.
  { simpl. by eexists. }
  assert (Hsub : forall o x, In x (walk (src_dir ++ rel) (Dir es)) ->
                   In o (triple_ops src_dir dst_dir x) ->
                   In o (merge_ops scratch src_dir dst_dir)).
  { intros o x Hx Ho. by eapply triple_in_merge_ops. }
  simpl walk in *. cbn [flat_map].
  set (top := (src_dir ++ rel, dirnames es, filenames es)) in *.
  assert (Htop : forall o, In o (triple_ops src_dir dst_dir top) ->
                   In o (merge_ops scratch src_dir dst_dir)).
  { intros o Ho. apply (Hsub o top); [by left|done]. }
  destruct (for_enabled (triple_ops src_dir dst_dir top) w) as [w1 Hrun1];
    [done|by apply triple_enabled|done|].
  rewrite for_app. rewrite (bind_ok _ _ _ _ _ Hrun1).
  apply (children_run es rel); [done|done|done| |].
  - eapply for_fits; [|exact Hrun1|done]. done.
  - intros n es' Hin.
    assert (Hshaped : Forall (shaped src_dir dst_dir) (triple_ops src_dir dst_dir top)).
    { apply Forall_forall. intros o Ho%list_elem_of_In.
      pose proof (merge_ops_shaped scratch src_dir dst_dir) as Hall.
      rewrite Forall_forall in Hall. by apply Hall, list_elem_of_In, Htop. }
    pose proof (for_all_done _ _ _ _ _ _ Hshaped Hrun1) as Hdone.
    rewrite Forall_forall in Hdone.
    apply (Hdone (OpMkdir (dst_dir ++ rel ++ [n]))). apply list_elem_of_In.
    unfold triple_ops, top. simpl. rewrite relative_to_app. right.
    apply in_or_app. left. apply in_map_iff. exists n. rewrite <- app_assoc.
    split; [done|]. unfold dirnames. apply in_map_iff. exists (n, Dir es').
    split; [done|]. by apply filter_In.
Qed.

Lemma succeeds_core w :
  fits S dst_dir (w_fs w) ->
  is_dir (w_fs w) dst_dir = true \/ is_dir (w_fs w) (parent dst_dir) = true ->
  exists w', merge_copy scratch src_dir dst_dir w = (Ok tt, w').
Proof.
  intros Hfit Hdst. rewrite merge_copy_ops. unfold merge_ops. cbn [for_ exec].
  assert (HS : exists es, S = Dir es) by (destruct S; [done|eauto]).
  destruct HS as [es HS].
  assert (Hroot : at_path S [] (Dir es)) by (by simpl).
  destruct (mkdir_enabled dst_dir w) as [w1 Hmk]; [|done|].
  { destruct Hfit as [_ Hfree]. specialize (Hfree [] es Hroot).
    by rewrite app_nil_r in Hfree. }
  rewrite (bind_ok _ _ _ _ _ Hmk).
  assert (Hin : In (OpMkdir dst_dir) (merge_ops scratch src_dir dst_dir)) by (by left).
  unfold os_walk. rewrite source_at.
  replace (walk src_dir S) with (walk (src_dir ++ []) S) by (by rewrite app_nil_r).
  apply walk_runs.
  - by rewrite HS.
  - rewrite app_nil_r. by apply (exec_ok_done scratch (OpMkdir dst_dir) w w1).
  - by apply (exec_fits (OpMkdir dst_dir) w w1).
Qed.
End Succeeds.

(** ** A merge into a destination that is not there *)

Lemma assoc_In n c es : assoc n es = Some c -> In (n, c) es.
Proof.
  induction es as [|[m x] es IH]; simpl; [done|].
  destruct (String.eqb_spec n m) as [->|_].
  - intros H. simplify_eq. by left.
  - intros H. right. by apply IH.
Qed.

Lemma tree_lookup_sound p : forall t c, tree_lookup t p = Some c -> at_path t p c.
Proof.
  induction p as [|n p IH]; intros t c; simpl.
  - intros H. by simplify_eq.
  - destruct t as [|es]; [done|].
    destruct (assoc n es) as [x|] eqn:Hx; [|done].
    intros H. exists x. split; [by apply assoc_In|by apply IH].
Qed.

Lemma fresh_fits S dst_dir f :
  (forall r, f !! (dst_dir ++ r) = None) -> fits S dst_dir f.
Proof.
  intros Hnone. split.
  - intros rel data mtime _. unfold is_dir. by rewrite Hnone.
  - intros rel es _. unfold is_file. by rewrite Hnone.
Qed.

Section Fresh.
Variables (scratch S : node) (src_dir dst_dir : path).
Hypothesis source_at : tree_lookup scratch src_dir = Some S.
Hypothesis source_wf : wf_node S.
Hypothesis source_dir : is_dir_node S = true.

(** X3. Merged into a destination that does not exist yet, under a parent
    that does, the source is reproduced: the merge succeeds; below the
    destination the volume then has exactly the nodes of the source, every
    file with its bytes and modification time; and the rest of the volume is
    as it was. *)
Theorem merge_copy_fresh w :
  (forall r, w_fs w !! (dst_dir ++ r) = None) ->
  is_dir (w_fs w) (parent dst_dir) = true ->
  exists w',
    merge_copy scratch src_dir dst_dir w = (Ok tt, w')
    /\ (forall r,
          match tree_lookup S r with
          | Some (File data mtime) =>
              w_fs w' !! (dst_dir ++ r) = Some (EFile data mtime)
          | Some (Dir _) => is_dir (w_fs w') (dst_dir ++ r) = true
          | None => w_fs w' !! (dst_dir ++ r) = None
          end)
    /\ (forall q, (forall r, q <> dst_dir ++ r) -> w_fs w' !! q = w_fs w !! q).
Proof.
  intros Hnone Hparent.
  pose proof (fresh_fits S dst_dir (w_fs w) Hnone) as Hfit.
  destruct (succeeds_core scratch S src_dir dst_dir source_at source_wf source_dir
              w Hfit (or_intror Hparent)) as [w' Hrun].
  destruct (installs_core scratch S src_dir dst_dir source_at source_wf source_dir
              w w' (proj1 Hfit) Hrun) as [Hfiles Hdirs].
  assert (Hover : forall q, (forall rel c, at_path S rel c -> q <> dst_dir ++ rel) ->
                    w_fs w' !! q = w_fs w !! q).
  { intros q Hq.
    pose proof (merge_copy_overlay scratch S src_dir dst_dir source_at source_wf
                  w q (proj1 Hfit) Hq) as H.
    by rewrite Hrun in H. }
  exists w'. split; [done|]. split.
  - intros r. destruct (tree_lookup S r) as [[data mtime|es]|] eqn:Hr.
    + apply Hfiles. by apply tree_lookup_sound.
    + eapply Hdirs. by apply tree_lookup_sound.
    + rewrite Hover; [apply Hnone|].
      intros rel c Hat Heq. apply app_inv_head in Heq as ->.
      by rewrite (tree_lookup_at_path _ _ _ source_wf Hat) in Hr.
  - intros q Hq. apply Hover. intros rel c _. apply Hq.
Qed.
End Fresh.

(** X1. A merge that succeeds, with no directory of the volume in the way of
    a file of the source, has put every file of the source at its place
    under the destination, with the bytes and the modification time it has
    in the source, and has every directory of the source as a directory
    there. *)
Theorem merge_copy_installs scratch S src_dir dst_dir w w' :
  tree_lookup scratch src_dir = Some S ->
  wf_node S ->
  is_dir_node S = true ->
  unblocked S dst_dir (w_fs w) ->
  merge_copy scratch src_dir dst_dir w = (Ok tt, w') ->
  (forall rel data mtime,
     at_path S rel (File data mtime) ->
     w_fs w' !! (dst_dir ++ rel) = Some (EFile data mtime))
  /\ (forall rel es,
        at_path S rel (Dir es) -> is_dir (w_fs w') (dst_dir ++ rel) = true).
Proof.
  intros Hat Hwf Hdir Hun Hrun.
  exact (installs_core scratch S src_dir dst_dir Hat Hwf Hdir w w' Hun Hrun).
Qed.

(** X2. A merge runs to its end when the source is a directory that lists no
    name twice, nothing of the volume contradicts it (no directory where
    the source has a file, no file where it has a directory), and the
    destination is a directory or can be made under its parent. *)
Theorem merge_copy_succeeds scratch S src_dir dst_dir w :
  tree_lookup scratch src_dir = Some S ->
  wf_node S ->
  is_dir_node S = true ->
  fits S dst_dir (w_fs w) ->
  is_dir (w_fs w) dst_dir = true \/ is_dir (w_fs w) (parent dst_dir) = true ->
  exists w', merge_copy scratch src_dir dst_dir w = (Ok tt, w').
Proof.
  intros Hat Hwf Hdir Hfit Hdst.
  exact (succeeds_core scratch S src_dir dst_dir Hat Hwf Hdir w Hfit Hdst).
Qed.

(** X4. With no directory of the volume in the way of a file of the source, a
    merge, finished or broken off, leaves every place that is no place of a
    node of the source as it was: a file the user added beside the shipped
    ones keeps its bytes and its time. *)
Theorem merge_copy_spares_the_rest scratch S src_dir dst_dir w q :
  tree_lookup scratch src_dir = Some S ->
  wf_node S ->
  unblocked S dst_dir (w_fs w) ->
  (forall rel c, at_path S rel c -> q <> dst_dir ++ rel) ->
  w_fs (snd (merge_copy scratch src_dir dst_dir w)) !! q = w_fs w !! q.
Proof.
  intros Hat Hwf Hun Hq.
  exact (merge_copy_overlay scratch S src_dir dst_dir Hat Hwf w q Hun Hq).
Qed.

(** X5. No run of a merge, finished or broken off, removes an entry of the
    volume or changes its kind: what was a file is a file, and a directory
    is the directory it was. *)
Theorem merge_copy_keeps_every_entry scratch src_dir dst_dir w q e :
  w_fs w !! q = Some e ->
  exists e', w_fs (snd (merge_copy scratch src_dir dst_dir w)) !! q = Some e'
             /\ same_kind e e'.
Proof. apply merge_copy_never_deletes. Qed.

Lemma build_rockbox_wf : wf_node build_rockbox.
Proof.
  simpl. repeat split; [|apply NoDup_singleton].
  apply NoDup_cons. split; [|apply NoDup_singleton].
  by intros ?%list_elem_of_singleton.
Qed.

Lemma vol_bare_fresh r : vol_bare !! (["mnt"; ".rockbox"] ++ r) = None.
Proof. unfold vol_bare. simpl. by rewrite !lookup_insert_ne, lookup_empty. Qed.

Lemma merge_copy_fresh_example :
  exists w',
    merge_copy build_tree [".rockbox"] ["mnt"; ".rockbox"] (world_of vol_bare) = (Ok tt, w')
    /\ (forall r,
          match tree_lookup build_rockbox r with
          | Some (File data mtime) =>
              w_fs w' !! (["mnt"; ".rockbox"] ++ r) = Some (EFile data mtime)
          | Some (Dir _) => is_dir (w_fs w') (["mnt"; ".rockbox"] ++ r) = true
          | None => w_fs w' !! (["mnt"; ".rockbox"] ++ r) = None
          end)
    /\ (forall q, (forall r, q <> ["mnt"; ".rockbox"] ++ r) ->
                  w_fs w' !! q = w_fs (world_of vol_bare) !! q).
Proof.
  apply (merge_copy_fresh build_tree build_rockbox [".rockbox"] ["mnt"; ".rockbox"]).
  - reflexivity.
  - exact build_rockbox_wf.
  - reflexivity.
  - exact vol_bare_fresh.
  - reflexivity.
Defined.

Lemma merge_copy_succeeds_example :
  exists w',
    merge_copy build_tree [".rockbox"] ["mnt"; ".rockbox"] (world_of vol_bare) = (Ok tt, w').
Proof.
  apply (merge_copy_succeeds build_tree build_rockbox [".rockbox"] ["mnt"; ".rockbox"]).
  - reflexivity.
  - exact build_rockbox_wf.
  - reflexivity.
  - apply fresh_fits. exact vol_bare_fresh.
  - right. reflexivity.
Defined.

Lemma merge_copy_installs_example :
  (forall rel data mtime,
     at_path build_rockbox rel (File data mtime) ->
     w_fs (snd (merge_copy build_tree [".rockbox"] ["mnt"; ".rockbox"] (world_of vol_bare)))
       !! (["mnt"; ".rockbox"] ++ rel) = Some (EFile data mtime))
  /\ (forall rel es,
        at_path build_rockbox rel (Dir es) ->
        is_dir (w_fs (snd (merge_copy build_tree [".rockbox"] ["mnt"; ".rockbox"]
                             (world_of vol_bare))))
               (["mnt"; ".rockbox"] ++ rel) = true).
Proof.
  apply (merge_copy_installs build_tree build_rockbox [".rockbox"] ["mnt"; ".rockbox"]
           (world_of vol_bare)).
  - reflexivity.
  - exact build_rockbox_wf.
  - reflexivity.
  - apply fresh_fits. exact vol_bare_fresh.
  - vm_compute. reflexivity.
Defined.

Lemma vol_user_unblocked : unblocked build_rockbox ["mnt"; ".rockbox"] vol_user.
Proof.
  intros rel data mtime Hat. destruct rel as [|n rel]; [done|].
  unfold is_dir, vol_user. simpl. rewrite lookup_insert. case_decide; [done|].
  by rewrite !lookup_insert_ne, lookup_empty.
Qed.

Lemma merge_copy_spares_the_rest_example :
  w_fs (snd (merge_copy build_tree [".rockbox"] ["mnt"; ".rockbox"] (world_of vol_user)))
    !! ["mnt"; ".rockbox"; "config.cfg"]
  = w_fs (world_of vol_user) !! ["mnt"; ".rockbox"; "config.cfg"].
Proof.
  apply (merge_copy_spares_the_rest build_tree build_rockbox).
  - reflexivity.
  - exact build_rockbox_wf.
  - exact vol_user_unblocked.
  - intros rel c Hat Heq.
    change ["mnt"; ".rockbox"; "config.cfg"] with (["mnt"; ".rockbox"] ++ ["config.cfg"]) in Heq.
    apply app_inv_head in Heq as <-. simpl in Hat.
    destruct Hat as (x & [Hx|[Hx|[]]] & _); by simplify_eq.
Defined.

Lemma merge_copy_keeps_every_entry_example :
  exists e',
    w_fs (snd (merge_copy build_f [".rockbox"] ["mnt"; ".rockbox"] (world_of vol_nested)))
      !! ["mnt"; ".rockbox"; "f"] = Some e'
    /\ same_kind (EDir 20) e'.
Proof.
  apply (merge_copy_keeps_every_entry build_f [".rockbox"] ["mnt"; ".rockbox"]
           (world_of vol_nested) ["mnt"; ".rockbox"; "f"] (EDir 20)).
  reflexivity.
Defined.

(** ** What a fetch can end with *)

Lemma urlopen_outcome h fl url left : forall w,
  match fst (urlopen h fl left url w) with
  | Ok (st, body) =>
      exists hist ra, server h hist url = Response st ra body /\ mem_Z st fl = false
  | Raise e => e = ConnectionError url \/ e = RetryError url
  end.
Proof.
  induction left as [|n IH]; intros w; simpl.
  - destruct (server h (requests (w_trace w)) url) as [st ra body|] eqn:Hsrv; simpl; [|auto].
    destruct (is_retry fl 0 st ra) eqn:Hr; simpl; [auto|].
    exists (requests (w_trace w)), ra. split; [done|].
    unfold is_retry in Hr. by apply orb_false_elim in Hr as [? _].
  - destruct (server h (requests (w_trace w)) url) as [st ra body|] eqn:Hsrv; [|apply IH].
    destruct (is_retry fl (S n) st ra) eqn:Hr; [apply IH|]. simpl.
    exists (requests (w_trace w)), ra. split; [done|].
    unfold is_retry in Hr. by apply orb_false_elim in Hr as [? _].
Qed.

(** X6. The check of [get_text] for a 403 is dead. The session has retried
    that status away before a response is handed back, so [get_text] does
    what it would do without the check, and it never raises [SystemExit]:
    a fetch that fails fails with another exception. *)
Theorem get_text_403_check_is_dead h url w :
  get_text h url w
  = (r <- session_get h url ;; raise_for_status (fst r) ;; ret (snd r)) w
  /\ (forall u, fst (get_text h url w) <> Raise (SystemExit403 u))
  /\ (forall m, fst (get_text h url w) <> Raise (SystemExit m)).
Proof.
  assert (Heq : get_text h url w
                = (r <- session_get h url ;; raise_for_status (fst r) ;; ret (snd r)) w).
  { unfold get_text, bind.
    destruct (session_get h url w) as [[[st body]|e] w1] eqn:Hs; [|done].
    apply urlopen_never_403 in Hs. cbn [fst snd].
    by destruct (Z.eqb_spec st 403). }
  split; [done|]. rewrite Heq. unfold bind, session_get.
  pose proof (urlopen_outcome h (status_forcelist _retry) url (total _retry) w) as H.
  destruct (urlopen _ _ _ _ w) as [[[st body]|e] w1]; cbn [fst snd] in *.
  - unfold raise_for_status. destruct (_ && _); simpl; split; intros; discriminate.
  - destruct H as [->| ->]; split; intros; discriminate.
Qed.










(** ** The write probe *)

(** X10. The write probe of a directory, in each of the four states its test
    file can be in. Where no entry has the name of the test file, the probe
    succeeds on a directory and leaves the volume exactly as it was, and
    ends the run on anything else, the world untouched. Where a file has
    that name, the probe succeeds and the file is gone. Where a directory
    has that name, the probe ends the run and the directory stays. *)
Theorem ensure_writable_cases p w :
  let probe := p ++ [".write_test_" +:+ pretty (w_now w)] in
  (w_fs w !! probe = None -> is_dir (w_fs w) p = true ->
     ensure_writable p w
     = (Ok tt, mkWorld (w_fs w) (w_now w)
                 (w_trace w ++ [EvWriteFile probe; EvUnlink probe])))
  /\ (w_fs w !! probe = None -> is_dir (w_fs w) p = false ->
        ensure_writable p w = (Raise (SystemExit (CannotWrite p)), w))
  /\ (forall data mtime, w_fs w !! probe = Some (EFile data mtime) ->
        ensure_writable p w
        = (Ok tt, mkWorld (delete probe (w_fs w)) (w_now w)
                    (w_trace w ++ [EvWriteFile probe; EvUnlink probe])))
  /\ (forall mtime, w_fs w !! probe = Some (EDir mtime) ->
        ensure_writable p w = (Raise (SystemExit (CannotWrite p)), w)).
Proof.
  intros probe.
  assert (Hpar : parent probe = p) by apply parent_snoc.
  unfold ensure_writable. fold probe. unfold write_file, create_check, try_pass, unlink.
  rewrite Hpar. repeat split.
  - intros Hnone [m Hp]%is_dir_true. rewrite Hnone, Hp.
    unfold set_fs. cbn [w_fs w_now w_trace]. rewrite lookup_insert_eq.
    cbn [w_fs w_now w_trace].
    rewrite delete_insert_eq, delete_id by done. by rewrite <- app_assoc.
  - intros Hnone Hp. rewrite Hnone. unfold is_dir in Hp.
    destruct (w_fs w !! p) as [[d m|m]|] eqn:Hpp; [| done |]; cbn [snd]; by rewrite Hnone, Hpp.
  - intros data mtime Hf. rewrite Hf.
    unfold set_fs. cbn [w_fs w_now w_trace]. rewrite lookup_insert_eq.
    cbn [w_fs w_now w_trace]. by rewrite delete_insert_eq, <- app_assoc.
  - intros mtime Hd. rewrite Hd. cbn [snd]. by rewrite Hd.
Qed.

(** ** The list of snapshots *)


Lemma insert_by_In {A} (k : A -> Z) x y l : In y (insert_by k x l) <-> y = x \/ In y l.
Proof.
  induction l as [|z l IH]; simpl.
  - split; [intros [<-|[]]; auto|intros [->|[]]; auto].
  - destruct (k x <? k z); simpl; [split; intros [?|?]; auto|].
    rewrite IH. split; intros H; intuition auto.
Qed.

Lemma insert_by_ascending {A} (k : A -> Z) x l :
  ascending k l -> ascending k (insert_by k x l).
Proof.
  induction l as [|z l IH]; simpl; [done|]. intros [Hz Hl].
  destruct (k x <? k z) eqn:Hlt.
  - apply Z.ltb_lt in Hlt. simpl. split; [|done].
    intros y [<-|Hy]; [lia|]. specialize (Hz y Hy). lia.
  - apply Z.ltb_ge in Hlt. simpl. split; [|auto].
    intros y [->|Hy]%insert_by_In; auto.
Qed.

Lemma insert_by_NoDup {A} (k : A -> Z) (g : A -> path) x l :
  NoDup (map g (x :: l)) -> NoDup (map g (insert_by k x l)).
Proof.
  induction l as [|z l IH]; simpl; [done|].
  destruct (k x <? k z); [done|]. simpl.
  intros [Hx [Hz Hl]%NoDup_cons]%NoDup_cons. apply NoDup_cons. split.
  - intros Hin%list_elem_of_In%in_map_iff. destruct Hin as (y & Hy & [->|Hin]%insert_by_In).
    + apply Hx. rewrite <- Hy. by left.
    + apply Hz. apply list_elem_of_In, in_map_iff. eauto.
  - apply IH. simpl. apply NoDup_cons. split; [|done].
    intros Hin. apply Hx. by right.
Qed.

Lemma fold_insert_by {A} (k : A -> Z) (g : A -> path) l : forall acc,
  ascending k acc -> NoDup (map g (l ++ acc)) ->
  ascending k (fold_left (fun acc x => insert_by k x acc) l acc)
  /\ NoDup (map g (fold_left (fun acc x => insert_by k x acc) l acc))
  /\ (forall y, In y (fold_left (fun acc x => insert_by k x acc) l acc) <-> In y l \/ In y acc).
Proof.
  induction l as [|x l IH]; intros acc Hasc Hnd; simpl.
  - split; [done|]. split; [done|]. intros y. tauto.
  - destruct (IH (insert_by k x acc)) as (H1 & H2 & H3).
    + by apply insert_by_ascending.
    + simpl in Hnd. rewrite map_app in *. apply NoDup_cons in Hnd as [Hx Hnd].
      apply NoDup_app in Hnd as (Hl & Hdisj & Hacc). apply NoDup_app.
      split; [done|]. split.
      * intros z Hz Hin%list_elem_of_In%in_map_iff.
        destruct Hin as (y & <- & [->|Hy]%insert_by_In).
        -- apply Hx. apply elem_of_app. by left.
        -- apply (Hdisj _ Hz). apply list_elem_of_In, in_map_iff. eauto.
      * apply insert_by_NoDup. simpl. apply NoDup_cons. split; [|done].
        intros Hin. apply Hx. apply elem_of_app. by right.
    + split; [done|]. split; [done|]. intros y. rewrite H3, insert_by_In. clear. intuition (subst; auto).
Qed.

Lemma sorted_by_spec {A} (k : A -> Z) (g : A -> path) l :
  NoDup (map g l) ->
  ascending k (sorted_by k l) /\ NoDup (map g (sorted_by k l))
  /\ (forall y, In y (sorted_by k l) <-> In y l).
Proof.
  intros Hnd. destruct (fold_insert_by k g l []) as (H1 & H2 & H3).
  - done.
  - by rewrite app_nil_r.
  - split; [done|]. split; [done|]. intros y. rewrite (H3 y). simpl. tauto.
Qed.

Lemma filter_NoDup_fst {A B} (P : A * B -> bool) (l : list (A * B)) :
  NoDup (map fst l) -> NoDup (map fst (List.filter P l)).
Proof.
  induction l as [|x l IH]; simpl; [done|].
  intros [Hx Hl]%NoDup_cons. destruct (P x); simpl; [|auto].
  apply NoDup_cons. split; [|auto].
  intros Hin%list_elem_of_In%in_map_iff. destruct Hin as (y & Hy & [Hin _]%filter_In).
  apply Hx. apply list_elem_of_In, in_map_iff. eauto.
Qed.

Lemma glob_backups_In f b p e :
  In (p, e) (glob_backups f b)
  <-> f !! p = Some e /\ p = b ++ [basename p] /\ is_backup_name (basename p) = true.
Proof.
  unfold glob_backups. rewrite filter_In, <- list_elem_of_In, elem_of_map_to_list.
  cbn [fst]. rewrite andb_true_iff, bool_decide_eq_true. tauto.
Qed.

Lemma glob_backups_NoDup f b : NoDup (map fst (glob_backups f b)).
Proof. apply filter_NoDup_fst. apply NoDup_fst_map_to_list. Qed.

Lemma ascending_lookup {A} (k : A -> Z) l : forall i j x y,
  ascending k l -> (i <= j)%nat -> l !! i = Some x -> l !! j = Some y -> k x <= k y.
Proof.
  induction l as [|z l IH]; intros i j x y; [done|]. simpl. intros [Hz Hl] Hij.
  destruct i as [|i], j as [|j]; simpl; try lia.
  - intros; simplify_eq. lia.
  - intros ? Hy; simplify_eq. apply Hz. apply list_elem_of_In. by eapply list_elem_of_lookup_2.
  - apply IH; [done|lia].
Qed.

Lemma ascending_last {A} (k : A -> Z) l x :
  ascending k l -> last l = Some x -> forall y, In y l -> k y <= k x.
Proof.
  induction l as [|z l IH]; [done|]. simpl. intros [Hz Hl] Hlast y Hy.
  destruct l as [|z' l].
  - simpl in *. simplify_eq. destruct Hy as [->|[]]. lia.
  - change (last (z :: z' :: l)) with (last (z' :: l)) in Hlast.
    destruct Hy as [->|Hy]; [|by apply IH].
    apply Hz. apply list_elem_of_In. apply last_Some_elem_of in Hlast. done.
Qed.

(** What [list_backups] returns, when it returns: the world after making
    the snapshot directory, and the paths of the sorted matches. *)
Lemma list_backups_inv root w bs w' :
  list_backups root w = (Ok bs, w') ->
  bs = map fst (sorted_by (fun pe => st_mtime (snd pe))
                  (glob_backups (w_fs w') (root ++ [".rockbox_backups"]))).
Proof.
  unfold list_backups, backups_dir, bind, ret.
  destruct (mkdir _ w) as [[[]|e] w1]; [|done]. intros H. by simplify_eq.
Qed.

(** X11. The snapshots come back oldest first. The list holds, once each,
    the entries right under the snapshot directory whose name matches
    [rockbox-backup-*.tar.gz], and no entry of it was modified after one
    that follows it. *)
Theorem list_backups_sorted root w bs w' :
  list_backups root w = (Ok bs, w') ->
  NoDup bs
  /\ (forall p, In p bs
        <-> is_Some (w_fs w' !! p)
            /\ p = (root ++ [".rockbox_backups"]) ++ [basename p]
            /\ is_backup_name (basename p) = true)
  /\ (forall i j p q e1 e2,
        (i <= j)%nat -> bs !! i = Some p -> bs !! j = Some q ->
        w_fs w' !! p = Some e1 -> w_fs w' !! q = Some e2 ->
        st_mtime e1 <= st_mtime e2).
Proof.
  intros ->%list_backups_inv. set (b := root ++ [".rockbox_backups"]).
  destruct (sorted_by_spec (fun pe => st_mtime (snd pe)) fst (glob_backups (w_fs w') b)
              (glob_backups_NoDup _ _)) as (Hasc & Hnd & Hin).
  split; [done|]. split.
  - intros p. rewrite in_map_iff. split.
    + intros ([p' e] & <- & (He & Hp & Hn)%Hin%glob_backups_In). cbn [fst].
      split; [by exists e|done].
    + intros ([e He] & Hp & Hn). exists (p, e). split; [done|].
      apply Hin, glob_backups_In. done.
  - intros i j p q e1 e2 Hij Hi Hj H1 H2.
    rewrite list_lookup_fmap in Hi, Hj.
    destruct (sorted_by _ _ !! i) as [[p' e1']|] eqn:Hi'; [|done].
    destruct (sorted_by _ _ !! j) as [[q' e2']|] eqn:Hj'; [|done].
    simpl in Hi, Hj. simplify_eq.
    pose proof (ascending_lookup _ _ i j _ _ Hasc Hij Hi' Hj') as Hle. simpl in Hle.
    apply list_elem_of_lookup_2, list_elem_of_In, Hin, glob_backups_In in Hi' as [Hi' _].
    apply list_elem_of_lookup_2, list_elem_of_In, Hin, glob_backups_In in Hj' as [Hj' _].
    by simplify_eq.
Qed.

(** X12. The snapshot a revert to the latest one restores is the last of the
    list: no entry right under the snapshot directory with the name of a
    snapshot was modified after it. *)
Theorem latest_backup_is_newest root w p w' :
  (bs <- list_backups root ;; index_last bs) w = (Ok p, w') ->
  exists e,
    w_fs w' !! p = Some e
    /\ parent p = root ++ [".rockbox_backups"]
    /\ forall q eq,
         w_fs w' !! q = Some eq ->
         q = (root ++ [".rockbox_backups"]) ++ [basename q] ->
         is_backup_name (basename q) = true ->
         st_mtime eq <= st_mtime e.
Proof.
  intros (bs & w1 & Hl & Hlast)%bind_inv_ok. unfold index_last in Hlast.
  destruct (last bs) as [p'|] eqn:Hp; [|done]. unfold ret in Hlast. simplify_eq.
  apply list_backups_inv in Hl as ->. set (b := root ++ [".rockbox_backups"]) in *.
  destruct (sorted_by_spec (fun pe => st_mtime (snd pe)) fst (glob_backups (w_fs w') b)
              (glob_backups_NoDup _ _)) as (Hasc & Hnd & Hin).
  rewrite fmap_last in Hp.
  destruct (last (sorted_by _ _)) as [[p' e]|] eqn:Hlast; [|done]. simpl in Hp. simplify_eq.
  pose proof (last_Some_elem_of _ _ Hlast) as He.
  apply list_elem_of_In, Hin, glob_backups_In in He as (He & Hp & Hn).
  exists e. split; [done|]. split; [rewrite Hp; apply parent_snoc|].
  intros q eq Hq Hqb Hqn.
  apply (ascending_last _ _ _ Hasc Hlast (q, eq)).
  apply Hin, glob_backups_In. done.
Qed.

Lemma list_backups_sorted_example :
  NoDup [ ["mnt"; ".rockbox_backups"; "rockbox-backup-20250102-000000.tar.gz"];
          ["mnt"; ".rockbox_backups"; "rockbox-backup-20250101-000000.tar.gz"] ]
  /\ (forall p,
        In p [ ["mnt"; ".rockbox_backups"; "rockbox-backup-20250102-000000.tar.gz"];
               ["mnt"; ".rockbox_backups"; "rockbox-backup-20250101-000000.tar.gz"] ]
        <-> is_Some (w_fs (world_of vol_snaps) !! p)
            /\ p = (["mnt"] ++ [".rockbox_backups"]) ++ [basename p]
            /\ is_backup_name (basename p) = true)
  /\ (forall i j p q e1 e2,
        (i <= j)%nat ->
        [ ["mnt"; ".rockbox_backups"; "rockbox-backup-20250102-000000.tar.gz"];
          ["mnt"; ".rockbox_backups"; "rockbox-backup-20250101-000000.tar.gz"] ] !! i = Some p ->
        [ ["mnt"; ".rockbox_backups"; "rockbox-backup-20250102-000000.tar.gz"];
          ["mnt"; ".rockbox_backups"; "rockbox-backup-20250101-000000.tar.gz"] ] !! j = Some q ->
        w_fs (world_of vol_snaps) !! p = Some e1 ->
        w_fs (world_of vol_snaps) !! q = Some e2 ->
        st_mtime e1 <= st_mtime e2).
Proof.
  apply (list_backups_sorted ["mnt"] (world_of vol_snaps)).
  vm_compute. reflexivity.
Defined.

Lemma latest_backup_is_newest_example :
  exists e,
    w_fs (world_of vol_snaps)
      !! ["mnt"; ".rockbox_backups"; "rockbox-backup-20250101-000000.tar.gz"] = Some e
    /\ parent ["mnt"; ".rockbox_backups"; "rockbox-backup-20250101-000000.tar.gz"]
       = ["mnt"] ++ [".rockbox_backups"]
    /\ forall q eq,
         w_fs (world_of vol_snaps) !! q = Some eq ->
         q = (["mnt"] ++ [".rockbox_backups"]) ++ [basename q] ->
         is_backup_name (basename q) = true ->
         st_mtime eq <= st_mtime e.
Proof.
  apply (latest_backup_is_newest ["mnt"] (world_of vol_snaps)).
  vm_compute. reflexivity.
Defined.

(** ** A snapshot that was taken is listed *)

Lemma substring_all s : substring 0 (String.length s) s = s.
Proof. induction s as [|c s IH]; simpl; [done|]. by rewrite IH. Qed.

Lemma substring_append a b :
  substring (String.length a) (String.length b) (a +:+ b) = b.
Proof.
  induction a as [|c a IH]; [apply substring_all|].
  rewrite append_cons. simpl. exact IH.
Qed.

Lemma ends_with_append a suf : ends_with suf (a +:+ suf) = true.
Proof.
  unfold ends_with. rewrite length_append.
  replace (String.length a + String.length suf - String.length suf)%nat
    with (String.length a) by lia.
  rewrite substring_append, String.eqb_refl.
  apply andb_true_iff. split; [|done]. apply Nat.leb_le. lia.
Qed.

(** Whatever the clock says, the name a snapshot is written under is one
    [list_backups] looks for. *)
Lemma snapshot_name_matches ts :
  is_backup_name ("rockbox-backup-" +:+ ts +:+ ".tar.gz") = true.
Proof.
  unfold is_backup_name. rewrite strip_prefix_app. apply ends_with_append.
Qed.

Lemma mkdir_is_dir p w w1 :
  mkdir p w = (Ok tt, w1) -> is_dir (w_fs w1) p = true.
Proof.
  unfold mkdir, is_dir. intros H.
  destruct (w_fs w !! p) as [[]|] eqn:Hp; simplify_eq.
  - by rewrite Hp.
  - destruct (create_check _ _); simplify_eq. simpl. by rewrite lookup_insert_eq.
Qed.

(** X13. A snapshot that was written is found again: right after
    [create_backup] has returned the path of its archive, [list_backups]
    on the same root returns a list that holds that path, and changes
    nothing. *)
Theorem snapshot_is_listed h dot verbose w out w1 :
  create_backup h dot false verbose w = (Ok (Some out), w1) ->
  exists bs, list_backups (parent dot) w1 = (Ok bs, w1) /\ In out bs.
Proof.
  unfold create_backup, exists_, backups_dir. unfold bind at 1.
  destruct (bool_decide _); cbn [negb]; [|done].
  unfold bind at 1. unfold bind at 1. unfold bind at 1.
  set (b := parent dot ++ [".rockbox_backups"]).
  destruct (mkdir b w) as [[[]|e] w0] eqn:Hmk; [|done].
  unfold ret at 1. unfold bind at 1.
  set (name := "rockbox-backup-" +:+ strftime h (w_now w) +:+ ".tar.gz").
  cbv beta.
  destruct (write_file (b ++ [name]) (tar_add h (w_fs w0) dot) (w_now w0) w0)
    as [[[]|e] w2] eqn:Hwr; [|done].
  unfold ret. intros H. simplify_eq.
  apply mkdir_is_dir in Hmk.
  pose proof (keeps_dirs_write_file (b ++ [name]) (tar_add h (w_fs w0) dot) (w_now w0)
                w0 b Hmk) as Hb. rewrite Hwr in Hb. simpl in Hb.
  assert (Hout : is_Some (w_fs w1 !! (b ++ [name]))).
  { apply write_file_ok_world in Hwr as ->. simpl. by rewrite lookup_insert_eq. }
  destruct Hout as [e He].
  apply is_dir_true in Hb as [m Hb].
  unfold list_backups, backups_dir, bind, mkdir. fold b. rewrite Hb. unfold ret.
  eexists. split; [reflexivity|].
  apply in_map_iff. exists (b ++ [name], e). split; [done|].
  apply (sorted_by_spec (fun pe => st_mtime (snd pe)) fst _ (glob_backups_NoDup _ _)).
  apply glob_backups_In. rewrite basename_snoc. split; [done|]. split; [done|].
  apply snapshot_name_matches.
Qed.

Lemma snapshot_is_listed_example :
  exists bs,
    list_backups (parent ["mnt"; ".rockbox"])
      (snd (create_backup host_build ["mnt"; ".rockbox"] false false (world_of vol_user)))
    = (Ok bs, snd (create_backup host_build ["mnt"; ".rockbox"] false false (world_of vol_user)))
    /\ In ["mnt"; ".rockbox_backups"; "rockbox-backup-20250822-120000.tar.gz"] bs.
Proof.
  apply (snapshot_is_listed host_build ["mnt"; ".rockbox"] false (world_of vol_user)).
  vm_compute. reflexivity.
Defined.

(** ** Every date found is the date of a build the page names *)

Lemma strip_prefix_sound lit : forall s r, strip_prefix lit s = Some r -> s = lit +:+ r.
Proof.
  induction lit as [|a lit IH]; intros s r; simpl.
  - intros H. by simplify_eq.
  - destruct s as [|b s]; [done|]. destruct (Ascii.eqb_spec a b) as [<-|]; [|done].
    intros ->%IH. done.
Qed.

(** What the pattern matches at the head of a string is the name of a
    build. *)
Lemma NIGHTLY_RE_match_sound h s m :
  NIGHTLY_RE_match h s = Some m ->
  exists rest,
    s = build_name (fst (groups m)) (snd (groups m)) +:+ rest
    /\ fst (groups m) <> ""
    /\ all_class is_lower_alnum (fst (groups m))
    /\ eight_digits h (snd (groups m)).
Proof.
  unfold NIGHTLY_RE_match.
  destruct (strip_prefix "rockbox-" s) as [s1|] eqn:H1; [|done].
  apply strip_prefix_sound in H1 as ->.
  destruct (span_sound is_lower_alnum s1) as (Hs1 & Hdev & _).
  destruct (String.eqb_spec (fst (span is_lower_alnum s1)) "") as [|Hne]; [done|].
  destruct (strip_prefix "-" _) as [s2|] eqn:H2; [|done].
  apply strip_prefix_sound in H2.
  destruct (take_decimal h 8 s2) as [[date s3]|] eqn:H3; [|done].
  apply take_decimal_sound in H3 as (-> & Hdig).
  destruct (strip_prefix ".zip" s3) as [s4|] eqn:H4; [|done].
  apply strip_prefix_sound in H4 as ->.
  intros H. simplify_eq. cbn [groups fst snd]. exists s4.
  split; [|done]. unfold build_name. rewrite !append_assoc.
  rewrite Hs1 at 1. by rewrite H2, ?append_assoc.
Qed.

Lemma HREF_RE_match_sound s m :
  HREF_RE_match s = Some m ->
  exists rest, s = ("href=" +:+ dquote_s) +:+ groups m +:+ dquote_s +:+ rest.
Proof.
  unfold HREF_RE_match.
  destruct (strip_prefix _ s) as [s1|] eqn:H1; [|done].
  apply strip_prefix_sound in H1 as ->.
  destruct (span_sound not_dquote s1) as (Hs1 & _ & _).
  destruct (String.eqb _ ""); [done|].
  destruct (strip_prefix dquote_s _) as [s2|] eqn:H2; [|done].
  apply strip_prefix_sound in H2.
  intros H. simplify_eq. cbn [groups]. exists s2.
  rewrite Hs1 at 1. by rewrite H2.
Qed.

(** Every match [finditer] reports is a match of the pattern somewhere in
    the string. *)
Lemma finditer_from_sound {G} (match_at : string -> option (re_match G)) g : forall s skip,
  In g (finditer_from match_at skip s) ->
  exists pre suf m, s = pre +:+ suf /\ match_at suf = Some m /\ groups m = g.
Proof.
  assert (Hcons : forall c s,
            (exists pre suf m, s = pre +:+ suf /\ match_at suf = Some m /\ groups m = g) ->
            exists pre suf m, String c s = pre +:+ suf /\ match_at suf = Some m
                              /\ groups m = g).
  { intros c s (pre & suf & m & -> & Hm & Hg). exists (String c pre), suf, m. done. }
  induction s as [|c s IH]; intros skip; [done|].
  rewrite finditer_from_cons. destruct skip as [|k].
  - destruct (match_at (String c s)) as [m|] eqn:Hm.
    + intros [Hg|Hin].
      * exists "", (String c s), m. done.
      * apply Hcons. by eapply IH.
    + intros Hin. apply Hcons. by eapply IH.
  - intros Hin. apply Hcons. by eapply IH.
Qed.


Lemma finditer_nightly_sound h text dev date :
  In (dev, date) (NIGHTLY_RE_finditer h text) ->
  names_build text dev date /\ dev <> "" /\ all_class is_lower_alnum dev
  /\ eight_digits h date.
Proof.
  intros (pre & suf & m & -> & Hm & Hg)%finditer_from_sound.
  apply NIGHTLY_RE_match_sound in Hm as (rest & -> & H1 & H2 & H3).
  rewrite Hg in *. cbn [fst snd] in *. split; [|done]. by exists pre, rest.
Qed.

(** The dates the second, link-by-link pass would find are dates of builds
    the page names. *)
Lemma href_pass_sound h text device date :
  In date (flat_map (fun href =>
             match NIGHTLY_RE_search h href with
             | Some mm => if String.eqb (fst mm) device then [snd mm] else []
             | None => []
             end) (findall_href text)) ->
  names_build text device date /\ device <> "" /\ all_class is_lower_alnum device
  /\ eight_digits h date.
Proof.
  intros (href & Hh & Hd)%in_flat_map.
  apply finditer_from_sound in Hh as (pre & suf & m & -> & Hm & <-).
  apply HREF_RE_match_sound in Hm as [rest ->].
  unfold NIGHTLY_RE_search in Hd.
  destruct (NIGHTLY_RE_finditer h (groups m)) as [|[dev d] l] eqn:Hf; [done|].
  simpl in Hd. destruct (String.eqb_spec dev device) as [->|]; [|done].
  destruct Hd as [<-|[]].
  assert (Hin : In (device, d) (NIGHTLY_RE_finditer h (groups m))) by (rewrite Hf; by left).
  apply finditer_nightly_sound in Hin as ((pre2 & suf2 & Hg) & H1 & H2 & H3).
  split; [|done]. rewrite Hg.
  exists (pre +:+ ("href=" +:+ dquote_s) +:+ pre2), (suf2 +:+ dquote_s +:+ rest).
  by rewrite !append_assoc.
Qed.

Lemma first_pass_sound h text device date :
  In date (map snd (List.filter (fun m => String.eqb (fst m) device)
                      (NIGHTLY_RE_finditer h text))) ->
  names_build text device date /\ device <> "" /\ all_class is_lower_alnum device
  /\ eight_digits h date.
Proof.
  intros ([dev d] & Hd & [Hin Hdev]%filter_In)%in_map_iff. simpl in *. subst d.
  apply String.eqb_eq in Hdev as ->. by apply finditer_nightly_sound.
Qed.

(** X14. The second pass of latest-nightly resolution, link by link, finds
    nothing the first pass has not found: the dates to choose from are the
    dates of the matches of the pattern in the page that name the device. *)
Theorem href_pass_adds_nothing h device text :
  nightly_dates h device text
  = map snd (List.filter (fun m => String.eqb (fst m) device) (NIGHTLY_RE_finditer h text)).
Proof.
  unfold nightly_dates. case_bool_decide as Hd; [|done].
  rewrite Hd. simpl.
  destruct (flat_map _ (findall_href text)) as [|d l] eqn:Hf; [done|].
  assert (Hin : In d (d :: l)) by by left.
  rewrite <- Hf in Hin. apply href_pass_sound in Hin as ((pre & suf & ->) & H1 & H2 & H3).
  pose proof (finditer_from_finds h device d suf H1 H2 H3 pre 0%nat ltac:(lia)) as Hfound.
  assert (In d (map snd (List.filter (fun m => String.eqb (fst m) device)
                           (NIGHTLY_RE_finditer h (pre +:+ build_name device d +:+ suf)))))
    as Hd'.
  { apply in_map_iff. exists (device, d). split; [done|].
    apply filter_In. split; [done|]. apply String.eqb_refl. }
  rewrite Hd in Hd'. done.
Qed.

Lemma nightly_dates_sound h device text date :
  In date (nightly_dates h device text) ->
  names_build text device date /\ device <> ""
  /\ all_class is_lower_alnum device /\ eight_digits h date.
Proof.
  unfold nightly_dates. case_bool_decide as Hd.
  - rewrite Hd. simpl. apply href_pass_sound.
  - apply first_pass_sound.
Qed.

(** X15. The dates latest-nightly resolution chooses from are exactly the
    dates of the builds of the device that the page names: strings of eight
    decimal digits, as the class [\d] has them (those of ASCII and those of
    other scripts), that stand in the page between [rockbox-<device>-] and
    [.zip], the device being a name of lower-case letters and digits of
    ASCII. *)
Theorem nightly_dates_exact h device text date :
  In date (nightly_dates h device text)
  <-> names_build text device date /\ device <> ""
      /\ all_class is_lower_alnum device /\ eight_digits h date.
Proof.
  split; [apply nightly_dates_sound|].
  intros ((pre & suf & ->) & H1 & H2 & H3). by apply nightly_dates_complete.
Qed.

(** X16. The newest build is a build of its date: the URL latest-nightly
    resolution returns is the one dated-nightly resolution gives for the
    date it returns, which is a string of eight decimal digits as the class
    [\d] has them, the one class both resolutions test the date with. *)
Theorem latest_nightly_is_dated h device w url latest w1 :
  latest_nightly_url_for_device h device w = (Ok (url, latest), w1) ->
  eight_digits h latest
  /\ nightly_url_for_date h device latest w1 = (Ok url, w1).
Proof.
  unfold latest_nightly_url_for_device.
  intros (text & w0 & Hget & Hrun)%bind_inv_ok.
  apply bind_inv_ok in Hrun as ([] & w2 & Hne & Hrun).
  apply bind_inv_ok in Hrun as (l & w3 & Hmax & Hrun).
  unfold ret in Hrun. simplify_eq.
  unfold py_max in Hmax. destruct (nightly_dates h device text) as [|x ds] eqn:Hd; [done|].
  unfold ret in Hmax. simplify_eq.
  assert (Hin : In (max_from x ds) (nightly_dates h device text)).
  { rewrite Hd. destruct (max_from_spec ds x) as ([->|Hin] & _); [by left|by right]. }
  apply nightly_dates_sound in Hin as (_ & _ & _ & H8).
  split; [done|]. unfold nightly_url_for_date.
  apply fullmatch_d8_spec in H8 as ->. done.
Qed.


Lemma latest_nightly_is_dated_example :
  eight_digits host_index "20250822"
  /\ nightly_url_for_date host_index "erosqnative" "20250822"
       (mkWorld ∅ 1000 [EvRequest (DAILY_INDEX_TMPL "erosqnative")])
     = (Ok "https://download.rockbox.org/daily/erosqnative/rockbox-erosqnative-20250822.zip",
        mkWorld ∅ 1000 [EvRequest (DAILY_INDEX_TMPL "erosqnative")]).
Proof.
  apply (latest_nightly_is_dated host_index "erosqnative" (world_of ∅)).
  vm_compute. reflexivity.
Defined.

(** ** Nothing but the test file is ever removed *)

Lemma same_kind_refl e : same_kind e e.
Proof. by destruct e. Qed.

Lemma spares_same {A} (m : M A) : (forall w, snd (m w) = w) -> spares m.
Proof.
  intros H w. rewrite H. split; [done|]. intros q e Hq _. exists e.
  split; [done|apply same_kind_refl].
Qed.

Lemma spares_fs {A} (m : M A) :
  (forall w, w_fs (snd (m w)) = w_fs w /\ w_now (snd (m w)) = w_now w) -> spares m.
Proof.
  intros H w. destruct (H w) as [Hfs Hnow]. rewrite Hfs. split; [done|].
  intros q e Hq _. exists e. split; [done|apply same_kind_refl].
Qed.

Lemma spares_ret {A} (a : A) : spares (ret a).
Proof. by apply spares_same. Qed.

Lemma spares_raise {A} e : spares (@raise A e).
Proof. by apply spares_same. Qed.

Lemma spares_lift {A} (r : result A) : spares (lift r).
Proof. by apply spares_same. Qed.

Lemma spares_bind {A B} (m : M A) (k : A -> M B) :
  spares m -> (forall a, spares (k a)) -> spares (bind m k).
Proof.
  intros Hm Hk w. destruct (Hm w) as [Hnow Hkeep]. unfold bind.
  destruct (m w) as [[a|e] w1]; [|done]. simpl in *.
  destruct (Hk a w1) as [Hnow' Hkeep']. split; [congruence|].
  intros q e Hq Hn. destruct (Hkeep q e Hq Hn) as (e1 & H1 & Hk1).
  rewrite <- Hnow in Hn. destruct (Hkeep' q e1 H1 Hn) as (e2 & H2 & Hk2).
  exists e2. split; [done|]. by eapply same_kind_trans.
Qed.

Lemma spares_if {A} (b : bool) (m1 m2 : M A) :
  spares m1 -> spares m2 -> spares (if b then m1 else m2).
Proof. by destruct b. Qed.

Lemma spares_mkdir p : spares (mkdir p).
Proof.
  intros w. unfold mkdir.
  destruct (w_fs w !! p) as [[]|] eqn:Hp; simpl.
  1,2: split; [done|]; intros q e Hq _; exists e; split; [done|apply same_kind_refl].
  destruct (create_check _ _); simpl.
  - split; [done|]. intros q e' Hq _. exists e'. split; [done|apply same_kind_refl].
  - split; [done|]. intros q e Hq _. exists e. split; [|apply same_kind_refl].
    rewrite lookup_insert_ne; [done|]. congruence.
Qed.

Lemma spares_write_file p data mtime : spares (write_file p data mtime).
Proof.
  intros w. unfold write_file.
  assert (Hsame : forall q e, w_fs w !! q = Some e ->
            basename q <> ".write_test_" +:+ pretty (w_now w) ->
            exists e', w_fs w !! q = Some e' /\ same_kind e e').
  { intros q e Hq _. exists e. split; [done|apply same_kind_refl]. }
  destruct (w_fs w !! p) as [[d m|m]|] eqn:Hp; simpl; [| done |].
  - split; [done|]. intros q e Hq _. destruct (decide (p = q)) as [->|Hne].
    + rewrite lookup_insert_eq. rewrite Hp in Hq. simplify_eq. by eexists.
    + rewrite lookup_insert_ne by done. exists e. split; [done|apply same_kind_refl].
  - destruct (create_check _ _); simpl; [done|].
    split; [done|]. intros q e Hq _. exists e. split; [|apply same_kind_refl].
    rewrite lookup_insert_ne; [done|]. congruence.
Qed.

Lemma spares_exists p : spares (exists_ p).
Proof. by apply spares_same. Qed.

Lemma spares_read_file p : spares (read_file p).
Proof. apply spares_same. intros w. unfold read_file. by repeat case_match. Qed.

Lemma spares_merge_copy scratch src_dir dst_dir : spares (merge_copy scratch src_dir dst_dir).
Proof.
  intros w. split.
  - destruct (merge_copy scratch src_dir dst_dir w) as [r w1] eqn:Hm.
    by apply merge_copy_trace in Hm as [? _].
  - intros q e Hq _. by apply merge_copy_never_deletes.
Qed.

Lemma spares_ensure_writable p : spares (ensure_writable p).
Proof.
  intros w. unfold ensure_writable.
  set (probe := p ++ [".write_test_" +:+ pretty (w_now w)]).
  destruct (spares_write_file probe "ok" (w_now w) w) as [Hnow Hkeep].
  assert (Hunlink : forall w1,
            w_now (snd (try_pass (unlink probe) w1)) = w_now w1
            /\ forall q e, w_fs w1 !! q = Some e ->
                 basename q <> ".write_test_" +:+ pretty (w_now w) ->
                 w_fs (snd (try_pass (unlink probe) w1)) !! q = Some e).
  { intros w1. unfold try_pass, unlink.
    destruct (w_fs w1 !! probe) as [[d m|m]|] eqn:Hp; simpl; [| done |].
    - split; [done|]. intros q e Hq Hn. rewrite lookup_delete_ne; [done|].
      intros <-. apply Hn. unfold probe. apply basename_snoc.
    - by destruct (w_fs w1 !! parent probe) as [[]|]. }
  destruct (write_file probe "ok" (w_now w) w) as [[[]|e] w1]; simpl in *.
  - destruct (Hunlink w1) as [Hn1 Hk1]. split.
    + destruct (try_pass (unlink probe) w1) as [r w2]. simpl in *. congruence.
    + intros q e Hq Hn. destruct (Hkeep q e Hq Hn) as (e1 & H1 & Hs).
      exists e1. split; [|done].
      destruct (try_pass (unlink probe) w1) as [r w2]. simpl in *. by apply Hk1.
  - destruct (Hunlink w1) as [Hn1 Hk1]. split; [congruence|].
    intros q e0 Hq Hn. destruct (Hkeep q e0 Hq Hn) as (e1 & H1 & Hs).
    exists e1. split; [|done]. by apply Hk1.
Qed.

Lemma spares_get_bytes h url : spares (get_bytes h url).
Proof.
  apply spares_fs. intros w. rewrite get_bytes_world. unfold session_get.
  destruct (urlopen_trace h (status_forcelist _retry) url (total _retry) w) as (k & _ & ->).
  done.
Qed.

Lemma spares_latest_nightly h device : spares (latest_nightly_url_for_device h device).
Proof.
  apply spares_fs. intros w. destruct (latest_nightly_world h device w) as [k ->]. done.
Qed.

Lemma spares_nightly_url_for_date h device d : spares (nightly_url_for_date h device d).
Proof.
  apply spares_same. intros w. unfold nightly_url_for_date, bind, die, raise, ret.
  by destruct (negb _).
Qed.

Lemma spares_mount h args : spares (mount h args).
Proof. by apply spares_same. Qed.

Lemma spares_index_last {A} (l : list A) : spares (index_last l).
Proof. apply spares_same. intros w. unfold index_last. by destruct (last l). Qed.

Create HintDb spares.
#[local] Hint Resolve spares_ret spares_raise spares_lift spares_if spares_mkdir
  spares_write_file spares_exists spares_read_file spares_merge_copy
  spares_ensure_writable spares_get_bytes spares_latest_nightly
  spares_nightly_url_for_date spares_mount spares_index_last : spares.

(** Splits a sequence of steps into its steps, each to be closed from the
    hint base. *)
Ltac spares_steps :=
  repeat first
    [ solve [unfold die; auto with spares]
    | apply spares_bind; [|intros ?] ].

Lemma spares_backups_dir root : spares (backups_dir root).
Proof. unfold backups_dir. spares_steps. Qed.

Lemma spares_list_backups root : spares (list_backups root).
Proof.
  unfold list_backups. apply spares_bind; [apply spares_backups_dir|].
  intros b. by apply spares_same.
Qed.

Lemma spares_create_backup h dot dry verbose : spares (create_backup h dot dry verbose).
Proof.
  unfold create_backup. apply spares_bind; [auto with spares|]. intros e.
  destruct (negb e); [auto with spares|].
  apply spares_bind; [by apply spares_same|]. intros ts.
  apply spares_bind; [apply spares_backups_dir|]. intros b.
  destruct dry; [auto with spares|].
  apply spares_bind; [|auto with spares].
  intros w. apply spares_write_file.
Qed.

Lemma spares_restore_backup h root backup_tar dry :
  spares (restore_backup h root backup_tar dry).
Proof. unfold restore_backup. destruct dry; spares_steps. Qed.

Lemma spares_unzip_and_deploy h z mp dry verbose :
  spares (unzip_and_deploy h z mp dry verbose).
Proof. unfold unzip_and_deploy. spares_steps. Qed.

Lemma spares_main h args : spares (main h args).
Proof.
  unfold main. destruct (arg_revert args) as [rv|].
  - apply spares_bind; [auto with spares|]. intros mp.
    apply spares_bind.
    { destruct (String.eqb rv "latest"); [|auto with spares].
      apply spares_bind; [apply spares_list_backups|]. auto with spares. }
    intros backup_tar. spares_steps. apply spares_restore_backup.
  - apply spares_bind; [unfold die; auto with spares|]. intros _.
    apply spares_bind; [auto with spares|]. intros mp.
    apply spares_bind.
    { repeat apply spares_if; auto with spares. spares_steps. }
    intros url.
    apply spares_bind; [auto with spares|]. intros _.
    apply spares_bind; [apply spares_create_backup|]. intros bp.
    destruct (arg_dry_run args); [auto with spares|].
    apply spares_bind; [auto with spares|]. intros z.
    apply spares_unzip_and_deploy.
Qed.

(** X17. No run of the script, install or revert, dry or not, finished or
    broken off, removes an entry of the volume or turns a file into a
    directory or a directory into a file; the one exception is an entry
    with the name of the test file of the write probe. A revert in
    particular removes nothing that was added since the snapshot. *)
Theorem main_never_deletes h args w q e :
  w_fs w !! q = Some e ->
  basename q <> ".write_test_" +:+ pretty (w_now w) ->
  exists e', w_fs (snd (main h args w)) !! q = Some e' /\ same_kind e e'.
Proof. intros Hq Hn. by apply spares_main. Qed.

Lemma main_never_deletes_example :
  exists e',
    w_fs (snd (main host_build (args_install (Some "20250822") false) (world_of vol_user)))
      !! ["mnt"; ".rockbox"; "config.cfg"] = Some e'
    /\ same_kind (EFile "volume: 7" 50) e'.
Proof.
  apply (main_never_deletes host_build (args_install (Some "20250822") false)
           (world_of vol_user) ["mnt"; ".rockbox"; "config.cfg"] (EFile "volume: 7" 50)).
  - reflexivity.
  - vm_compute. discriminate.
Defined.

(** ** The check of the archive *)

Lemma before_slash_sound s : forall x,
  before_slash s = Some x -> exists rest, s = x +:+ "/" +:+ rest.
Proof.
  induction s as [|c s IH]; intros x; simpl; [done|].
  destruct (Ascii.eqb_spec c "/") as [->|_].
  - intros H. simplify_eq. by exists s.
  - destruct (before_slash s) as [y|]; [|done]. simpl. intros H. simplify_eq.
    destruct (IH y eq_refl) as [rest ->]. by exists rest.
Qed.

(** The archive passes the check exactly when one of its members has a
    name that begins with [.rockbox/]. *)
Lemma archive_check_spec names :
  existsb (String.eqb ".rockbox") (omap before_slash names) = true
  <-> exists n rest, In n names /\ n = ".rockbox/" +:+ rest.
Proof.
  rewrite existsb_exists. split.
  - intros (x & Hx & Heq%String.eqb_eq). subst x.
    apply list_elem_of_In, list_elem_of_omap in Hx as (n & Hn & Hb).
    apply before_slash_sound in Hb as [rest ->].
    exists (".rockbox" +:+ "/" +:+ rest), rest. split; [by apply list_elem_of_In|done].
  - intros (n & rest & Hn & ->). exists ".rockbox". split; [|done].
    apply list_elem_of_In, list_elem_of_omap. exists (".rockbox/" +:+ rest).
    split; [by apply list_elem_of_In|done].
Qed.

(** X18. An archive that opens is deployed exactly when one of its members has
    a name that begins with [.rockbox/]; otherwise the run ends with the
    message that the archive lacks the managed subtree, nothing having been
    unpacked or written. *)
Theorem unzip_and_deploy_checks h zbytes mp dry verbose w zf :
  ZipFile h zbytes = Ok zf ->
  ((exists n rest, In n (namelist zf) /\ n = ".rockbox/" +:+ rest) ->
     unzip_and_deploy h zbytes mp dry verbose w
     = (td <- lift (zip_extractall zf) ;;
        if dry then ret tt else merge_copy td [".rockbox"] (mp ++ [".rockbox"])) w)
  /\ (~ (exists n rest, In n (namelist zf) /\ n = ".rockbox/" +:+ rest) ->
        unzip_and_deploy h zbytes mp dry verbose w
        = (Raise (SystemExit ArchiveLacksRockbox), w)).
Proof.
  intros Hzf.
  assert (Hrun : unzip_and_deploy h zbytes mp dry verbose w
                 = if existsb (String.eqb ".rockbox") (omap before_slash (namelist zf))
                   then (td <- lift (zip_extractall zf) ;;
                         if dry then ret tt
                         else merge_copy td [".rockbox"] (mp ++ [".rockbox"])) w
                   else (Raise (SystemExit ArchiveLacksRockbox), w)).
  { unfold unzip_and_deploy.
    rewrite (bind_ok _ _ w zf w) by (unfold lift; by rewrite Hzf).
    destruct (existsb _ _); cbn [negb].
    - by rewrite (bind_ok _ _ w tt w).
    - by rewrite (bind_raise _ _ w (SystemExit ArchiveLacksRockbox) w). }
  rewrite Hrun. destruct (existsb _ _) eqn:Hc.
  - split; [done|]. intros Hn. destruct Hn. by apply archive_check_spec.
  - split; [|done]. intros Hn%archive_check_spec. congruence.
Qed.

Lemma unzip_and_deploy_checks_example :
  ((exists n rest,
      In n [".rockbox/"; ".rockbox/rockbox.ucl"; ".rockbox/themes/";
            ".rockbox/themes/default.cfg"] /\ n = ".rockbox/" +:+ rest) ->
     unzip_and_deploy host_build "ZIP" ["mnt"] false false (world_of vol_bare)
     = (td <- lift (Ok build_tree) ;;
        if false then ret tt else merge_copy td [".rockbox"] (["mnt"] ++ [".rockbox"]))
         (world_of vol_bare))
  /\ (~ (exists n rest,
           In n [".rockbox/"; ".rockbox/rockbox.ucl"; ".rockbox/themes/";
                 ".rockbox/themes/default.cfg"] /\ n = ".rockbox/" +:+ rest) ->
        unzip_and_deploy host_build "ZIP" ["mnt"] false false (world_of vol_bare)
        = (Raise (SystemExit ArchiveLacksRockbox), world_of vol_bare)).
Proof.
  apply (unzip_and_deploy_checks host_build "ZIP" ["mnt"] false false (world_of vol_bare)
           (mkZip [".rockbox/"; ".rockbox/rockbox.ucl"; ".rockbox/themes/";
                   ".rockbox/themes/default.cfg"] (Ok build_tree))).
  reflexivity.
Defined.

(** ** What an install and a revert deliver *)

Lemma under_rockbox_not_backups (mp rel : path) :
  (mp ++ [".rockbox"]) ++ rel <> mp ++ [".rockbox_backups"]
  /\ parent ((mp ++ [".rockbox"]) ++ rel) <> mp ++ [".rockbox_backups"].
Proof.
  split.
  - rewrite <- app_assoc. intros H%app_inv_head. destruct rel; discriminate H.
  - destruct rel as [|n rel _] using rev_ind.
    + rewrite app_nil_r, parent_snoc. intros H. apply (f_equal length) in H.
      rewrite length_app in H. simpl in H. lia.
    + rewrite app_assoc, parent_snoc, <- app_assoc. intros H%app_inv_head.
      destruct rel; discriminate H.
Qed.

(** A snapshot touches the snapshot directory and what is right under it,
    nothing else. *)
Lemma create_backup_fs h dot dry verbose w bp w3 q :
  create_backup h dot dry verbose w = (Ok bp, w3) ->
  q <> parent dot ++ [".rockbox_backups"] ->
  parent q <> parent dot ++ [".rockbox_backups"] ->
  w_fs w3 !! q = w_fs w !! q.
Proof.
  unfold create_backup, exists_, backups_dir. unfold bind at 1.
  destruct (bool_decide _); cbn [negb]; [|by intros H; unfold ret in H; simplify_eq].
  unfold bind at 1. unfold bind at 1. unfold bind at 1.
  set (b := parent dot ++ [".rockbox_backups"]).
  destruct (mkdir b w) as [[[]|e] w0] eqn:Hmk; [|done].
  unfold ret at 1.
  assert (H0 : q <> b -> w_fs w0 !! q = w_fs w !! q).
  { intros Hq. apply mkdir_ok in Hmk as [_ [->| ->]]; [done|]. simpl.
    by rewrite lookup_insert_ne. }
  destruct dry.
  - unfold ret. intros H Hq _. simplify_eq. auto.
  - unfold bind at 1. cbv beta.
    set (out := b ++ ["rockbox-backup-" +:+ strftime h (w_now w) +:+ ".tar.gz"]).
    destruct (write_file out (tar_add h (w_fs w0) dot) (w_now w0) w0)
      as [[[]|e] w2] eqn:Hwr; [|done].
    unfold ret. intros H Hq Hpq. simplify_eq.
    apply write_file_ok_world in Hwr as ->. simpl.
    rewrite lookup_insert_ne; [auto|]. intros <-. apply Hpq. apply parent_snoc.
Qed.

Lemma get_bytes_body h url w z w' :
  get_bytes h url w = (Ok z, w') ->
  exists hist st ra, server h hist url = Response st ra z.
Proof.
  pose proof (urlopen_outcome h (status_forcelist _retry) url (total _retry) w) as H.
  unfold get_bytes, bind, session_get.
  destruct (urlopen _ _ _ _ w) as [[[st body]|e] w1]; [|done]. cbn [fst snd] in *.
  destruct H as (hist & ra & Hsrv & _). unfold raise_for_status.
  destruct (_ && _); [done|]. unfold ret. intros H. simplify_eq. eauto.
Qed.

(** What a merge that succeeds has done, in one: the files of the source
    are in place, its directories are directories, and the rest of the
    volume is as it was. *)
Lemma merge_delivers td S dst w w' :
  tree_lookup td [".rockbox"] = Some S -> wf_node S -> is_dir_node S = true ->
  unblocked S dst (w_fs w) ->
  merge_copy td [".rockbox"] dst w = (Ok tt, w') ->
  (forall rel data mtime,
     at_path S rel (File data mtime) -> w_fs w' !! (dst ++ rel) = Some (EFile data mtime))
  /\ (forall rel es, at_path S rel (Dir es) -> is_dir (w_fs w') (dst ++ rel) = true)
  /\ (forall q, (forall rel c, at_path S rel c -> q <> dst ++ rel) ->
                w_fs w' !! q = w_fs w !! q).
Proof.
  intros Hat Hwf Hdir Hun Hrun.
  destruct (installs_core td S [".rockbox"] dst Hat Hwf Hdir w w' Hun Hrun) as [Hf Hd].
  split; [done|]. split; [done|]. intros q Hq.
  pose proof (merge_copy_overlay td S [".rockbox"] dst Hat Hwf w q Hun Hq) as H.
  by rewrite Hrun in H.
Qed.

(** X19. An install that runs to its end has installed the archive the server
    answered with. The body of a response to the request for the artifact
    opened as an archive and was unpacked; where no directory of the volume
    was in the way of a file of its managed subtree, every file of that
    subtree is now on the volume under [.rockbox] of the mount point, with
    its bytes and modification time, every directory of it is a directory
    there, and the rest of the volume, the snapshot directory and the test
    file of the write probe apart, is as it was. *)
Theorem install_delivers h args w w' :
  arg_revert args = None ->
  arg_dry_run args = false ->
  main h args w = (Ok tt, w') ->
  exists mp url zbytes zf td,
    mount h args w = (Ok mp, w)
    /\ (exists hist st ra, server h hist url = Response st ra zbytes)
    /\ ZipFile h zbytes = Ok zf
    /\ zip_extractall zf = Ok td
    /\ forall S,
         tree_lookup td [".rockbox"] = Some S -> wf_node S -> is_dir_node S = true ->
         unblocked S (mp ++ [".rockbox"]) (w_fs w) ->
         (forall rel data mtime,
            at_path S rel (File data mtime) ->
            w_fs w' !! ((mp ++ [".rockbox"]) ++ rel) = Some (EFile data mtime))
         /\ (forall rel es,
               at_path S rel (Dir es) ->
               is_dir (w_fs w') ((mp ++ [".rockbox"]) ++ rel) = true)
         /\ (forall q,
               (forall rel c, at_path S rel c -> q <> (mp ++ [".rockbox"]) ++ rel) ->
               q <> mp ++ [".write_test_" +:+ pretty (w_now w)] ->
               q <> mp ++ [".rockbox_backups"] ->
               parent q <> mp ++ [".rockbox_backups"] ->
               w_fs w' !! q = w_fs w !! q).
Proof.
  intros Hrev Hdry. unfold main. rewrite Hrev, Hdry.
  intros (u & w0 & Hdev & Hrun)%bind_inv_ok.
  assert (w0 = w) as ->.
  { unfold die, raise, ret in Hdev. destruct (negb _); by simplify_eq. }
  apply bind_inv_ok in Hrun as (mp & w0 & Hmount & Hrun).
  assert (w0 = w) as ->.
  { unfold mount in Hmount. by simplify_eq. }
  apply bind_inv_ok in Hrun as (url & w1 & Hurl & Hrun).
  apply resolve_url_ok in Hurl as [ki ->].
  apply bind_inv_ok in Hrun as ([] & w2 & Hprobe & Hrun).
  apply ensure_writable_ok in Hprobe. cbn [w_fs w_now w_trace] in Hprobe.
  set (probe := mp ++ [".write_test_" +:+ pretty (w_now w)]) in *.
  apply bind_inv_ok in Hrun as (bp & w3 & Hsnap & Hrun).
  unfold find_dot_rockbox in Hsnap.
  apply bind_inv_ok in Hrun as (zbytes & w4 & Hget & Hrun).
  pose proof (get_bytes_body _ _ _ _ _ Hget) as Hbody.
  apply get_bytes_ok in Hget as [k ->].
  apply unzip_and_deploy_ok in Hrun as (zf & td & Hzf & _ & Htd & Hmerge).
  exists mp, url, zbytes, zf, td.
  split; [done|]. split; [done|]. split; [done|]. split; [done|].
  intros S Hat Hwf Hdir Hun.
  assert (H3 : forall q, q <> mp ++ [".rockbox_backups"] ->
                 parent q <> mp ++ [".rockbox_backups"] ->
                 w_fs w3 !! q = w_fs w2 !! q).
  { intros q Hq Hpq. apply (create_backup_fs _ _ _ _ _ _ _ q Hsnap); by rewrite parent_snoc. }
  assert (H2 : forall q, q <> probe -> w_fs w2 !! q = w_fs w !! q).
  { intros q Hq. rewrite Hprobe. cbn [w_fs]. by rewrite lookup_delete_ne, lookup_insert_ne. }
  assert (Hun4 : unblocked S (mp ++ [".rockbox"]) (w_fs w3)).
  { intros rel data mtime Hrel. specialize (Hun rel data mtime Hrel).
    destruct (under_rockbox_not_backups mp rel) as [Hq Hpq].
    unfold is_dir in *. rewrite (H3 _ Hq Hpq).
    destruct (decide ((mp ++ [".rockbox"]) ++ rel = probe)) as [->|Hne].
    - rewrite Hprobe. cbn [w_fs]. by rewrite lookup_delete_eq.
    - by rewrite (H2 _ Hne). }
  pose proof (fun Hu => merge_delivers td S (mp ++ [".rockbox"]) _ w' Hat Hwf Hdir Hu Hmerge)
    as Hdel.
  destruct (Hdel Hun4) as (Hf & Hd & Hrest).
  split; [done|]. split; [done|].
  intros q Hq Hqp Hqb Hqpb. rewrite (Hrest q Hq). cbn [w_fs].
  by rewrite (H3 q Hqb Hqpb), (H2 q Hqp).
Qed.

Lemma install_delivers_example :
  exists mp url zbytes zf td,
    mount host_build (args_install (Some "20250822") false) (world_of vol_user)
    = (Ok mp, world_of vol_user)
    /\ (exists hist st ra, server host_build hist url = Response st ra zbytes)
    /\ ZipFile host_build zbytes = Ok zf
    /\ zip_extractall zf = Ok td
    /\ forall S,
         tree_lookup td [".rockbox"] = Some S -> wf_node S -> is_dir_node S = true ->
         unblocked S (mp ++ [".rockbox"]) (w_fs (world_of vol_user)) ->
         (forall rel data mtime,
            at_path S rel (File data mtime) ->
            w_fs (snd (main host_build (args_install (Some "20250822") false)
                         (world_of vol_user)))
              !! ((mp ++ [".rockbox"]) ++ rel) = Some (EFile data mtime))
         /\ (forall rel es,
               at_path S rel (Dir es) ->
               is_dir (w_fs (snd (main host_build (args_install (Some "20250822") false)
                                    (world_of vol_user))))
                      ((mp ++ [".rockbox"]) ++ rel) = true)
         /\ (forall q,
               (forall rel c, at_path S rel c -> q <> (mp ++ [".rockbox"]) ++ rel) ->
               q <> mp ++ [".write_test_" +:+ pretty (w_now (world_of vol_user))] ->
               q <> mp ++ [".rockbox_backups"] ->
               parent q <> mp ++ [".rockbox_backups"] ->
               w_fs (snd (main host_build (args_install (Some "20250822") false)
                            (world_of vol_user))) !! q
               = w_fs (world_of vol_user) !! q).
Proof.
  apply (install_delivers host_build (args_install (Some "20250822") false)
           (world_of vol_user)).
  - reflexivity.
  - reflexivity.
  - vm_compute. reflexivity.
Defined.

(** X20. A revert that runs to its end has put back what the snapshot holds.
    The snapshot was read and unpacked; where no directory of the volume was
    in the way of a file of its managed subtree, every file of that subtree
    is on the volume again with the bytes and the modification time it has
    in the snapshot, and the rest of the volume is as it was: what was added
    since the snapshot stays. *)
Theorem restore_backup_delivers h root backup_tar w w' :
  restore_backup h root backup_tar false w = (Ok tt, w') ->
  exists data mtime td,
    w_fs w !! backup_tar = Some (EFile data mtime)
    /\ tar_extractall h data = Ok td
    /\ forall S,
         tree_lookup td [".rockbox"] = Some S -> wf_node S -> is_dir_node S = true ->
         unblocked S (root ++ [".rockbox"]) (w_fs w) ->
         (forall rel d m,
            at_path S rel (File d m) ->
            w_fs w' !! ((root ++ [".rockbox"]) ++ rel) = Some (EFile d m))
         /\ (forall rel es,
               at_path S rel (Dir es) ->
               is_dir (w_fs w') ((root ++ [".rockbox"]) ++ rel) = true)
         /\ (forall q,
               (forall rel c, at_path S rel c -> q <> (root ++ [".rockbox"]) ++ rel) ->
               w_fs w' !! q = w_fs w !! q).
Proof.
  unfold restore_backup.
  intros (data & w0 & Hread & Hrun)%bind_inv_ok.
  apply bind_inv_ok in Hrun as (td & w1 & Hx & Hmerge).
  unfold lift in Hx. unfold read_file in Hread.
  destruct (w_fs w !! backup_tar) as [[d m|m]|] eqn:Htar; simplify_eq.
  exists data, m, td. split; [done|]. split; [done|].
  intros S Hat Hwf Hdir Hun. by apply (merge_delivers td S).
Qed.

Lemma restore_backup_delivers_example :
  exists data mtime td,
    w_fs (world_of vol_snapshot)
      !! ["mnt"; ".rockbox_backups"; "rockbox-backup-20250822-120000.tar.gz"]
    = Some (EFile data mtime)
    /\ tar_extractall host_snapshot data = Ok td
    /\ forall S,
         tree_lookup td [".rockbox"] = Some S -> wf_node S -> is_dir_node S = true ->
         unblocked S (["mnt"] ++ [".rockbox"]) (w_fs (world_of vol_snapshot)) ->
         (forall rel d m,
            at_path S rel (File d m) ->
            w_fs (snd (restore_backup host_snapshot ["mnt"]
                         ["mnt"; ".rockbox_backups"; "rockbox-backup-20250822-120000.tar.gz"]
                         false (world_of vol_snapshot)))
              !! ((["mnt"] ++ [".rockbox"]) ++ rel) = Some (EFile d m))
         /\ (forall rel es,
               at_path S rel (Dir es) ->
               is_dir (w_fs (snd (restore_backup host_snapshot ["mnt"]
                         ["mnt"; ".rockbox_backups"; "rockbox-backup-20250822-120000.tar.gz"]
                         false (world_of vol_snapshot))))
                      ((["mnt"] ++ [".rockbox"]) ++ rel) = true)
         /\ (forall q,
               (forall rel c, at_path S rel c -> q <> (["mnt"] ++ [".rockbox"]) ++ rel) ->
               w_fs (snd (restore_backup host_snapshot ["mnt"]
                         ["mnt"; ".rockbox_backups"; "rockbox-backup-20250822-120000.tar.gz"]
                         false (world_of vol_snapshot))) !! q
               = w_fs (world_of vol_snapshot) !! q).
Proof.
  apply (restore_backup_delivers host_snapshot ["mnt"]
           ["mnt"; ".rockbox_backups"; "rockbox-backup-20250822-120000.tar.gz"]
           (world_of vol_snapshot)).
  vm_compute. reflexivity.
Defined.

Lemma mirrors_fits S dst f : mirrors S dst f -> fits S dst f.
Proof.
  intros Hm. split.
  - intros rel data mtime Hat. specialize (Hm rel _ Hat). simpl in Hm.
    unfold is_dir. by rewrite Hm.
  - intros rel es Hat. specialize (Hm rel _ Hat). simpl in Hm.
    apply is_dir_true in Hm as [m Hm]. unfold is_file. by rewrite Hm.
Qed.

(** X21. A revert to a snapshot of the managed subtree as it stands changes
    nothing. When the tree the snapshot unpacks to lies on the volume, file
    by file with the same bytes and times, the revert succeeds and leaves
    every entry of the volume as it was. *)
Theorem restore_backup_of_unchanged_tree h root backup_tar w data mtime td S :
  w_fs w !! backup_tar = Some (EFile data mtime) ->
  tar_extractall h data = Ok td ->
  tree_lookup td [".rockbox"] = Some S -> wf_node S -> is_dir_node S = true ->
  mirrors S (root ++ [".rockbox"]) (w_fs w) ->
  exists w',
    restore_backup h root backup_tar false w = (Ok tt, w') /\ w_fs w' = w_fs w.
Proof.
  intros Htar Hx Hat Hwf Hdir Hm. set (dst := root ++ [".rockbox"]) in *.
  pose proof (mirrors_fits S dst _ Hm) as Hfit.
  assert (Hroot : is_dir (w_fs w) dst = true).
  { destruct S as [|es]; [done|]. specialize (Hm [] (Dir es) eq_refl).
    simpl in Hm. by rewrite app_nil_r in Hm. }
  destruct (succeeds_core td S [".rockbox"] dst Hat Hwf Hdir w Hfit (or_introl Hroot))
    as [w' Hrun].
  exists w'. split.
  { unfold restore_backup. fold dst.
    rewrite (bind_ok _ _ w data w) by (unfold read_file; by rewrite Htar).
    rewrite (bind_ok _ _ w td w) by (unfold lift; by rewrite Hx). done. }
  destruct (merge_delivers td S dst w w' Hat Hwf Hdir (proj1 Hfit) Hrun)
    as (Hf & Hd & Hrest).
  apply map_eq. intros q.
  assert (Hout : (forall rel c, at_path S rel c -> q <> dst ++ rel) ->
                 w_fs w' !! q = w_fs w !! q) by apply Hrest.
  destruct (decide (dst `prefix_of` q)) as [[rel ->]|Hno].
  2:{ apply Hout. intros rel c _ ->. apply Hno. by exists rel. }
  destruct (tree_lookup S rel) as [c|] eqn:Hc.
  2:{ apply Hout. intros rel' c Hc' ->%app_inv_head.
      by rewrite (tree_lookup_at_path _ _ _ Hwf Hc') in Hc. }
  apply tree_lookup_sound in Hc. pose proof (Hm rel c Hc) as Hq.
  destruct c as [d m|es].
  - by rewrite (Hf rel d m Hc).
  - apply is_dir_true in Hq as [m Hq].
    destruct (merge_copy_never_deletes td [".rockbox"] dst w _ _ Hq) as (e' & He' & Hk).
    rewrite Hrun in He'. simpl in He'. rewrite He', Hq.
    destruct e'; [done|]. simpl in Hk. by subst.
Qed.

Lemma vol_snapshot_mirrors :
  mirrors (Dir [("config.cfg", File "volume: 7" 50)]) (["mnt"] ++ [".rockbox"]) vol_snapshot.
Proof.
  intros rel c Hat. destruct rel as [|n rel].
  - simpl in Hat. subst c. reflexivity.
  - simpl in Hat. destruct Hat as (x & [Hx|[]] & Hat). simplify_eq.
    destruct rel as [|n' rel]; [|done]. simpl in Hat. subst c. reflexivity.
Qed.

Lemma restore_backup_of_unchanged_tree_example :
  exists w',
    restore_backup host_snapshot ["mnt"]
      ["mnt"; ".rockbox_backups"; "rockbox-backup-20250822-120000.tar.gz"] false
      (world_of vol_snapshot) = (Ok tt, w')
    /\ w_fs w' = w_fs (world_of vol_snapshot).
Proof.
  apply (restore_backup_of_unchanged_tree host_snapshot ["mnt"]
           ["mnt"; ".rockbox_backups"; "rockbox-backup-20250822-120000.tar.gz"]
           (world_of vol_snapshot) "TAR" 1000 snapshot_tree
           (Dir [("config.cfg", File "volume: 7" 50)])).
  - reflexivity.
  - reflexivity.
  - reflexivity.
  - simpl. repeat split; apply NoDup_singleton || constructor.
  - reflexivity.
  - exact vol_snapshot_mirrors.
Defined.

(** ** Listing devices and dailies *)

Lemma get_text_failure h url w e w' :
  get_text h url w = (Raise e, w') ->
  e = ConnectionError url \/ e = RetryError url \/ exists st, e = HTTPError st.
Proof.
  pose proof (urlopen_outcome h (status_forcelist _retry) url (total _retry) w) as H.
  unfold get_text, bind, session_get.
  destruct (urlopen _ _ _ _ w) as [[[st body]|e0] w1]; cbn [fst snd] in *.
  - destruct (st =? 403) eqn:H403.
    + destruct H as (hist & ra & _ & Hfl). apply Z.eqb_eq in H403 as ->. done.
    + unfold raise_for_status. destruct (_ && _); simpl; [|done].
      intros Heq. simplify_eq. right. right. eauto.
  - intros Heq. simplify_eq. destruct H as [->| ->]; auto.
Qed.

(** The handler for [SystemExit] around a fetch has nothing to catch: a
    fetch that fails fails with another exception, and that one passes
    through. *)
Lemma except_get_text {A} h url (k : string -> M (option A)) w e w' :
  get_text h url w = (Raise e, w') ->
  except_SystemExit_pass (text <- get_text h url ;; k text) w = (Raise e, w').
Proof.
  intros Hget. unfold except_SystemExit_pass. rewrite (bind_raise _ _ _ _ _ Hget).
  apply get_text_failure in Hget as [->|[->|[st ->]]]; done.
Qed.

Lemma string_compare_lt_ltb x y : String.compare x y = Lt <-> String.ltb x y = true.
Proof. unfold String.ltb. destruct (String.compare x y); intuition congruence. Qed.

Lemma string_compare_gt_ltb x y : String.compare x y = Gt <-> String.ltb y x = true.
Proof.
  unfold String.ltb. rewrite (String.compare_antisym y x).
  destruct (String.compare x y); simpl; intuition congruence.
Qed.

Lemma string_ltb_trans x y z :
  String.ltb x y = true -> String.ltb y z = true -> String.ltb x z = true.
Proof.
  rewrite <- !string_compare_lt_ltb. apply string_compare_trans.
Qed.

Lemma insert_str_In x y l : In y (insert_str x l) <-> y = x \/ In y l.
Proof.
  induction l as [|z l IH]; simpl.
  - clear. intuition (subst; auto).
  - destruct (String.compare x z) eqn:Hc; simpl.
    + apply String.compare_eq_iff in Hc as ->. clear. intuition (subst; auto).
    + clear. intuition (subst; auto).
    + rewrite IH. clear. intuition (subst; auto).
Qed.

Lemma insert_str_ascending x l :
  strictly_ascending l -> strictly_ascending (insert_str x l).
Proof.
  induction l as [|z l IH]; simpl; [done|]. intros [Hz Hl].
  destruct (String.compare x z) eqn:Hc; simpl.
  - done.
  - apply string_compare_lt_ltb in Hc. split; [|done].
    intros y [<-|Hy]; [done|]. eapply string_ltb_trans; eauto.
  - apply string_compare_gt_ltb in Hc. split; [|auto].
    intros y [->|Hy]%insert_str_In; auto.
Qed.

Lemma sorted_set_fold l : forall acc,
  strictly_ascending acc ->
  strictly_ascending (fold_left (fun acc x => insert_str x acc) l acc)
  /\ (forall y, In y (fold_left (fun acc x => insert_str x acc) l acc) <-> In y l \/ In y acc).
Proof.
  induction l as [|x l IH]; intros acc Hacc; simpl.
  - split; [done|]. intros y. tauto.
  - destruct (IH (insert_str x acc) (insert_str_ascending x acc Hacc)) as [H1 H2].
    split; [done|]. intros y. rewrite H2, insert_str_In. clear. intuition (subst; auto).
Qed.

(** [sorted(set(l))]: strictly ascending, with the members of [l]. *)
Lemma sorted_set_spec l :
  strictly_ascending (sorted_set l) /\ (forall y, In y (sorted_set l) <-> In y l).
Proof.
  destruct (sorted_set_fold l [] I) as [H1 H2]. split; [done|].
  intros y. rewrite H2. simpl. tauto.
Qed.

Lemma strictly_ascending_app l1 l2 :
  strictly_ascending (l1 ++ l2)
  <-> strictly_ascending l1 /\ strictly_ascending l2
      /\ (forall x y, In x l1 -> In y l2 -> String.ltb x y = true).
Proof.
  induction l1 as [|a l1 IH]; simpl.
  - clear. intuition auto.
  - rewrite IH. split.
    + intros (Ha & H1 & H2 & H3). repeat split; auto.
      * intros y Hy. apply Ha, in_app_iff. auto.
      * intros x y [<-|Hx] Hy; [apply Ha, in_app_iff|]; auto.
    + intros ((Ha & H1) & H2 & H3). repeat split; auto.
      intros y [Hy|Hy]%in_app_iff; auto.
Qed.

Lemma strictly_descending_rev l : strictly_ascending l -> strictly_descending (rev l).
Proof.
  induction l as [|a l IH]; simpl; [done|]. intros [Ha Hl].
  specialize (IH Hl). revert IH. generalize (rev l) (in_rev l). intros r Hr.
  assert (Hall : forall y, In y r -> String.ltb a y = true).
  { intros y Hy. apply Ha, Hr, Hy. }
  clear Hr Ha Hl. induction r as [|b r IHr]; simpl.
  - intros _. split; [intros y []|done].
  - intros [Hb Hd]. split.
    + intros y [Hy|[<-|[]]]%in_app_iff; [auto|]. apply Hall. by left.
    + apply IHr; [|done]. intros y Hy. apply Hall. by right.
Qed.

Lemma sorted_set_reverse_spec l :
  strictly_descending (sorted_set_reverse l)
  /\ (forall y, In y (sorted_set_reverse l) <-> In y l).
Proof.
  destruct (sorted_set_spec l) as [H1 H2]. split.
  - by apply strictly_descending_rev.
  - intros y. unfold sorted_set_reverse. rewrite <- in_rev. apply H2.
Qed.

(** What the patterns of the device lists match are names of lower-case
    letters and digits. *)
Lemma DEVICE_DIR_RE_match_sound s m :
  DEVICE_DIR_RE_match s = Some m ->
  groups m <> "" /\ all_class is_lower_alnum (groups m)
  /\ exists rest, s = ("href=" +:+ dquote_s) +:+ groups m +:+ ("/" +:+ dquote_s) +:+ rest.
Proof.
  unfold DEVICE_DIR_RE_match.
  destruct (strip_prefix _ s) as [s1|] eqn:H1; [|done].
  apply strip_prefix_sound in H1 as ->.
  destruct (span_sound is_lower_alnum s1) as (Hs1 & Hcls & _).
  destruct (String.eqb_spec (fst (span is_lower_alnum s1)) "") as [|Hne]; [done|].
  destruct (strip_prefix _ (snd _)) as [s2|] eqn:H2; [|done].
  apply strip_prefix_sound in H2.
  intros H. simplify_eq. cbn [groups]. split; [done|]. split; [done|].
  exists s2. rewrite Hs1 at 1. by rewrite H2.
Qed.

Lemma DAILY_HREF_RE_match_sound s m :
  DAILY_HREF_RE_match s = Some m ->
  groups m <> "" /\ all_class is_lower_alnum (groups m).
Proof.
  unfold DAILY_HREF_RE_match.
  destruct (strip_prefix _ s) as [s1|]; [|done].
  destruct (strip_prefix "daily/" _) as [s3|]; [|done].
  destruct (span_sound is_lower_alnum s3) as (_ & Hcls & _).
  destruct (String.eqb_spec (fst (span is_lower_alnum s3)) "") as [|Hne]; [done|].
  destruct (strip_prefix "/" (snd _)); [|done].
  intros H. by simplify_eq.
Qed.

Lemma DEVICE_ZIP_RE_match_sound h device s m :
  DEVICE_ZIP_RE_match h device s = Some m ->
  eight_digits h (groups m) /\ exists rest, s = build_name device (groups m) +:+ rest.
Proof.
  unfold DEVICE_ZIP_RE_match.
  destruct (strip_prefix _ s) as [s1|] eqn:H1; [|done].
  apply strip_prefix_sound in H1 as ->.
  destruct (take_decimal h 8 s1) as [[date s2]|] eqn:H2; [|done].
  apply take_decimal_sound in H2 as (-> & Hdig).
  destruct (strip_prefix ".zip" s2) as [s3|] eqn:H3; [|done].
  apply strip_prefix_sound in H3 as ->.
  intros H. simplify_eq. cbn [groups]. split; [done|].
  exists s3. unfold build_name. by rewrite !append_assoc.
Qed.

Lemma device_candidates_sound h page d :
  In d (device_candidates h page) -> d <> "" /\ all_class is_lower_alnum d.
Proof.
  unfold device_candidates. intros [Hd|Hd]%in_app_iff.
  - apply finditer_from_sound in Hd as (pre & suf & m & _ & Hm & <-).
    by apply DAILY_HREF_RE_match_sound in Hm.
  - unfold findall_zip_devices in Hd. apply in_map_iff in Hd as ([dev date] & <- & Hin).
    apply finditer_nightly_sound in Hin as (_ & H1 & H2 & _). done.
Qed.

Lemma device_dirs_sound text d :
  In d (device_dirs text) -> d <> "" /\ all_class is_lower_alnum d.
Proof.
  intros (pre & suf & m & _ & Hm & <-)%finditer_from_sound.
  apply DEVICE_DIR_RE_match_sound in Hm as (H1 & H2 & _). done.
Qed.

(** How [list_devices_from_daily] goes on after its first fetch. *)
Lemma list_devices_after_fetch h w :
  list_devices_from_daily h w
  = match get_text h BASE_DAILY w with
    | (Raise e, w1) => (Raise e, w1)
    | (Ok text, w1) =>
        if bool_decide (device_dirs text = [])
        then (page <- get_text h DAILY_SHTML ;; ret (sorted_set (device_candidates h page))) w1
        else (Ok (sorted_set (device_dirs text)), w1)
    end.
Proof.
  unfold list_devices_from_daily. unfold bind at 1.
  destruct (get_text h BASE_DAILY w) as [[text|e] w1] eqn:Hget.
  - unfold except_SystemExit_pass. rewrite (bind_ok _ _ _ _ _ Hget).
    by destruct (bool_decide _).
  - by rewrite (except_get_text h BASE_DAILY _ w e w1 Hget).
Qed.

(** X22. The list of devices has no fallback on failure. When the fetch of the
    index of the daily builds fails, [list_devices_from_daily] fails with
    the same exception and nothing more is requested: the handler for
    [SystemExit] around the fetch never catches anything, and the daily page
    is asked only when the index was fetched and links to no device. *)
Theorem list_devices_no_fallback_on_failure h w e w1 :
  get_text h BASE_DAILY w = (Raise e, w1) ->
  list_devices_from_daily h w = (Raise e, w1)
  /\ exists k, (1 <= k <= 4)%nat
       /\ w_trace w1 = w_trace w ++ repeat (EvRequest BASE_DAILY) k.
Proof.
  intros Hget. split.
  - by rewrite list_devices_after_fetch, Hget.
  - destruct (urlopen_trace h (status_forcelist _retry) BASE_DAILY 3 w) as (k & Hk & Hw).
    exists k. split; [done|].
    pose proof (get_text_world h BASE_DAILY w) as Hs. rewrite Hget in Hs. simpl in Hs.
    unfold session_get in Hs. change (total _retry) with 3%nat in Hs.
    by rewrite Hs, Hw.
Qed.

Lemma list_devices_no_fallback_on_failure_example :
  list_devices_from_daily host_primary_down (world_of ∅)
  = (Raise (HTTPError 404), mkWorld ∅ 1000 [EvRequest BASE_DAILY])
  /\ exists k, (1 <= k <= 4)%nat
       /\ w_trace (mkWorld ∅ 1000 [EvRequest BASE_DAILY])
          = w_trace (world_of ∅) ++ repeat (EvRequest BASE_DAILY) k.
Proof.
  apply (list_devices_no_fallback_on_failure host_primary_down (world_of ∅)).
  vm_compute. reflexivity.
Defined.

(** X23. The devices come back in strictly ascending order, so none twice, and
    each is a non-empty name of lower-case letters and digits. *)
Theorem list_devices_sorted h w devs w' :
  list_devices_from_daily h w = (Ok devs, w') ->
  strictly_ascending devs
  /\ forall d, In d devs -> d <> "" /\ all_class is_lower_alnum d.
Proof.
  rewrite list_devices_after_fetch.
  destruct (get_text h BASE_DAILY w) as [[text|e] w1]; [|done].
  case_bool_decide.
  - intros (page & w2 & _ & Hret)%bind_inv_ok. unfold ret in Hret. simplify_eq.
    destruct (sorted_set_spec (device_candidates h page)) as [H1 H2].
    split; [done|]. intros d Hd%H2. by eapply device_candidates_sound.
  - intros Heq. simplify_eq.
    destruct (sorted_set_spec (device_dirs text)) as [H1 H2].
    split; [done|]. intros d Hd%H2. by eapply device_dirs_sound.
Qed.

Lemma list_devices_sorted_example :
  strictly_ascending ["erosqnative"; "ipodvideo"]
  /\ forall d, In d ["erosqnative"; "ipodvideo"] -> d <> "" /\ all_class is_lower_alnum d.
Proof.
  apply (list_devices_sorted host_devices (world_of ∅) _
           (mkWorld ∅ 1000 [EvRequest BASE_DAILY])).
  vm_compute. reflexivity.
Defined.

(** How [list_dailies_for_device] goes on after its first fetch. *)
Lemma list_dailies_after_fetch h device w :
  list_dailies_for_device h device w
  = match get_text h (DAILY_INDEX_TMPL device) w with
    | (Raise e, w1) => (Raise e, w1)
    | (Ok text, w1) =>
        if bool_decide (sorted_set_reverse (daily_dates h device text) = [])
        then (page <- get_text h DAILY_SHTML ;;
              ret (sorted_set_reverse (finditer_from (DEVICE_ZIP_RE_match h device) 0 page))) w1
        else (Ok (sorted_set_reverse (daily_dates h device text)), w1)
    end.
Proof.
  unfold list_dailies_for_device. unfold bind at 1.
  destruct (get_text h (DAILY_INDEX_TMPL device) w) as [[text|e] w1] eqn:Hget.
  - unfold except_SystemExit_pass. rewrite (bind_ok _ _ _ _ _ Hget).
    by destruct (bool_decide _).
  - by rewrite (except_get_text h _ _ w e w1 Hget).
Qed.

(** X24. The list of dailies has no fallback on failure either. When the fetch
    of the index of the device fails, [list_dailies_for_device] fails with
    the same exception and nothing more is requested; the daily page is
    asked only when the index was fetched and names no build of the
    device. *)
Theorem list_dailies_no_fallback_on_failure h device w e w1 :
  get_text h (DAILY_INDEX_TMPL device) w = (Raise e, w1) ->
  list_dailies_for_device h device w = (Raise e, w1)
  /\ exists k, (1 <= k <= 4)%nat
       /\ w_trace w1 = w_trace w ++ repeat (EvRequest (DAILY_INDEX_TMPL device)) k.
Proof.
  intros Hget. split.
  - by rewrite list_dailies_after_fetch, Hget.
  - destruct (urlopen_trace h (status_forcelist _retry) (DAILY_INDEX_TMPL device) 3 w)
      as (k & Hk & Hw).
    exists k. split; [done|].
    pose proof (get_text_world h (DAILY_INDEX_TMPL device) w) as Hs.
    rewrite Hget in Hs. simpl in Hs.
    unfold session_get in Hs. change (total _retry) with 3%nat in Hs.
    by rewrite Hs, Hw.
Qed.

Lemma list_dailies_no_fallback_on_failure_example :
  list_dailies_for_device host_primary_down "erosqnative" (world_of ∅)
  = (Raise (HTTPError 404), mkWorld ∅ 1000 [EvRequest (DAILY_INDEX_TMPL "erosqnative")])
  /\ exists k, (1 <= k <= 4)%nat
       /\ w_trace (mkWorld ∅ 1000 [EvRequest (DAILY_INDEX_TMPL "erosqnative")])
          = w_trace (world_of ∅) ++ repeat (EvRequest (DAILY_INDEX_TMPL "erosqnative")) k.
Proof.
  apply (list_dailies_no_fallback_on_failure host_primary_down "erosqnative" (world_of ∅)).
  vm_compute. reflexivity.
Defined.

Lemma daily_dates_sound h device text d :
  In d (daily_dates h device text) ->
  names_build text device d /\ device <> "" /\ all_class is_lower_alnum device
  /\ eight_digits h d.
Proof.
  unfold daily_dates. intros [Hd|Hd]%in_app_iff.
  - by apply first_pass_sound.
  - by apply href_pass_sound.
Qed.

(** X25. The dailies come back newest first: in strictly descending order, so
    none twice, and each is a string of eight decimal digits as the class
    [\d] has them, those of ASCII and those of other scripts. *)
Theorem list_dailies_sorted h device w dates w' :
  list_dailies_for_device h device w = (Ok dates, w') ->
  strictly_descending dates /\ forall d, In d dates -> eight_digits h d.
Proof.
  rewrite list_dailies_after_fetch.
  destruct (get_text h (DAILY_INDEX_TMPL device) w) as [[text|e] w1]; [|done].
  case_bool_decide.
  - intros (page & w2 & _ & Hret)%bind_inv_ok. unfold ret in Hret. simplify_eq.
    destruct (sorted_set_reverse_spec (finditer_from (DEVICE_ZIP_RE_match h device) 0 page))
      as [H1 H2].
    split; [done|]. intros d Hd%H2.
    apply finditer_from_sound in Hd as (pre & suf & m & _ & Hm & <-).
    by apply DEVICE_ZIP_RE_match_sound in Hm as [? _].
  - intros Heq. simplify_eq.
    destruct (sorted_set_reverse_spec (daily_dates h device text)) as [H1 H2].
    split; [done|]. intros d Hd%H2. by apply daily_dates_sound in Hd as (_ & _ & _ & ?).
Qed.

Lemma list_dailies_sorted_example :
  strictly_descending ["20250822"; "20250815"; "20250101"]
  /\ forall d, In d ["20250822"; "20250815"; "20250101"] -> eight_digits host_index d.
Proof.
  apply (list_dailies_sorted host_index "erosqnative" (world_of ∅) _
           (mkWorld ∅ 1000 [EvRequest (DAILY_INDEX_TMPL "erosqnative")])).
  vm_compute. reflexivity.
Defined.

Lemma daily_dates_members h device text d :
  In d (daily_dates h device text) <-> In d (nightly_dates h device text).
Proof.
  split.
  - intros ((pre & suf & ->) & H1 & H2 & H3)%daily_dates_sound.
    by apply nightly_dates_complete.
  - intros ((pre & suf & ->) & H1 & H2 & H3)%nightly_dates_sound.
    unfold daily_dates. apply in_app_iff. left.
    apply in_map_iff. exists (device, d). split; [done|].
    apply filter_In. split; [|apply String.eqb_refl].
    unfold NIGHTLY_RE_finditer. apply finditer_from_finds; [done..|lia].
Qed.

Lemma string_ltb_not_leb x y : String.ltb x y = true -> String.leb y x = true -> False.
Proof.
  unfold String.ltb, String.leb. rewrite (String.compare_antisym y x).
  by destruct (String.compare x y).
Qed.

(** X26. The first of the dailies is the build latest-nightly resolution
    installs: run from the same world, on an index that is fetched,
    [list_dailies_for_device] returns a list that begins with the date
    [latest_nightly_url_for_device] returns. *)
Theorem first_daily_is_latest h device w url latest w1 :
  latest_nightly_url_for_device h device w = (Ok (url, latest), w1) ->
  exists rest, list_dailies_for_device h device w = (Ok (latest :: rest), w1).
Proof.
  unfold latest_nightly_url_for_device.
  intros (text & w0 & Hget & Hrun)%bind_inv_ok.
  apply bind_inv_ok in Hrun as ([] & w2 & Hne & Hrun).
  apply bind_inv_ok in Hrun as (l & w3 & Hmax & Hrun).
  unfold ret in Hrun. simplify_eq.
  unfold py_max in Hmax. destruct (nightly_dates h device text) as [|x ds] eqn:Hd; [done|].
  unfold ret in Hmax. simplify_eq.
  rewrite bool_decide_eq_false_2 in Hne by done. unfold ret in Hne. simplify_eq.
  rewrite list_dailies_after_fetch, Hget.
  destruct (max_from_spec ds x) as (Hin & Hx & Hmax).
  assert (Hmem : In (max_from x ds) (nightly_dates h device text)).
  { rewrite Hd. destruct Hin as [->|Hin]; [by left|by right]. }
  assert (Hle : forall d, In d (nightly_dates h device text) ->
                  String.leb d (max_from x ds) = true).
  { rewrite Hd. intros d [<-|Hdl]; auto. }
  destruct (sorted_set_reverse_spec (daily_dates h device text)) as [Hdesc Hsame].
  assert (Hout : forall d, In d (nightly_dates h device text)
                   <-> In d (sorted_set_reverse (daily_dates h device text))).
  { intros d. by rewrite Hsame, daily_dates_members. }
  destruct (sorted_set_reverse (daily_dates h device text)) as [|m rest].
  { by apply Hout in Hmem. }
  rewrite bool_decide_eq_false_2 by done. exists rest.
  assert (m = max_from x ds) as ->; [|done].
  apply Hout in Hmem as [Hm|Hm]; [done|].
  destruct Hdesc as [Hlt _]. specialize (Hlt _ Hm). exfalso.
  apply (string_ltb_not_leb _ _ Hlt). apply Hle, Hout. by left.
Qed.

Lemma first_daily_is_latest_example :
  exists rest,
    list_dailies_for_device host_index "erosqnative" (world_of ∅)
    = (Ok ("20250822" :: rest),
       mkWorld ∅ 1000 [EvRequest (DAILY_INDEX_TMPL "erosqnative")]).
Proof.
  apply (first_daily_is_latest host_index "erosqnative" (world_of ∅)
           "https://download.rockbox.org/daily/erosqnative/rockbox-erosqnative-20250822.zip").
  vm_compute. reflexivity.
Defined.

(** ** Listing releases *)

Lemma tuple_ltb_irrefl a : tuple_ltb a a = false.
Proof.
  induction a as [|x a IH]; simpl; [done|]. by rewrite N.ltb_irrefl.
Qed.

Lemma tuple_ltb_trans a : forall b c,
  tuple_ltb a b = true -> tuple_ltb b c = true -> tuple_ltb a c = true.
Proof.
  induction a as [|x a IH]; intros [|y b] [|z c]; simpl; try done.
  destruct (N.ltb_spec x y), (N.ltb_spec y x), (N.ltb_spec y z), (N.ltb_spec z y),
    (N.ltb_spec x z), (N.ltb_spec z x); try done; try lia.
  apply IH.
Qed.

Lemma tuple_ltb_asym a b : tuple_ltb a b = true -> tuple_ltb b a = false.
Proof.
  intros Hab. destruct (tuple_ltb b a) eqn:Hba; [|done].
  pose proof (tuple_ltb_trans _ _ _ Hab Hba) as H. by rewrite tuple_ltb_irrefl in H.
Qed.

(** Where neither of two keys is the lesser, a third is less than both or
    than none. *)
Lemma tuple_ltb_equiv a : forall b c,
  tuple_ltb a b = false -> tuple_ltb b a = false ->
  tuple_ltb a c = tuple_ltb b c /\ tuple_ltb c a = tuple_ltb c b.
Proof.
  induction a as [|x a IH]; intros [|y b] c; simpl; try done.
  destruct (N.ltb_spec x y); [done|]. destruct (N.ltb_spec y x); [done|].
  assert (x = y) as -> by lia. intros Hab Hba.
  destruct c as [|z c]; simpl; [done|].
  destruct (IH b c Hab Hba) as [-> ->]. done.
Qed.

Lemma tuple_nlt_trans a b c :
  tuple_ltb a b = false -> tuple_ltb b c = false -> tuple_ltb a c = false.
Proof.
  intros Hab Hbc. destruct (tuple_ltb a c) eqn:Hac; [|done].
  destruct (tuple_ltb b a) eqn:Hba.
  - by rewrite (tuple_ltb_trans _ _ _ Hba Hac) in Hbc.
  - destruct (tuple_ltb_equiv a b c Hab Hba) as [Heq _]. congruence.
Qed.

Lemma insert_desc_In {A} (x y : list N * A) l : In y (insert_desc x l) <-> y = x \/ In y l.
Proof.
  induction l as [|z l IH]; simpl.
  - clear. intuition (subst; auto).
  - destruct (tuple_ltb (fst z) (fst x)); simpl; [clear; intuition (subst; auto)|].
    rewrite IH. clear. intuition (subst; auto).
Qed.

Lemma insert_desc_Permutation {A} (x : list N * A) l : Permutation (insert_desc x l) (x :: l).
Proof.
  induction l as [|z l IH]; simpl; [done|].
  destruct (tuple_ltb (fst z) (fst x)); [done|].
  rewrite IH. apply perm_swap.
Qed.

Lemma insert_desc_descending {A} (x : list N * A) l :
  descending_keys l -> descending_keys (insert_desc x l).
Proof.
  induction l as [|z l IH]; simpl; [done|]. intros [Hz Hl].
  destruct (tuple_ltb (fst z) (fst x)) eqn:Hlt; simpl.
  - split; [|done]. intros y [<-|Hy]; [by apply tuple_ltb_asym|].
    eapply tuple_nlt_trans; [apply tuple_ltb_asym, Hlt|auto].
  - split; [|auto]. intros y [->|Hy]%insert_desc_In; auto.
Qed.

Lemma sort_reverse_fold {A} (l : list (list N * A)) : forall acc,
  descending_keys acc ->
  descending_keys (fold_left (fun acc x => insert_desc x acc) l acc)
  /\ Permutation (fold_left (fun acc x => insert_desc x acc) l acc) (l ++ acc).
Proof.
  induction l as [|x l IH]; intros acc Hacc; simpl; [done|].
  destruct (IH (insert_desc x acc) (insert_desc_descending x acc Hacc)) as [H1 H2].
  split; [done|]. rewrite H2, insert_desc_Permutation.
  by rewrite Permutation_middle.
Qed.

Lemma sort_reverse_spec {A} (l : list (list N * A)) :
  descending_keys (sort_reverse l) /\ Permutation (sort_reverse l) l.
Proof.
  destruct (sort_reverse_fold l [] I) as [H1 H2]. split; [done|].
  by rewrite app_nil_r in H2.
Qed.

Lemma descending_keys_lookup {A} (l : list (list N * A)) : forall i j x y,
  descending_keys l -> (i <= j)%nat -> l !! i = Some x -> l !! j = Some y ->
  tuple_ltb (fst x) (fst y) = false.
Proof.
  induction l as [|z l IH]; intros i j x y; [done|]. simpl. intros [Hz Hl] Hij.
  destruct i as [|i], j as [|j]; simpl; try lia.
  - intros; simplify_eq. apply tuple_ltb_irrefl.
  - intros ? Hy; simplify_eq. apply Hz. apply list_elem_of_In. by eapply list_elem_of_lookup_2.
  - apply IH; [done|lia].
Qed.

Lemma map_result_ok {A B} (f : A -> result B) l ys :
  map_result f l = Ok ys -> Forall2 (fun x y => f x = Ok y) l ys.
Proof.
  revert ys. induction l as [|x l IH]; intros ys; simpl.
  - intros H. simplify_eq. constructor.
  - destruct (f x) as [y|e] eqn:Hx; [|done].
    destruct (map_result f l) as [ys'|e]; [|done].
    intros H. simplify_eq. constructor; auto.
Qed.

Lemma map_result_total {A B} (f : A -> result B) l :
  Forall (fun x => exists y, f x = Ok y) l -> exists ys, map_result f l = Ok ys.
Proof.
  induction 1 as [|x l [y Hx] _ [ys IH]]; simpl; [eauto|].
  rewrite Hx, IH. eauto.
Qed.

(** The versions carry their own keys. *)
Lemma keyed_versions py_int versions keyed :
  map_result (fun v => match version_key py_int v with
                       | Ok k => Ok (k, v)
                       | Raise e => Raise e
                       end) versions = Ok keyed ->
  map snd keyed = versions
  /\ forall kv, In kv keyed -> version_key py_int (snd kv) = Ok (fst kv).
Proof.
  intros H%map_result_ok. induction H as [|v kv l l' Hv _ IH]; simpl; [done|].
  destruct IH as [IH1 IH2].
  destruct (version_key py_int v) as [k0|e] eqn:Hk; [|done]. simplify_eq.
  split; [done|]. intros kv [<-|Hin]; auto.
Qed.

(** What [list_releases] returns, when it returns. *)
Lemma list_releases_inv py_int h w vs w' :
  list_releases py_int h w = (Ok vs, w') ->
  exists text keyed,
    get_text h BASE_RELEASE w = (Ok text, w')
    /\ map snd keyed
       = List.filter (fullmatch_version h) (finditer_from HREF_DIR_RE_match 0 text)
    /\ (forall kv, In kv keyed -> version_key py_int (snd kv) = Ok (fst kv))
    /\ vs = map snd (sort_reverse keyed).
Proof.
  unfold list_releases. intros (text & w1 & Hget & Hrun)%bind_inv_ok.
  apply bind_inv_ok in Hrun as (keyed & w2 & Hk & Hret).
  unfold lift in Hk. unfold ret in Hret. simplify_eq.
  match goal with H : map_result _ _ = Ok _ |- _ => apply keyed_versions in H as [H1 H2] end.
  exists text, keyed. done.
Qed.

(** X27. The releases come back newest first, by number and not by spelling.
    The list is a rearrangement of the links of the index, taken as
    directory names, that are dotted versions; every one of them has a key,
    the tuple of its numbers; and no member has a lesser key than one that
    follows it. *)
Theorem list_releases_sorted py_int h w vs w' :
  list_releases py_int h w = (Ok vs, w') ->
  (exists text,
     get_text h BASE_RELEASE w = (Ok text, w')
     /\ Permutation vs (List.filter (fullmatch_version h)
                          (finditer_from HREF_DIR_RE_match 0 text)))
  /\ (forall v, In v vs -> exists k, version_key py_int v = Ok k)
  /\ (forall i j a b ka kb,
        (i <= j)%nat -> vs !! i = Some a -> vs !! j = Some b ->
        version_key py_int a = Ok ka -> version_key py_int b = Ok kb ->
        tuple_ltb ka kb = false).
Proof.
  intros (text & keyed & Hget & Hvers & Hkeys & ->)%list_releases_inv.
  destruct (sort_reverse_spec keyed) as [Hdesc Hperm].
  assert (Hkeys' : forall kv, In kv (sort_reverse keyed) ->
                     version_key py_int (snd kv) = Ok (fst kv)).
  { intros kv Hin. apply Hkeys. apply list_elem_of_In. rewrite <- Hperm.
    by apply list_elem_of_In. }
  split; [|split].
  - exists text. split; [done|]. rewrite <- Hvers. by apply Permutation_map.
  - intros v ([k v'] & <- & Hin)%in_map_iff. exists k. by apply Hkeys'.
  - intros i j a b ka kb Hij Hi Hj Ha Hb. rewrite list_lookup_fmap in Hi, Hj.
    destruct (sort_reverse keyed !! i) as [[ka' a']|] eqn:Hi'; [|done].
    destruct (sort_reverse keyed !! j) as [[kb' b']|] eqn:Hj'; [|done].
    simpl in Hi, Hj. simplify_eq.
    pose proof (descending_keys_lookup _ i j _ _ Hdesc Hij Hi' Hj') as Hlt. simpl in Hlt.
    apply list_elem_of_lookup_2, list_elem_of_In, Hkeys' in Hi'.
    apply list_elem_of_lookup_2, list_elem_of_In, Hkeys' in Hj'.
    simpl in *. congruence.
Qed.

Lemma list_releases_sorted_example :
  (exists text,
     get_text host_releases BASE_RELEASE (world_of ∅)
     = (Ok text, mkWorld ∅ 1000 [EvRequest BASE_RELEASE])
     /\ Permutation ["4.0"; "3.15"; "3.9"]
          (List.filter (fullmatch_version host_releases)
             (finditer_from HREF_DIR_RE_match 0 text)))
  /\ (forall v, In v ["4.0"; "3.15"; "3.9"] -> exists k, version_key decimal v = Ok k)
  /\ (forall i j a b ka kb,
        (i <= j)%nat ->
        ["4.0"; "3.15"; "3.9"] !! i = Some a -> ["4.0"; "3.15"; "3.9"] !! j = Some b ->
        version_key decimal a = Ok ka -> version_key decimal b = Ok kb ->
        tuple_ltb ka kb = false).
Proof.
  apply (list_releases_sorted decimal host_releases (world_of ∅)).
  vm_compute. reflexivity.
Defined.

(** A character of the class [\d] has no dot among its bytes. *)
Lemma no_dot_in_decimal c :
  is_digit c = true \/ is_lead c = true \/ is_continuation c = true ->
  Ascii.eqb c "." = false.
Proof.
  destruct (Ascii.eqb_spec c ".") as [->|]; [|done].
  by intros [H|[H|H]]; vm_compute in H.
Qed.

Lemma split_on_no_dot d : forall cur rest,
  all_class (fun c => negb (Ascii.eqb c ".")) d ->
  split_on "." cur (d +:+ rest) = split_on "." (cur +:+ d) rest.
Proof.
  induction d as [|c d IH]; intros cur rest Hd.
  - by rewrite append_empty_r.
  - apply all_class_cons in Hd as [Hc Hd]. apply negb_true_iff in Hc.
    rewrite append_cons. simpl. rewrite Hc, IH by done.
    by rewrite append_assoc.
Qed.

Lemma decimal_char_sound h s d rest :
  decimal_char h s = Some (d, rest) ->
  s = d +:+ rest /\ decimal_chars h 1 d
  /\ all_class (fun c => negb (Ascii.eqb c ".")) d.
Proof.
  destruct s as [|c s]; [done|]. simpl.
  destruct (is_digit c) eqn:Hd.
  - intros [= <- <-]. split; [done|]. split; [by repeat constructor|].
    apply all_class_cons. split; [|constructor].
    apply negb_true_iff, no_dot_in_decimal. by left.
  - destruct (is_lead c) eqn:Hl; [|done].
    destruct (span_sound is_continuation s) as (Hs & Hcont & _).
    destruct (unicode_decimal h _) eqn:Hu; [|done].
    intros [= <- <-]. split; [by rewrite append_cons, <- Hs|]. split.
    + rewrite <- (append_empty_r (String c _)). by constructor; [..|constructor].
    + apply all_class_cons. split.
      * apply negb_true_iff, no_dot_in_decimal. auto.
      * unfold all_class in *. eapply Forall_impl; [exact Hcont|].
        intros x Hx. apply negb_true_iff, no_dot_in_decimal. auto.
Qed.

Lemma decimal_chars_append h n a : forall m b,
  decimal_chars h n a -> decimal_chars h m b -> decimal_chars h (n + m) (a +:+ b).
Proof.
  intros m b Ha Hb. induction Ha as [|c a n Hc Ha IH|c cont a n Hc Hcont Hu Ha IH].
  - done.
  - rewrite append_cons. by constructor.
  - rewrite append_assoc. by constructor.
Qed.

(** The pieces of a dotted version are non-empty strings of decimal
    digits. *)
Lemma version_from_split h fuel : forall st s cur,
  version_from h fuel st s = true ->
  (exists n, decimal_chars h n cur) ->
  match st with VStart | VDot => cur = "" | VFirst | VLater => cur <> "" end ->
  Forall (fun p => p <> "" /\ exists n, decimal_chars h n p) (split_on "." cur s).
Proof.
  induction fuel as [|fuel IH]; intros st s cur; [done|].
  destruct s as [|c s].
  - simpl. destruct st; try done. intros _ Hcur Hne. by repeat constructor.
  - cbn [version_from].
    destruct (decimal_char h (String c s)) as [[d rest]|] eqn:Hd.
    + apply decimal_char_sound in Hd as (-> & Hd & Hdot).
      rewrite split_on_no_dot by done.
      assert (Hcur' : (exists n, decimal_chars h n cur) ->
                      exists n, decimal_chars h n (cur +:+ d)).
      { intros [n Hn]. exists (n + 1)%nat. by apply decimal_chars_append. }
      assert (Hne' : cur +:+ d <> "").
      { inversion Hd; subst; by destruct cur. }
      destruct st; intros Hv Hcur _; (eapply IH; [exact Hv|by apply Hcur'|exact Hne']).
    + simpl. destruct (Ascii.eqb c "."); [|done].
      destruct st; try done; intros Hv Hcur Hne;
        (constructor; [done|]; eapply IH; [exact Hv|by exists 0%nat; constructor|done]).
Qed.

(** X28. [int] is only ever given non-empty strings of decimal digits, as the
    class [\d] has them: where it reads every such string, listing the
    releases of an index that was fetched raises nothing. *)
Theorem list_releases_total py_int h w text w1 :
  (forall s n, s <> "" -> decimal_chars h n s -> exists v, py_int s = Ok v) ->
  get_text h BASE_RELEASE w = (Ok text, w1) ->
  exists vs, list_releases py_int h w = (Ok vs, w1).
Proof.
  intros Hint Hget. unfold list_releases. rewrite (bind_ok _ _ _ _ _ Hget).
  set (versions := List.filter (fullmatch_version h) _).
  destruct (map_result_total (fun v => match version_key py_int v with
                                       | Ok k => Ok (k, v)
                                       | Raise e => Raise e
                                       end) versions) as [keyed Hk].
  { apply Forall_forall. intros v [_ Hv]%list_elem_of_In%filter_In.
    destruct (map_result_total py_int (split_on "." "" v)) as [k Hkey].
    - eapply Forall_impl;
        [apply (version_from_split h (S (String.length v)) VStart v "");
         [exact Hv|by exists 0%nat; constructor|done]|].
      intros p [Hp1 [n Hp2]]. by eapply Hint.
    - unfold version_key. rewrite Hkey. eauto. }
  rewrite (bind_ok _ _ w1 keyed w1) by (unfold lift; by rewrite Hk).
  unfold ret. eauto.
Qed.

Lemma decimal_from_reads n s :
  decimal_chars host_releases n s -> forall acc, exists v, decimal_from acc s = Ok v.
Proof.
  induction 1 as [|c s n Hc _ IH|c cont s n Hc Hcont Hu _ IH]; intros acc.
  - simpl. eauto.
  - simpl. rewrite Hc. apply IH.
  - change (unicode_decimal host_releases) with arabic_indic in Hu.
    destruct cont as [|b [|b' cont]]; try done.
    assert (is_digit c = false) as Hd.
    { simpl in Hu. apply andb_true_iff in Hu as [[Hu _]%andb_true_iff _].
      apply Nat.eqb_eq in Hu. unfold is_digit. rewrite Hu. done. }
    rewrite !append_cons. change ("" +:+ s) with s. cbn [decimal_from].
    rewrite Hd, Hu. apply IH.
Qed.

Lemma decimal_reads s n :
  s <> "" -> decimal_chars host_releases n s -> exists v, decimal s = Ok v.
Proof.
  intros Hne Hdig. unfold decimal.
  destruct (String.eqb_spec s "") as [|_]; [done|].
  by eapply decimal_from_reads.
Qed.

Lemma list_releases_total_example :
  exists vs,
    list_releases decimal host_releases (world_of ∅)
    = (Ok vs, mkWorld ∅ 1000 [EvRequest BASE_RELEASE]).
Proof.
  apply (list_releases_total decimal host_releases (world_of ∅) releases_page).
  - exact decimal_reads.
  - vm_compute. reflexivity.
Defined.

(** ** The listings only read *)

Lemma reads_only_same {A} (m : M A) : (forall w, snd (m w) = w) -> reads_only m.
Proof.
  intros H w. rewrite H. split; [done|]. split; [done|].
  exists []. by rewrite app_nil_r.
Qed.

Lemma reads_only_ret {A} (a : A) : reads_only (ret a).
Proof. by apply reads_only_same. Qed.

Lemma reads_only_lift {A} (r : result A) : reads_only (lift r).
Proof. by apply reads_only_same. Qed.

Lemma reads_only_bind {A B} (m : M A) (k : A -> M B) :
  reads_only m -> (forall a, reads_only (k a)) -> reads_only (bind m k).
Proof.
  intros Hm Hk w. destruct (Hm w) as (Hfs & Hnow & evs & Htr & Hev). unfold bind.
  destruct (m w) as [[a|e] w1]; simpl in *; [|eauto].
  destruct (Hk a w1) as (Hfs' & Hnow' & evs' & Htr' & Hev').
  split; [congruence|]. split; [congruence|].
  exists (evs ++ evs'). rewrite Htr', Htr, <- app_assoc. split; [done|].
  by apply Forall_app.
Qed.

Lemma reads_only_get_text h url : reads_only (get_text h url).
Proof.
  intros w. rewrite get_text_world. unfold session_get.
  destruct (urlopen_trace h (status_forcelist _retry) url (total _retry) w) as (k & _ & ->).
  simpl. split; [done|]. split; [done|]. eexists. split; [done|].
  apply Forall_forall. intros ev Hev%list_elem_of_In%repeat_spec. by subst.
Qed.

Lemma reads_only_except {A} (m : M (option A)) :
  reads_only m -> reads_only (except_SystemExit_pass m).
Proof.
  intros Hm w. specialize (Hm w). unfold except_SystemExit_pass.
  destruct (m w) as [[a|[]] w1]; done.
Qed.

(** X29. The three listings only read: whatever they return or raise, the
    volume and the clock are as they were, and all they have done is send
    requests. *)
Theorem listings_read_only py_int h device :
  reads_only (list_releases py_int h)
  /\ reads_only (list_devices_from_daily h)
  /\ reads_only (list_dailies_for_device h device).
Proof.
  split; [|split].
  - unfold list_releases.
    apply reads_only_bind; [apply reads_only_get_text|]. intros text.
    apply reads_only_bind; [apply reads_only_lift|]. intros keyed. apply reads_only_ret.
  - unfold list_devices_from_daily. apply reads_only_bind.
    + apply reads_only_except.
      apply reads_only_bind; [apply reads_only_get_text|]. intros text.
      destruct (bool_decide _); apply reads_only_ret.
    + intros [devs|]; [apply reads_only_ret|].
      apply reads_only_bind; [apply reads_only_get_text|]. intros page. apply reads_only_ret.
  - unfold list_dailies_for_device. apply reads_only_bind.
    + apply reads_only_except.
      apply reads_only_bind; [apply reads_only_get_text|]. intros text.
      destruct (bool_decide _); apply reads_only_ret.
    + intros [out|]; [apply reads_only_ret|].
      apply reads_only_bind; [apply reads_only_get_text|]. intros page. apply reads_only_ret.
Qed.

(** ** Printing a list *)

(** X30. With a positive cap, [_print_capped] prints at most one line more than
    the cap: a list within the cap is printed whole, one row an item; of a
    longer list the first [max_list] items are printed, in order, and one
    more line tells how many were left out. A cap of zero or less prints
    every item. *)
Theorem print_capped_rows items max_list :
  (0 < max_list ->
     (length (_print_capped items max_list) <= Z.to_nat max_list + 1)%nat
     /\ (Z.of_nat (length items) <= max_list ->
           _print_capped items max_list = map (fun v => "   " +:+ v) items)
     /\ (max_list < Z.of_nat (length items) ->
           exists shown left_out,
             items = shown ++ left_out
             /\ Z.of_nat (length shown) = max_list
             /\ _print_capped items max_list
                = map (fun v => "   " +:+ v) shown
                  ++ ["  ... (" +:+ pretty (Z.of_nat (length left_out)) +:+ " more)"]))
  /\ (max_list <= 0 ->
        _print_capped items max_list = map (fun v => "   " +:+ v) items).
Proof.
  unfold _print_capped. split.
  - intros Hpos. destruct (Z.ltb_spec 0 max_list); [|lia].
    split; [|split].
    + rewrite length_app, length_map, length_firstn.
      destruct (_ <? _); simpl; lia.
    + intros Hle. destruct (Z.ltb_spec max_list (Z.of_nat (length items))); [lia|].
      rewrite app_nil_r, firstn_all2; [done|lia].
    + intros Hlt. destruct (Z.ltb_spec max_list (Z.of_nat (length items))); [|lia].
      exists (firstn (Z.to_nat max_list) items), (skipn (Z.to_nat max_list) items).
      split; [by rewrite firstn_skipn|].
      split; [rewrite length_firstn; lia|].
      rewrite length_skipn.
      by replace (Z.of_nat (length items - Z.to_nat max_list))
        with (Z.of_nat (length items) - max_list) by lia.
  - intros Hle. by destruct (Z.ltb_spec 0 max_list); [lia|].
Qed.
